(** * Assembly-line balancing: a shallow embedding of [line.py] and
      [line_balancing.py], and the properties of the allocation engine.

    Python numbers are idealised as exact rationals ([Q]): every [+], [-],
    [/], [//] and [<=] of the source is the exact operation, so statements
    about times are stated up to [Qeq] ([==]).  What the source does to a
    float beyond that is outside the model: no sum or quotient is rounded,
    and no arithmetic line raises an [OverflowError] or the [ValueError] of
    [int(nan)], as the line of [min_stations] does on numbers beyond the
    range of the floats.  Dictionaries are finite maps
    ([gmap]), the set of assigned tasks is a [gset], task identifiers are
    strings and station numbers are natural numbers.  The [while] loop of the
    engine is run with an explicit bound on the number of iterations. *)

From Stdlib Require Import QArith Qround Qfield Lqa.
From stdpp Require Import gmap strings list fin_maps sorting.

(** ** Exceptions and results *)

Inductive exn : Type :=
| KeyError
| ValueError
| ZeroDivisionError
| NameError
| NetworkXUnfeasible.

(** Result of a computation that has no allocation state of its own. *)
Inductive result (A : Type) : Type :=
| Ok (a : A)
| Err (e : exn)
| NoFuel.
Arguments Ok {A} a.
Arguments Err {A} e.
Arguments NoFuel {A}.

Definition bind {A B : Type} (r : result A) (k : A → result B) : result B :=
  match r with
  | Ok a => k a
  | Err e => Err e
  | NoFuel => NoFuel
  end.

Notation "'do' x <- r 'in' k" := (bind r (λ x, k))
  (at level 10, x name, r at level 100, k at level 200, only parsing).

(** [d[k]] on a dictionary: [KeyError] when the key is missing. *)
Definition getitem {K V : Type} `{Countable K} (d : gmap K V) (k : K) : result V :=
  match d !! k with
  | Some v => Ok v
  | None => Err KeyError
  end.

(** [sum(d.values())], starting from [0]. *)
Definition sum_values {K : Type} `{Countable K} (d : gmap K Q) : Q :=
  map_fold (λ _ v acc, acc + v)%Q 0%Q d.

(** Sum of the durations of a list of tasks (a missing duration counts 0). *)
Definition duration (times : gmap string Q) (t : string) : Q :=
  default 0%Q (times !! t).

Definition sum_durations (times : gmap string Q) (l : list string) : Q :=
  foldr (λ t acc, duration times t + acc)%Q 0%Q l.

(** ** The precedence graph ([networkx.DiGraph])

    Nodes are kept in insertion order; [adj] maps a node to its successors
    in the order the edges were added.  Adding a node or an edge twice has no
    effect, and adding an edge adds its endpoints. *)

Record DiGraph : Type := mkDiGraph {
  nodes : list string;
  adj : gmap string (list string)
}.

Definition empty_graph : DiGraph := mkDiGraph [] ∅.

Definition add_node (G : DiGraph) (t : string) : DiGraph :=
  if bool_decide (t ∈ nodes G) then G else mkDiGraph (nodes G ++ [t]) (adj G).

Definition successors (G : DiGraph) (n : string) : list string :=
  default [] (adj G !! n).

Definition add_edge (G : DiGraph) (p t : string) : DiGraph :=
  let G1 := add_node (add_node G p) t in
  if bool_decide (t ∈@{list string} successors G1 p) then G1
  else mkDiGraph (nodes G1) (<[p := successors G1 p ++ [t]]> (adj G1)).

Definition in_degree (G : DiGraph) (v : string) : nat :=
  length (filter (λ u, v ∈@{list string} successors G u) (nodes G)).

(** [networkx.topological_sort]: Kahn's algorithm by generations.  A node
    enters the next generation when the last of its incoming edges has been
    consumed; nodes left with a positive in-degree at the end reveal a cycle
    ([NetworkXUnfeasible]). *)
Definition consume_edge (acc : gmap string nat * list string) (child : string)
  : gmap string nat * list string :=
  let '(indegree_map, zero_indegree) := acc in
  match indegree_map !! child with
  | Some 1%nat => (delete child indegree_map, zero_indegree ++ [child])
  | Some (S d) => (<[child := d]> indegree_map, zero_indegree)
  | _ => acc
  end.

Definition next_generation (G : DiGraph) (indegree_map : gmap string nat)
    (this_generation : list string) : gmap string nat * list string :=
  foldl (λ acc node, foldl consume_edge acc (successors G node))
        (indegree_map, []) this_generation.

Fixpoint generations (fuel : nat) (G : DiGraph) (indegree_map : gmap string nat)
    (zero_indegree : list string) : result (list string) :=
  match zero_indegree with
  | [] => if bool_decide (indegree_map = ∅) then Ok [] else Err NetworkXUnfeasible
  | _ =>
      match fuel with
      | O => NoFuel
      | S fuel' =>
          let '(indegree_map', zero') := next_generation G indegree_map zero_indegree in
          do rest <- generations fuel' G indegree_map' zero' in
          Ok (zero_indegree ++ rest)
      end
  end.

Definition topological_sort (G : DiGraph) : result (list string) :=
  let indegree_map : gmap string nat :=
    list_to_map (omap (λ v, match in_degree G v with
                            | O => None
                            | d => Some (v, d)
                            end) (nodes G)) in
  let zero_indegree := filter (λ v, in_degree G v = O) (nodes G) in
  generations (length (nodes G)) G indegree_map zero_indegree.

(** ** [compute_positional_weights] *)

(** The graph of both files: one node per task, one edge [p -> t] for every
    [p] in [predecessors[t]].  The order in which the entries of
    [predecessors] are visited decides the order of nodes and edges only, not
    the graph. *)
Definition build_graph (tasks : list string)
    (predecessors : gmap string (list string)) : DiGraph :=
  foldl (λ G '(t, preds), foldl (λ G' p, add_edge G' p t) G preds)
        (foldl add_node empty_graph tasks)
        (map_to_list predecessors).

(** [{t: times[t] for t in tasks}] *)
Fixpoint dict_of_times (times : gmap string Q) (tasks : list string)
  : result (gmap string Q) :=
  match tasks with
  | [] => Ok ∅
  | t :: rest =>
      do d <- getitem times t in
      do m <- dict_of_times times rest in
      Ok (<[t := d]> m)
  end.

(** [pw[node] += pw[succ]] for every successor of [node]. *)
Fixpoint accumulate_node (pw : gmap string Q) (node : string) (succs : list string)
  : result (gmap string Q) :=
  match succs with
  | [] => Ok pw
  | succ :: rest =>
      do a <- getitem pw node in
      do b <- getitem pw succ in
      accumulate_node (<[node := (a + b)%Q]> pw) node rest
  end.

Fixpoint accumulate (G : DiGraph) (pw : gmap string Q) (topo : list string)
  : result (gmap string Q) :=
  match topo with
  | [] => Ok pw
  | node :: rest =>
      do pw' <- accumulate_node pw node (successors G node) in
      accumulate G pw' rest
  end.

Definition compute_positional_weights (tasks : list string) (times : gmap string Q)
    (predecessors : gmap string (list string)) : result (gmap string Q) :=
  let G := build_graph tasks predecessors in
  do order <- topological_sort G in
  let topo := reverse order in
  do positional_weights <- dict_of_times times tasks in
  accumulate G positional_weights topo.

(** ** The state of the allocation loop *)

Record state : Type := mkState {
  workstations : gmap nat (list string);
  station_times : gmap nat Q;
  assigned_tasks : gset string;
  current_station : nat
}.

Definition initial_state : state :=
  mkState ∅ {[ 1%nat := 0%Q ]} ∅ 1.

(** How a run of the loop, or of the whole engine, ends.  An exception is
    reported with the allocation state reached when it was raised; for an
    exception raised before the loop this is the initial state, in which no
    task has been placed.  [OutOfFuel]: the bound on the number of iterations
    was reached with the loop still running. *)
Inductive run (A : Type) : Type :=
| Done (a : A)
| Raised (e : exn) (st : state)
| OutOfFuel.
Arguments Done {A} a.
Arguments Raised {A} e st.
Arguments OutOfFuel {A}.

Record metrics : Type := mkMetrics {
  total_work_content : Q;
  m_cycle_time : Q;
  min_stations : Z;
  actual_stations : nat;
  idle_time : Q;
  efficiency : Q;
  balance_delay : Q;
  m_station_times : gmap nat Q
}.

(** ** Ranking: [list.sort(key=..., reverse=True)]

    The sort is stable also with [reverse=True]: candidates with equal keys
    keep their relative order. *)

Fixpoint insert_desc (x : string * Q) (l : list (string * Q)) : list (string * Q) :=
  match l with
  | [] => [x]
  | y :: l' =>
      if Qle_bool (snd y) (snd x) then x :: y :: l'
      else y :: insert_desc x l'
  end.

Definition sort_desc (l : list (string * Q)) : list (string * Q) :=
  foldr insert_desc [] l.

Fixpoint with_keys (key : string → result Q) (cand : list string)
  : result (list (string * Q)) :=
  match cand with
  | [] => Ok []
  | t :: rest =>
      do k <- key t in
      do ks <- with_keys key rest in
      Ok ((t, k) :: ks)
  end.

Section Allocation.

Context (tasks : list string) (times : gmap string Q)
        (predecessors : gmap string (list string)) (cycle_time : Q)
        (heuristic : string).
(** [positional_weights] is bound only for the ranked heuristic. *)
Context (positional_weights : option (gmap string Q)).

(** [predecessors.get(task, [])] *)
Definition preds_of (task : string) : list string :=
  default [] (predecessors !! task).

Definition eligible (assigned : gset string) (task : string) : bool :=
  bool_decide (task ∉ assigned)
  && forallb (λ p, bool_decide (p ∈ assigned)) (preds_of task).

Definition candidates (assigned : gset string) : list string :=
  filter (λ t, eligible assigned t = true) tasks.

Definition sort_key (t : string) : result Q :=
  if String.eqb heuristic "longest_task_time" then getitem times t
  else match positional_weights with
       | Some pw => getitem pw t
       | None => Err NameError
       end.

Definition ranked (cand : list string) : result (list string) :=
  do ks <- with_keys sort_key cand in
  Ok (map fst (sort_desc ks)).

(** The three updates of a successful placement. *)
Definition place (st : state) (t : string) (cur d : Q) : state :=
  let s := current_station st in
  mkState (<[s := default [] (workstations st !! s) ++ [t]]> (workstations st))
          (<[s := (cur + d)%Q]> (station_times st))
          ({[ t ]} ∪ assigned_tasks st)
          s.

(** Closing the current station and opening the next one. *)
Definition open_station (st : state) : state :=
  let s := S (current_station st) in
  mkState (workstations st) (<[s := 0%Q]> (station_times st))
          (assigned_tasks st) s.

(** The [for t in cand] loop: the first candidate that fits is placed. *)
Fixpoint try_place (st : state) (cand : list string) : result (option state) :=
  match cand with
  | [] => Ok None
  | t :: rest =>
      do cur <- getitem (station_times st) (current_station st) in
      do d <- getitem times t in
      if Qle_bool (cur + d) cycle_time then Ok (Some (place st t cur d))
      else try_place st rest
  end.

(** One iteration of the [while] loop. *)
Definition body (st : state) : result state :=
  let cand := candidates (assigned_tasks st) in
  match cand with
  | [] => Err ValueError
  | _ =>
      do sorted <- ranked cand in
      do placed <- try_place st sorted in
      match placed with
      | Some st' => Ok st'
      | None => Ok (open_station st)
      end
  end.

Definition unfinished (st : state) : bool :=
  bool_decide (size (assigned_tasks st) < length tasks)%nat.

Fixpoint while_loop (fuel : nat) (st : state) : run state :=
  if unfinished st then
    match fuel with
    | O => OutOfFuel
    | S fuel' =>
        match body st with
        | Ok st' => while_loop fuel' st'
        | Err e => Raised e st
        | NoFuel => OutOfFuel
        end
    end
  else Done st.

(** The metrics derivation after the loop. *)
Definition derive_metrics (total : Q) (mins : Z) (st : state)
  : run (gmap nat (list string) * metrics) :=
  let n := size (workstations st) in
  let idle := map_fold (λ _ v acc, acc + (cycle_time - v))%Q 0%Q (station_times st) in
  let capacity := (inject_Z (Z.of_nat n) * cycle_time)%Q in
  if Qeq_bool capacity 0 then Raised ZeroDivisionError st
  else
    let eff := (total / capacity * 100)%Q in
    Done (workstations st,
          mkMetrics total cycle_time mins n idle eff (100 - eff)%Q (station_times st)).

End Allocation.

(** [max(1, int((total + cycle_time - 0.01) // cycle_time))], as the exact
    floor of the exact quotient. *)
Definition min_stations_of (total cycle_time : Q) : Z :=
  Z.max 1 (Qfloor ((total + cycle_time - (1 # 100)) / cycle_time)).

(** The positional weights are computed only for the ranked heuristic. *)
Definition weights_for (tasks : list string) (times : gmap string Q)
    (predecessors : gmap string (list string)) (heuristic : string)
  : result (option (gmap string Q)) :=
  if String.eqb heuristic "ranked_positional_weight" then
    do pw <- compute_positional_weights tasks times predecessors in
    Ok (Some pw)
  else Ok None.

(** Everything from the positional weights on is the same in both files. *)
Definition allocate_and_report (fuel : nat) (tasks : list string)
    (times : gmap string Q) (predecessors : gmap string (list string))
    (cycle_time : Q) (heuristic : string) (total : Q) (mins : Z)
  : run (gmap nat (list string) * metrics) :=
  match weights_for tasks times predecessors heuristic with
  | Err e => Raised e initial_state
  | NoFuel => OutOfFuel
  | Ok positional_weights =>
      match while_loop tasks times predecessors cycle_time heuristic
                       positional_weights fuel initial_state with
      | Done st => derive_metrics cycle_time total mins st
      | Raised e st => Raised e st
      | OutOfFuel => OutOfFuel
      end
  end.

(** ** [line.py] *)
Module Line.

(** [followers[p].append(t)] for every predecessor [p] of [t]. *)
Fixpoint add_followers (followers : gmap string (list string)) (t : string)
    (preds : list string) : result (gmap string (list string)) :=
  match preds with
  | [] => Ok followers
  | p :: rest =>
      do l <- getitem followers p in
      add_followers (<[p := l ++ [t]]> followers) t rest
  end.

Fixpoint fill_followers (predecessors : gmap string (list string))
    (followers : gmap string (list string)) (ts : list string)
  : result (gmap string (list string)) :=
  match ts with
  | [] => Ok followers
  | t :: rest =>
      do f <- add_followers followers t (preds_of predecessors t) in
      fill_followers predecessors f rest
  end.

Definition build_followers (tasks : list string)
    (predecessors : gmap string (list string))
  : result (gmap string (list string)) :=
  fill_followers predecessors
    (list_to_map (map (λ t, (t, [])) tasks)) tasks.

Definition line_balancing_algorithm (fuel : nat) (tasks : list string)
    (times : gmap string Q) (predecessors : gmap string (list string))
    (cycle_time : Q) (heuristic : string)
  : run (gmap nat (list string) * metrics) :=
  let total_work_content := sum_values times in
  if Qeq_bool cycle_time 0 then Raised ZeroDivisionError initial_state
  else
    let min_stations := min_stations_of total_work_content cycle_time in
    match build_followers tasks predecessors with
    | Err e => Raised e initial_state
    | NoFuel => OutOfFuel
    | Ok _ =>
        allocate_and_report fuel tasks times predecessors cycle_time heuristic
                            total_work_content min_stations
    end.

End Line.

(** ** [line_balancing.py] *)
Module LineBalancing.

Definition line_balancing_algorithm (fuel : nat) (tasks : list string)
    (times : gmap string Q) (predecessors : gmap string (list string))
    (cycle_time : Q) (heuristic : string)
  : run (gmap nat (list string) * metrics) :=
  let total_work := sum_values times in
  if Qeq_bool cycle_time 0 then Raised ZeroDivisionError initial_state
  else
    let min_stations := min_stations_of total_work cycle_time in
    allocate_and_report fuel tasks times predecessors cycle_time heuristic
                        total_work min_stations.

End LineBalancing.


(** The engine of either source file. *)
Inductive source_file : Type := line_py | line_balancing_py.

Definition engine (f : source_file) :=
  match f with
  | line_py => Line.line_balancing_algorithm
  | line_balancing_py => LineBalancing.line_balancing_algorithm
  end.

(** ** Well-formed input (the input contract)

    Unique task identifiers; a positive duration for every task and for
    nothing else; a positive cycle time; a predecessor map that mentions
    tasks only and has no cycle. *)

Record valid_input (tasks : list string) (times : gmap string Q)
    (predecessors : gmap string (list string)) (cycle_time : Q) : Prop := {
  valid_unique : NoDup tasks;
  valid_durations : ∀ t, t ∈ tasks → ∃ d, times !! t = Some d ∧ (0 < d)%Q;
  valid_times_dom : ∀ t, is_Some (times !! t) → t ∈ tasks;
  valid_cycle_time : (0 < cycle_time)%Q;
  valid_members : ∀ t ps, predecessors !! t = Some ps →
                          t ∈ tasks ∧ ∀ p, p ∈ ps → p ∈ tasks;
  valid_acyclic : ∃ rank : string → nat,
      ∀ t p, p ∈ preds_of predecessors t → (rank p < rank t)%nat
}.

(** ** The loop as a transition system, and its invariant *)

Section Invariants.

Context (tasks : list string) (times : gmap string Q)
        (predecessors : gmap string (list string)) (cycle_time : Q).

(** The two ways an iteration can succeed. *)
Inductive step (st : state) : state → Prop :=
| step_place t cur d :
    t ∈ tasks →
    eligible predecessors (assigned_tasks st) t = true →
    station_times st !! current_station st = Some cur →
    times !! t = Some d →
    Qle_bool (cur + d) cycle_time = true →
    step st (place st t cur d)
| step_open cur :
    station_times st !! current_station st = Some cur →
    (∃ t, t ∈ tasks ∧ eligible predecessors (assigned_tasks st) t = true) →
    (∀ t, t ∈ tasks → eligible predecessors (assigned_tasks st) t = true →
          ∃ d, times !! t = Some d ∧ Qle_bool (cur + d) cycle_time = false) →
    step st (open_station st).

(** Task [t] is the [i]-th task of station [k]. *)
Definition at_position (w : gmap nat (list string)) (k i : nat) (t : string) : Prop :=
  ∃ l, w !! k = Some l ∧ l !! i = Some t.

(** The invariant of the loop: stations are numbered from 1 to the current
    one and hold, each task at one position, exactly the assigned tasks, which
    are tasks of the list; the time booked on a station is the sum of the
    durations of its tasks and within the cycle time; predecessors sit
    earlier; every station but possibly the current one holds a task, and a
    current station without a task has no time booked. *)
Record inv (st : state) : Prop := {
  inv_stations : ∀ k l, workstations st !! k = Some l →
      (1 ≤ k ≤ current_station st)%nat ∧ l ≠ [];
  inv_assigned : ∀ t, t ∈ assigned_tasks st ↔
      ∃ k i, at_position (workstations st) k i t;
  inv_tasks : ∀ t, t ∈ assigned_tasks st → t ∈ tasks ∧ is_Some (times !! t);
  inv_unique : ∀ t k i k' i',
      at_position (workstations st) k i t →
      at_position (workstations st) k' i' t → k = k' ∧ i = i';
  inv_times : ∀ k l, workstations st !! k = Some l →
      ∃ q, station_times st !! k = Some q
           ∧ (q == sum_durations times l)%Q ∧ (q <= cycle_time)%Q;
  inv_precedence : ∀ t p k i,
      at_position (workstations st) k i t →
      p ∈ preds_of predecessors t →
      ∃ k' i', at_position (workstations st) k' i' p
               ∧ (k' < k ∨ (k' = k ∧ i' < i))%nat;
  inv_opened : ∀ k, is_Some (station_times st !! k) ↔
      (1 ≤ k ≤ current_station st)%nat;
  inv_filled : ∀ k, (1 ≤ k < current_station st)%nat →
      is_Some (workstations st !! k);
  inv_current : workstations st !! current_station st = None →
      station_times st !! current_station st = Some 0%Q
      ∧ (workstations st = ∅ ∨ unfinished tasks st = true)
}.

(** An empty station that no candidate fits: the loop can only open
    further empty stations. *)
Definition stuck (st : state) : Prop :=
  unfinished tasks st = true
  ∧ station_times st !! current_station st = Some 0%Q
  ∧ ∀ t d, t ∈ tasks → eligible predecessors (assigned_tasks st) t = true →
           times !! t = Some d → Qle_bool (0 + d) cycle_time = false.

(** 1 when the current station has no time booked yet, 0 otherwise. *)
Definition fresh (st : state) : nat :=
  match station_times st !! current_station st with
  | Some q => if Qeq_bool q 0 then 1%nat else 0%nat
  | None => 0%nat
  end.

End Invariants.

(** ** Inputs used as examples *)

(** Two tasks in a chain: [A] (8 s) before [B] (5 s), cycle time 10 s. *)
Definition chain_tasks : list string := ["A"; "B"].
Definition chain_times : gmap string Q := {[ "A" := 8%Q; "B" := 5%Q ]}.
Definition chain_predecessors : gmap string (list string) :=
  {[ "A" := []; "B" := ["A"] ]}.
Definition chain_workstations : gmap nat (list string) :=
  {[ 1%nat := ["A"]; 2%nat := ["B"] ]}.
Definition chain_metrics : metrics :=
  mkMetrics 13 10 2 2 7 (1300 # 20) (700 # 20) {[ 1%nat := 8%Q; 2%nat := 5%Q ]}.

(** One task longer than the cycle time. *)
Definition oversized_tasks : list string := ["A"].
Definition oversized_times : gmap string Q := {[ "A" := 15%Q ]}.
Definition oversized_predecessors : gmap string (list string) := {[ "A" := [] ]}.

(** [B] names a predecessor [X] that is not a task. *)
Definition dangling_predecessors : gmap string (list string) :=
  {[ "A" := []; "B" := ["X"] ]}.

(** A diamond: [a] before [b] and [c], both before [d]. *)
Definition diamond_tasks : list string := ["a"; "b"; "c"; "d"].
Definition diamond_times : gmap string Q :=
  {[ "a" := 1%Q; "b" := 2%Q; "c" := 3%Q; "d" := 4%Q ]}.
Definition diamond_predecessors : gmap string (list string) :=
  {[ "a" := []; "b" := ["a"]; "c" := ["a"]; "d" := ["b"; "c"] ]}.

(** Two independent tasks of 5.005 s and 5 s. *)
Definition fractional_tasks : list string := ["A"; "B"].
Definition fractional_times : gmap string Q := {[ "A" := 1001 # 200; "B" := 5%Q ]}.
Definition fractional_predecessors : gmap string (list string) :=
  {[ "A" := []; "B" := [] ]}.

(** The demonstration data of [line_balancing.py]. *)
Definition demo_tasks : list string :=
  ["a"; "b"; "c"; "d"; "e"; "f"; "g"; "h"; "i"; "j"; "k"; "l"; "m"; "n"].
Definition demo_times : gmap string Q :=
  list_to_map
    [("a", 5%Q); ("b", 1%Q); ("c", 3%Q); ("d", 2%Q); ("e", 4%Q); ("f", 6%Q);
     ("g", 2%Q); ("h", 5%Q); ("i", 2%Q); ("j", 2%Q); ("k", 3%Q); ("l", 8%Q);
     ("m", 3%Q); ("n", 4%Q)].
Definition demo_predecessors : gmap string (list string) :=
  list_to_map
    [("a", []); ("b", ["a"]); ("c", ["a"]); ("d", ["a"]); ("e", ["b"]);
     ("f", ["c"; "d"]); ("g", ["b"; "c"]); ("h", ["e"]); ("i", ["f"]);
     ("j", ["h"]); ("k", ["h"]); ("l", ["i"]); ("m", ["j"]);
     ("n", ["g"; "k"; "l"; "m"])].

(** ** Positional weight, as the glossary words it

    A task's own duration plus the durations of all the tasks that depend on
    it, directly or not, each of them counted once. *)

Fixpoint descendants (depth : nat) (G : DiGraph) (t : string) : list string :=
  match depth with
  | O => []
  | S depth' =>
      remove_dups (flat_map (λ s, s :: descendants depth' G s) (successors G t))
  end.

Definition spec_positional_weight (tasks : list string) (times : gmap string Q)
    (predecessors : gmap string (list string)) (t : string) : Q :=
  let G := build_graph tasks predecessors in
  (duration times t + sum_durations times (descendants (length (nodes G)) G t))%Q.

(** ** Direct precedence

    [p] is listed among the predecessors of [t]. *)
Definition precedes (predecessors : gmap string (list string)) (p t : string) : Prop :=
  p ∈ preds_of predecessors t.

(** ** The line read station by station, and sums of numbers *)

Definition line_sequence (w : gmap nat (list string)) (n : nat) : list string :=
  seq 1 n ≫= λ k, default [] (w !! k).

Definition sum_list (l : list Q) : Q := foldr Qplus 0%Q l.

(** ** Ranking order

    [x] ranks no lower than [y]; [has_key key v t]: the key of [t] is [v]. *)
Definition key_ge (x y : string * Q) : Prop := (snd y <= snd x)%Q.

Definition has_key (key : string → result Q) (v : Q) (t : string) : bool :=
  match key t with
  | Ok k => Qeq_bool k v
  | _ => false
  end.

(** ** Stations are closed only when needed

    [closed_when_needed]: the task that opens station [k + 1] did not fit
    station [k].  [fresh_station_needed]: while the current station is still
    empty, no eligible task fits the station before it. *)
Definition closed_when_needed (times : gmap string Q) (cycle_time : Q)
    (st : state) : Prop :=
  ∀ k l t l',
    workstations st !! k = Some l →
    workstations st !! S k = Some (t :: l') →
    ∃ q d, station_times st !! k = Some q ∧ times !! t = Some d
           ∧ Qle_bool (q + d) cycle_time = false.

Definition fresh_station_needed (tasks : list string) (times : gmap string Q)
    (predecessors : gmap string (list string)) (cycle_time : Q)
    (st : state) : Prop :=
  workstations st !! current_station st = None →
  ∀ k, S k = current_station st → is_Some (workstations st !! k) →
  ∀ t, t ∈ tasks → eligible predecessors (assigned_tasks st) t = true →
    ∃ q d, station_times st !! k = Some q ∧ times !! t = Some d
           ∧ Qle_bool (q + d) cycle_time = false.

(** ** Well-formed graphs, and the invariant of the topological sort

    What every [networkx.DiGraph] satisfies: no node is listed twice, no edge
    twice, and both ends of an edge are nodes. *)
Record wf_graph (G : DiGraph) : Prop := {
  wf_nodes : NoDup (nodes G);
  wf_succ_nodup : ∀ u, NoDup (successors G u);
  wf_succ_nodes : ∀ u v, v ∈ successors G u → u ∈ nodes G ∧ v ∈ nodes G
}.

Definition occurrences (v : string) (l : list string) : nat :=
  length (filter (λ x, x = v) l).

(** [G.predecessors(v)], restricted to the nodes of [l]. *)
Definition preds_in (G : DiGraph) (v : string) (l : list string) : list string :=
  filter (λ u, v ∈@{list string} successors G u) l.

(** Between two generations: [D] holds the nodes of the generations already
    yielded, [Z] the current generation.  The in-degree map holds exactly the
    nodes not yet released, each with the number of its predecessors outside
    [D]; every predecessor of a released node is in [D]. *)
Record kahn_inv (G : DiGraph) (D Z : list string) (indeg : gmap string nat) : Prop := {
  ki_nodup : NoDup (D ++ Z);
  ki_nodes : ∀ v, v ∈ D ++ Z → v ∈ nodes G;
  ki_none : ∀ v, indeg !! v = None ↔ (v ∉ nodes G ∨ v ∈ D ++ Z);
  ki_count : ∀ v c, indeg !! v = Some c →
             (0 < c)%nat ∧ (c + length (preds_in G v D))%nat = in_degree G v;
  ki_preds : ∀ v u, v ∈ D ++ Z → v ∈ successors G u → u ∈ D
}.

(** ** Paths

    The ends of all the paths that start at [t], [t] itself for the empty
    path: a task is listed once for every path that reaches it. *)
Fixpoint path_ends (depth : nat) (G : DiGraph) (t : string) : list string :=
  t :: match depth with
       | O => []
       | S depth' => flat_map (path_ends depth' G) (successors G t)
       end.

(** The positional weights the code returns on the chain and on the diamond. *)
Definition chain_weights : gmap string Q := {[ "A" := 13%Q; "B" := 5%Q ]}.
Definition diamond_weights : gmap string Q :=
  {[ "a" := 14%Q; "b" := 6%Q; "c" := 7%Q; "d" := 4%Q ]}.

(** ** [tree_lr_layout]

    The node identifiers are strings, and [list.sort] orders them by code
    point; the levels are Python integers, the coordinates are idealised as
    exact rationals.  The dictionaries [level], [columns] and [pos] are used
    as maps only: every column is sorted after it has been filled, so the
    order in which [level.items()] and [columns.items()] are visited does not
    show in the result. *)

(** [list(G.predecessors(node))] *)
Definition graph_predecessors (G : DiGraph) (node : string) : list string :=
  preds_in G node (nodes G).

(** [max(level[p] for p in preds)] *)
Fixpoint max_level (level : gmap string nat) (preds : list string) : result nat :=
  match preds with
  | [] => Err ValueError
  | [p] => getitem level p
  | p :: rest =>
      do a <- getitem level p in
      do b <- max_level level rest in
      Ok (Nat.max a b)
  end.

Fixpoint assign_levels (G : DiGraph) (level : gmap string nat) (order : list string)
  : result (gmap string nat) :=
  match order with
  | [] => Ok level
  | node :: rest =>
      let preds := graph_predecessors G node in
      do l <- match preds with
              | [] => Ok 0%nat
              | _ => do m <- max_level level preds in Ok (1 + m)%nat
              end in
      assign_levels G (<[node := l]> level) rest
  end.

(** [columns[lvl].append(node)] *)
Definition add_to_column (columns : gmap nat (list string)) (item : string * nat)
  : gmap nat (list string) :=
  let '(node, lvl) := item in
  <[lvl := default [] (columns !! lvl) ++ [node]]> columns.

(** [nodes.sort()] *)
Fixpoint insert_sorted (x : string) (l : list string) : list string :=
  match l with
  | [] => [x]
  | y :: l' => if String.leb x y then x :: l else y :: insert_sorted x l'
  end.

Definition sort_strings (l : list string) : list string :=
  foldr insert_sorted [] l.

(** The order of [str]: code point by code point. *)
Definition string_le (a b : string) : Prop := String.leb a b = true.

(** [(lvl * x_spacing, (top - i) * y_spacing)] *)
Definition position (x_spacing y_spacing : Q) (lvl size i : nat) : Q * Q :=
  (inject_Z (Z.of_nat lvl) * x_spacing,
   ((inject_Z (Z.of_nat size) - 1) / 2 - inject_Z (Z.of_nat i)) * y_spacing)%Q.

Definition place_node (x_spacing y_spacing : Q) (lvl size : nat)
    (pos : gmap string (Q * Q)) (item : nat * string) : gmap string (Q * Q) :=
  let '(i, node) := item in
  <[node := position x_spacing y_spacing lvl size i]> pos.

Definition place_column (x_spacing y_spacing : Q) (pos : gmap string (Q * Q))
    (column : nat * list string) : gmap string (Q * Q) :=
  let '(lvl, column_nodes) := column in
  foldl (place_node x_spacing y_spacing lvl (length column_nodes)) pos
        (imap pair column_nodes).

Definition tree_lr_layout (G : DiGraph) (x_spacing y_spacing : Q)
  : result (gmap string (Q * Q)) :=
  do order <- topological_sort G in
  do level <- assign_levels G ∅ order in
  let columns := foldl add_to_column ∅ (map_to_list level) in
  let columns := sort_strings <$> columns in
  Ok (foldl (place_column x_spacing y_spacing) ∅ (map_to_list columns)).

(** What the levels are: 0 for a node without predecessors, one more than
    the highest level of a predecessor otherwise. *)
Definition levels_correct (G : DiGraph) (level : gmap string nat) : Prop :=
  ∀ v lv, level !! v = Some lv →
    (graph_predecessors G v = [] → lv = 0%nat)
    ∧ (∀ u, v ∈ successors G u → ∃ lu, level !! u = Some lu ∧ (lu < lv)%nat)
    ∧ (graph_predecessors G v ≠ [] →
       ∃ u lu, v ∈ successors G u ∧ level !! u = Some lu ∧ lv = S lu).

(** The layout of the diamond with the default spacings 2 and 1.5; the
    fractions are left as the arithmetic produces them. *)
Definition diamond_layout : gmap string (Q * Q) :=
  {[ "a" := (0%Q, 0 # 4); "b" := (2%Q, 3 # 4); "c" := (2%Q, -3 # 4);
     "d" := (4%Q, 0 # 4) ]}.

(** ** The colours of the allocation tab ([create_line_balancing_gui]) *)

Definition palette : list string :=
  ["tab:red"; "tab:green"; "tab:blue"; "tab:orange"; "tab:purple";
   "tab:brown"; "tab:pink"; "tab:olive"; "tab:cyan"].

(** [sorted(workstations)]: the station numbers in increasing order. *)
Definition sorted_stations (workstations : gmap nat (list string)) : list nat :=
  merge_sort (≤) ((map_to_list workstations).*1).

(** [palette[i % len(palette)]]; the index is always in range. *)
Definition palette_colour (i : nat) : string :=
  default "" (palette !! (i mod length palette)).

(** The inner loop, [colour[t] = palette[i % len(palette)]] for the tasks of
    station [s]; [s] is a key of [workstations]. *)
Definition colour_station (workstations : gmap nat (list string))
    (colour : gmap string string) (item : nat * nat) : gmap string string :=
  let '(i, s) := item in
  foldl (λ c t, <[t := palette_colour i]> c) colour
        (default [] (workstations !! s)).

Definition station_colours (workstations : gmap nat (list string))
  : gmap string string :=
  foldl (colour_station workstations) ∅ (imap pair (sorted_stations workstations)).

(** [[colour.get(t, 'lightgray') for t in tasks]] *)
Definition node_colours (workstations : gmap nat (list string))
    (tasks : list string) : list string :=
  (λ t, default "lightgray" (station_colours workstations !! t)) <$> tasks.

(** ** Data entry at the console ([collect_data_from_user])

    A Python string is a list of characters.  Which characters are white
    space ([str.isspace]) and how [float] reads a number are left open: the
    section takes them as given.  The lines typed at the console are a list;
    [input] takes the first one and raises [EOFError] when none is left.  The
    prompts, which are only printed, are left out. *)

Inductive console_exn : Type :=
  | EOFError
  | Other (e : exn).

Section Console.

Context {char : Type} `{Countable char}.
Context (is_space : char → bool) (comma : char).
Context {number : Type} (float : list char → option number).
(** The one-character string ["2"]. *)
Context (two : list char).

(** [input(prompt)] *)
Definition input (lines : list (list char))
  : console_exn + (list char * list (list char)) :=
  match lines with
  | [] => inl EOFError
  | line :: rest => inr (line, rest)
  end.

(** [s.lstrip()] and [s.strip()] *)
Fixpoint lstrip (s : list char) : list char :=
  match s with
  | [] => []
  | c :: s' => if is_space c then lstrip s' else s
  end.

Definition strip (s : list char) : list char :=
  reverse (lstrip (reverse (lstrip s))).

(** [s.split(",")]: the pieces between the commas, empty ones included. *)
Fixpoint split (s : list char) : list (list char) :=
  match s with
  | [] => [[]]
  | c :: s' =>
      if decide (c = comma) then [] :: split s'
      else match split s' with
           | piece :: pieces => (c :: piece) :: pieces
           | [] => [[c]]
           end
  end.

(** [[t.strip() for t in s.split(",") if t.strip()]] *)
Definition parse_ids (s : list char) : list (list char) :=
  filter (λ piece, piece ≠ []) (strip <$> split s).

(** The loop over the tasks: a duration and a line of predecessors each. *)
Fixpoint read_tasks (tasks : list (list char))
    (times : gmap (list char) number)
    (predecessors : gmap (list char) (list (list char)))
    (lines : list (list char))
  : console_exn + (gmap (list char) number
                   * gmap (list char) (list (list char))
                   * list (list char)) :=
  match tasks with
  | [] => inr (times, predecessors, lines)
  | t :: tasks' =>
      match input lines with
      | inl e => inl e
      | inr (line, lines) =>
          match float (strip line) with
          | None => inl (Other ValueError)
          | Some d =>
              match input lines with
              | inl e => inl e
              | inr (line, lines) =>
                  read_tasks tasks' (<[t := d]> times)
                             (<[t := parse_ids (strip line)]> predecessors) lines
              end
          end
      end
  end.

Definition collect_data_from_user (lines : list (list char))
  : console_exn + (list (list char) * gmap (list char) number
                   * gmap (list char) (list (list char)) * number * string
                   * list (list char)) :=
  match input lines with
  | inl e => inl e
  | inr (line, lines) =>
      let tasks := parse_ids line in
      match read_tasks tasks ∅ ∅ lines with
      | inl e => inl e
      | inr (times, predecessors, lines) =>
          match input lines with
          | inl e => inl e
          | inr (line, lines) =>
              match float (strip line) with
              | None => inl (Other ValueError)
              | Some cycle_time =>
                  match input lines with
                  | inl e => inl e
                  | inr (line, lines) =>
                      let rule := strip line in
                      let heuristic :=
                        if decide (rule = two) then "ranked_positional_weight"
                        else "longest_task_time" in
                      inr (tasks, times, predecessors, cycle_time, heuristic, lines)
                  end
              end
          end
      end
  end.

(** An identifier as the entry leaves it: not empty, without a comma, and
    without white space at either end. *)
Definition trimmed (s : list char) : Prop :=
  s ≠ [] ∧ (comma ∉ s)
  ∧ (∀ c, head s = Some c → is_space c = false)
  ∧ (∀ c, last s = Some c → is_space c = false).

End Console.

(** An example console: the blank is the only white space, the comma is
    character 44, and [float] reads unsigned decimal integers.  The lines
    typed: the identifiers, then a duration and the predecessors for each
    task, the cycle time and the number of the heuristic. *)
Definition example_comma : Ascii.ascii := Ascii.ascii_of_nat 44.

Definition example_is_space (c : Ascii.ascii) : bool :=
  bool_decide (c = Ascii.ascii_of_nat 32).

Definition digit_of (c : Ascii.ascii) : option Z :=
  let n := (Z.of_N (Ascii.N_of_ascii c) - 48)%Z in
  if bool_decide (0 ≤ n ≤ 9)%Z then Some n else None.

Fixpoint digits_value (acc : Z) (s : list Ascii.ascii) : option Z :=
  match s with
  | [] => Some acc
  | c :: s' => d ← digit_of c; digits_value (10 * acc + d) s'
  end.

Definition example_float (s : list Ascii.ascii) : option Q :=
  match s with
  | [] => None
  | _ => inject_Z <$> digits_value 0 s
  end.

Definition example_lines : list (list Ascii.ascii) :=
  String.list_ascii_of_string <$> ["A, B,"; "8"; ""; " 5 "; "A"; "10"; "2"].

Definition example_A : list Ascii.ascii := String.list_ascii_of_string "A".
Definition example_B : list Ascii.ascii := String.list_ascii_of_string "B".

(** * Properties *)

(** ** Ranking returns the candidates, reordered *)

Lemma insert_desc_perm (x : string * Q) (l : list (string * Q)) :
  insert_desc x l ≡ₚ x :: l.
Proof.
  induction l as [|y l IH]; simpl; [done|].
  destruct (Qle_bool (snd y) (snd x)); [done|].
  rewrite IH. apply Permutation_swap.
Qed.

Lemma sort_desc_perm (l : list (string * Q)) : sort_desc l ≡ₚ l.
Proof.
  induction l as [|x l IH]; simpl; [done|].
  rewrite insert_desc_perm. by rewrite IH.
Qed.

Lemma with_keys_fst (key : string → result Q) (cand : list string) ks :
  with_keys key cand = Ok ks → map fst ks = cand.
Proof.
  revert ks. induction cand as [|t cand IH]; simpl; intros ks Hk.
  - by inversion Hk.
  - destruct (key t) as [k| |]; simpl in Hk; try discriminate.
    destruct (with_keys key cand) as [ks'| |]; simpl in Hk; try discriminate.
    inversion Hk; subst. simpl. by rewrite (IH ks').
Qed.

Section AllocationFacts.

Context (tasks : list string) (times : gmap string Q)
        (predecessors : gmap string (list string)) (cycle_time : Q)
        (heuristic : string) (positional_weights : option (gmap string Q)).

Local Abbreviation eligible' := (eligible predecessors).
Local Abbreviation candidates' := (candidates tasks predecessors).
Local Abbreviation ranked' := (ranked times heuristic positional_weights).
Local Abbreviation try_place' := (try_place times cycle_time).
Local Abbreviation body' :=
  (body tasks times predecessors cycle_time heuristic positional_weights).
Local Abbreviation unfinished' := (unfinished tasks).
Local Abbreviation while_loop' :=
  (while_loop tasks times predecessors cycle_time heuristic positional_weights).
Local Abbreviation step' := (step tasks times predecessors cycle_time).
Local Abbreviation inv' := (inv tasks times predecessors cycle_time).
Local Abbreviation stuck' := (stuck tasks times predecessors cycle_time).

Lemma ranked_perm cand sorted : ranked' cand = Ok sorted → sorted ≡ₚ cand.
Proof.
  unfold ranked. intros H.
  destruct (with_keys _ cand) as [ks| |] eqn:Hk; simpl in H; try discriminate.
  inversion H; subst. rewrite sort_desc_perm. by rewrite (with_keys_fst _ _ _ Hk).
Qed.

Lemma elem_of_candidates assigned t :
  t ∈ candidates' assigned ↔ t ∈ tasks ∧ eligible' assigned t = true.
Proof. unfold candidates. rewrite list_elem_of_filter. tauto. Qed.

Lemma eligible_spec assigned t :
  (eligible' assigned t = true) ↔
  (t ∉ assigned) ∧ (∀ p, p ∈ preds_of predecessors t → p ∈ assigned).
Proof.
  unfold eligible. rewrite andb_true_iff, bool_decide_eq_true.
  rewrite forallb_forall. split; intros [H1 H2]; split; try done.
  - intros p Hp. apply list_elem_of_In in Hp.
    specialize (H2 p Hp). by apply bool_decide_eq_true in H2.
  - intros p Hp. apply bool_decide_eq_true, H2. by apply list_elem_of_In.
Qed.

(** What a successful scan did, and what a failed scan saw. *)
Lemma try_place_Some st cand st' :
  try_place' st cand = Ok (Some st') →
  ∃ t cur d, t ∈ cand
    ∧ station_times st !! current_station st = Some cur
    ∧ times !! t = Some d
    ∧ Qle_bool (cur + d) cycle_time = true
    ∧ st' = place st t cur d.
Proof.
  induction cand as [|t cand IH]; simpl; [discriminate|].
  unfold getitem.
  destruct (station_times st !! current_station st) as [cur|] eqn:Hc;
    simpl; [|discriminate].
  destruct (times !! t) as [d|] eqn:Hd; simpl; [|discriminate].
  destruct (Qle_bool (cur + d) cycle_time) eqn:Hfit.
  - intros H; inversion H; subst. exists t, cur, d.
    repeat split; try done. apply list_elem_of_here.
  - intros H. destruct (IH H) as (t' & cur' & d' & Ht & H1 & H2 & H3 & H4).
    exists t', cur', d'. repeat split; try done. by apply list_elem_of_further.
Qed.

Lemma try_place_None st cand :
  try_place' st cand = Ok None →
  ∀ t, t ∈ cand →
    ∃ cur d, station_times st !! current_station st = Some cur
      ∧ times !! t = Some d
      ∧ Qle_bool (cur + d) cycle_time = false.
Proof.
  induction cand as [|t cand IH]; simpl; intros H t' Ht'.
  - by apply elem_of_nil in Ht'.
  - unfold getitem in H.
    destruct (station_times st !! current_station st) as [cur|] eqn:Hc;
      simpl in H; [|discriminate].
    destruct (times !! t) as [d|] eqn:Hd; simpl in H; [|discriminate].
    destruct (Qle_bool (cur + d) cycle_time) eqn:Hfit; [discriminate|].
    apply elem_of_cons in Ht' as [->|Ht'].
    + by exists cur, d.
    + by apply IH.
Qed.

Lemma body_step st st' : body' st = Ok st' → step' st st'.
Proof.
  unfold body.
  destruct (candidates' (assigned_tasks st)) as [|c cand] eqn:Hcand; [discriminate|].
  destruct (ranked' (c :: cand)) as [sorted| |] eqn:Hs; simpl; try discriminate.
  pose proof (ranked_perm _ _ Hs) as Hperm.
  destruct (try_place' st sorted) as [[st1|]| |] eqn:Hp; simpl; try discriminate.
  - intros H; inversion H; subst.
    destruct (try_place_Some _ _ _ Hp) as (t & cur & d & Ht & H1 & H2 & H3 & ->).
    rewrite Hperm, <- Hcand in Ht. apply elem_of_candidates in Ht as [??].
    by constructor.
  - intros H; inversion H; subst.
    pose proof (try_place_None _ _ Hp) as Hnone.
    assert (Hc : c ∈ candidates' (assigned_tasks st))
      by (rewrite Hcand; apply list_elem_of_here).
    destruct (Hnone c) as (cur & d & Hc1 & Hc2 & Hc3).
    { rewrite Hperm. apply list_elem_of_here. }
    apply (step_open _ _ _ _ st cur); [done| |].
    + exists c. by apply elem_of_candidates.
    + intros t Ht He.
      destruct (Hnone t) as (cur' & d' & H1 & H2 & H3).
      { rewrite Hperm, <- Hcand. by apply elem_of_candidates. }
      exists d'. split; [done|]. congruence.
Qed.

(** The invariant rule of the loop. *)
Lemma while_loop_invariant (P : state → Prop) :
  (∀ st st', P st → unfinished' st = true → step' st st' → P st') →
  ∀ fuel st, P st →
    match while_loop' fuel st with
    | Done st' => P st' ∧ unfinished' st' = false
    | Raised _ st' => P st' ∧ unfinished' st' = true
    | OutOfFuel => True
    end.
Proof.
  intros Hstep. induction fuel as [|fuel IH]; intros st HP; simpl.
  - destruct (unfinished' st) eqn:Hu; done.
  - destruct (unfinished' st) eqn:Hu; [|done].
    destruct (body' st) as [st1|e|] eqn:Hb; [|done|done].
    apply IH. eapply Hstep; [done..|]. by apply body_step.
Qed.


(** *** Sums of durations *)

Lemma sum_durations_snoc l t :
  (sum_durations times (l ++ [t]) == sum_durations times l + duration times t)%Q.
Proof.
  induction l as [|x l IH]; simpl.
  - lra.
  - rewrite IH. lra.
Qed.

(** *** Positions after a placement *)

Lemma at_position_place st t cur d k i x :
  at_position (workstations (place st t cur d)) k i x ↔
  at_position (workstations st) k i x
  ∨ (k = current_station st
     ∧ i = length (default [] (workstations st !! current_station st))
     ∧ x = t).
Proof.
  unfold at_position, place; simpl.
  destruct (decide (k = current_station st)) as [->|Hne].
  - rewrite lookup_insert_eq. split.
    + intros (l & Hl & Hi). inversion Hl; subst; clear Hl.
      apply lookup_snoc_Some in Hi as [[_ Hi]|[-> ->]]; [|by right].
      left. destruct (workstations st !! current_station st) as [l0|]; simpl in *.
      * by exists l0.
      * by rewrite lookup_nil in Hi.
    + intros [(l & Hl & Hi)|(_ & -> & ->)].
      * rewrite Hl; simpl. eexists; split; [done|].
        apply lookup_snoc_Some. left. split; [|done]. by eapply lookup_lt_Some.
      * eexists; split; [done|]. apply lookup_snoc_Some. by right.
  - rewrite lookup_insert_ne by done. split; [by left|].
    by intros [?|[? _]].
Qed.

(** *** The invariant is kept by a placement *)

Lemma inv_place st t cur d :
  inv' st →
  t ∈ tasks →
  eligible' (assigned_tasks st) t = true →
  station_times st !! current_station st = Some cur →
  times !! t = Some d →
  Qle_bool (cur + d) cycle_time = true →
  inv' (place st t cur d).
Proof.
  intros [Hst Has Hta Hun Hti Hpr Hop Hfi Hcu] Ht He Hcur Hd Hfit.
  apply eligible_spec in He as [Hnew Hpreds].
  assert (Hws : (1 ≤ current_station st)%nat).
  { assert (is_Some (station_times st !! current_station st)) as Hs by eauto.
    apply Hop in Hs. lia. }
  split.
  - simpl. intros k l Hl.
    destruct (decide (k = current_station st)) as [->|Hne].
    + rewrite lookup_insert_eq in Hl. inversion Hl. split; [lia|].
      intros Habs. apply app_eq_nil in Habs as [_ Habs]. discriminate.
    + rewrite lookup_insert_ne in Hl by done. by apply Hst.
  - intros x. setoid_rewrite at_position_place. simpl assigned_tasks.
    rewrite elem_of_union, elem_of_singleton, Has. split.
    + intros [->|(k & i & H)].
      * eexists _, _. right. done.
      * exists k, i. by left.
    + intros (k & i & [H|(_ & _ & ->)]); [right; eauto|by left].
  - intros x; simpl. rewrite elem_of_union, elem_of_singleton.
    intros [->|Hx]; [split; eauto|by apply Hta].
  - intros x k i k' i'. rewrite !at_position_place.
    intros [H1|(-> & -> & ->)] [H2|(-> & -> & H3)].
    + by eapply Hun.
    + subst x. exfalso. apply Hnew, Has. eauto.
    + exfalso. apply Hnew, Has. eauto.
    + done.
  - simpl. intros k l Hl.
    destruct (decide (k = current_station st)) as [->|Hne].
    + rewrite lookup_insert_eq in Hl. rewrite lookup_insert_eq.
      inversion Hl; subst l; clear Hl.
      exists (cur + d)%Q. split; [done|]. split; [|by apply Qle_bool_iff].
      rewrite sum_durations_snoc. unfold duration. rewrite Hd; simpl.
      assert (Hsum : (cur ==
        sum_durations times (default [] (workstations st !! current_station st)))%Q).
      { destruct (workstations st !! current_station st) as [l0|] eqn:E; simpl.
        - destruct (Hti _ _ E) as (q & Hq & Heq & _). congruence.
        - destruct (Hcu eq_refl) as [H0 _]. rewrite Hcur in H0.
          inversion H0. reflexivity. }
      rewrite Hsum. reflexivity.
    + rewrite lookup_insert_ne in Hl by done. rewrite lookup_insert_ne by done.
      by apply Hti.
  - intros x p k i. rewrite at_position_place.
    intros [H|(-> & -> & ->)] Hp.
    + destruct (Hpr _ _ _ _ H Hp) as (k' & i' & H' & Hlt).
      exists k', i'. split; [|done]. apply at_position_place. by left.
    + assert (Hin : p ∈ assigned_tasks st) by auto.
      apply Has in Hin as (k' & i' & H'). exists k', i'.
      split; [apply at_position_place; by left|].
      destruct H' as (l & Hl & Hi). destruct (Hst _ _ Hl) as [[_ Hle] _].
      destruct (decide (k' = current_station st)) as [->|Hne]; [right|left; lia].
      split; [done|]. rewrite Hl; simpl. by eapply lookup_lt_Some.
  - simpl. intros k. rewrite <- Hop.
    destruct (decide (k = current_station st)) as [->|Hne].
    + rewrite lookup_insert_eq, Hcur. split; eauto.
    + by rewrite lookup_insert_ne.
  - simpl. intros k Hk. rewrite lookup_insert_ne by lia. by apply Hfi.
  - simpl. rewrite lookup_insert_eq. discriminate.
Qed.

(** *** The invariant is kept when a non-empty station is closed *)

Lemma inv_open st :
  inv' st →
  unfinished' st = true →
  is_Some (workstations st !! current_station st) →
  inv' (open_station st).
Proof.
  intros [Hst Has Hta Hun Hti Hpr Hop Hfi Hcu] Hunf Hcur.
  split; simpl; try done.
  - intros k l Hl. destruct (Hst _ _ Hl) as [??]. split; [lia|done].
  - intros k l Hl. destruct (Hst _ _ Hl) as [??].
    rewrite lookup_insert_ne by lia. by apply Hti.
  - intros k. destruct (decide (k = S (current_station st))) as [->|Hne].
    + rewrite lookup_insert_eq. split; [lia|eauto].
    + rewrite lookup_insert_ne by done. rewrite Hop. lia.
  - intros k Hk. destruct (decide (k = current_station st)) as [->|Hne]; [done|].
    apply Hfi. lia.
  - intros _. rewrite lookup_insert_eq. split; [done|]. by right.
Qed.

(** *** Closing an empty station leads nowhere *)

Lemma stuck_open st :
  unfinished' st = true →
  station_times st !! current_station st = Some 0%Q →
  (∀ t, t ∈ tasks → eligible' (assigned_tasks st) t = true →
        ∃ d, times !! t = Some d ∧ Qle_bool (0 + d) cycle_time = false) →
  stuck' (open_station st).
Proof.
  intros Hunf Hcur Hnone. split; [done|]. split.
  - simpl. by rewrite lookup_insert_eq.
  - simpl. intros t d Ht He Hd.
    destruct (Hnone t Ht He) as (d' & Hd' & Hfit). congruence.
Qed.

Lemma stuck_step st st' : stuck' st → step' st st' → stuck' st'.
Proof.
  intros (Hunf & Hcur & Hnone) Hstep.
  destruct Hstep as [t cur d Ht He Hc Hd Hfit|cur Hc _ Hall].
  - rewrite Hcur in Hc. inversion Hc; subst cur.
    by rewrite (Hnone t d Ht He Hd) in Hfit.
  - apply stuck_open; try done.
    intros t Ht He. destruct (Hall t Ht He) as (d & Hd & _).
    exists d. split; [done|]. by eapply Hnone.
Qed.

Lemma invariant_step st st' :
  inv' st ∨ stuck' st → unfinished' st = true → step' st st' →
  inv' st' ∨ stuck' st'.
Proof.
  intros [Hinv|Hstuck] Hunf Hstep; [|right; by eapply stuck_step].
  destruct Hstep as [t cur d Ht He Hc Hd Hfit|cur Hc Hex Hall].
  - left. by apply inv_place.
  - destruct (workstations st !! current_station st) as [l|] eqn:Hl.
    + left. apply inv_open; eauto.
    + right. destruct (inv_current _ _ _ _ _ Hinv Hl) as [H0 _].
      rewrite Hc in H0. inversion H0; subst cur. by apply stuck_open.
Qed.

Lemma inv_initial : inv' initial_state.
Proof.
  split; simpl.
  - intros k l. by rewrite lookup_empty.
  - intros t. split; [set_solver|].
    intros (k & i & l & Hl & _). by rewrite lookup_empty in Hl.
  - set_solver.
  - intros t k i k' i' (l & Hl & _). by rewrite lookup_empty in Hl.
  - intros k l. by rewrite lookup_empty.
  - intros t p k i (l & Hl & _). by rewrite lookup_empty in Hl.
  - intros k. destruct (decide (k = 1%nat)) as [->|Hne].
    + rewrite lookup_singleton_eq. split; [lia|eauto].
    + rewrite lookup_singleton_ne by done. split; [by intros [??]|lia].
  - intros k Hk. lia.
  - intros _. split; [done|by left].
Qed.

(** What holds when the loop ends. *)
Lemma while_loop_Done fuel st :
  while_loop' fuel initial_state = Done st →
  inv' st ∧ unfinished' st = false.
Proof.
  intros Hrun.
  pose proof (while_loop_invariant (λ s, inv' s ∨ stuck' s) invariant_step
                fuel initial_state (or_introl inv_initial)) as H.
  rewrite Hrun in H. destruct H as [[Hinv|(Hunf & _)] Hfin]; [done|congruence].
Qed.

End AllocationFacts.

(** ** From the engine to its loop *)

Lemma derive_metrics_Done cycle_time total mins st w m :
  derive_metrics cycle_time total mins st = Done (w, m) →
  w = workstations st
  ∧ m_station_times m = station_times st
  ∧ min_stations m = mins
  ∧ size (workstations st) ≠ 0%nat.
Proof.
  unfold derive_metrics.
  destruct (Qeq_bool _ 0) eqn:Hz; [discriminate|].
  intros H; inversion H; subst; simpl. repeat split.
  intros Hsize. rewrite Hsize in Hz.
  apply Qeq_bool_neq in Hz. apply Hz.
  change (inject_Z (Z.of_nat 0)) with 0%Q. lra.
Qed.

Lemma allocate_and_report_Done fuel tasks times predecessors cycle_time heuristic
    total mins w m :
  allocate_and_report fuel tasks times predecessors cycle_time heuristic total mins
    = Done (w, m) →
  ∃ pw st,
    while_loop tasks times predecessors cycle_time heuristic pw fuel initial_state
      = Done st
    ∧ derive_metrics cycle_time total mins st = Done (w, m).
Proof.
  unfold allocate_and_report.
  destruct (weights_for _ _ _ _) as [pw| |]; try discriminate.
  destruct (while_loop _ _ _ _ _ _ _ _) as [st| |] eqn:Hloop; try discriminate.
  intros H. by exists pw, st.
Qed.

Lemma engine_Done f fuel tasks times predecessors cycle_time heuristic w m :
  engine f fuel tasks times predecessors cycle_time heuristic = Done (w, m) →
  ∃ pw st,
    while_loop tasks times predecessors cycle_time heuristic pw fuel initial_state
      = Done st
    ∧ derive_metrics cycle_time (sum_values times)
        (min_stations_of (sum_values times) cycle_time) st = Done (w, m).
Proof.
  destruct f; simpl;
    [unfold Line.line_balancing_algorithm
    |unfold LineBalancing.line_balancing_algorithm];
    destruct (Qeq_bool cycle_time 0); try discriminate.
  - destruct (Line.build_followers _ _); try discriminate.
    apply allocate_and_report_Done.
  - apply allocate_and_report_Done.
Qed.

(** The state the engine returns from: the invariant holds, every task
    counted, and the last station is not empty. *)
Lemma engine_Done_inv f fuel tasks times predecessors cycle_time heuristic w m :
  engine f fuel tasks times predecessors cycle_time heuristic = Done (w, m) →
  ∃ st,
    inv tasks times predecessors cycle_time st
    ∧ unfinished tasks st = false
    ∧ w = workstations st
    ∧ m_station_times m = station_times st
    ∧ min_stations m = min_stations_of (sum_values times) cycle_time
    ∧ is_Some (workstations st !! current_station st).
Proof.
  intros H. apply engine_Done in H as (pw & st & Hloop & Hm).
  apply while_loop_Done in Hloop as [Hinv Hfin].
  apply derive_metrics_Done in Hm as (-> & Hst & Hmin & Hsize).
  exists st. split_and!; try done.
  destruct (workstations st !! current_station st) as [ts|] eqn:Hts; [eauto|].
  destruct (inv_current _ _ _ _ _ Hinv Hts) as [_ [Hw|Hu]]; [|congruence].
  rewrite Hw in Hsize. by rewrite map_size_empty in Hsize.
Qed.

(** With unique task identifiers, the loop ends only when every task of the
    list is assigned. *)
Lemma finished_all_assigned tasks times predecessors cycle_time st :
  NoDup tasks →
  inv tasks times predecessors cycle_time st →
  unfinished tasks st = false →
  ∀ t, t ∈ tasks → t ∈ assigned_tasks st.
Proof.
  intros Hnd Hinv Hfin t Ht.
  unfold unfinished in Hfin. apply bool_decide_eq_false in Hfin.
  assert (Hsub : assigned_tasks st ⊆ list_to_set tasks).
  { intros x Hx. apply elem_of_list_to_set. by apply (inv_tasks _ _ _ _ _ Hinv). }
  assert (Heq : assigned_tasks st = list_to_set tasks).
  { apply set_subseteq_size_eq; [done|]. rewrite size_list_to_set by done. lia. }
  rewrite Heq. by apply elem_of_list_to_set.
Qed.

(** ** The chain example is a valid input *)

Lemma chain_valid : valid_input chain_tasks chain_times chain_predecessors 10.
Proof.
  split.
  - apply (bool_decide_unpack _). by vm_compute.
  - intros t Ht. unfold chain_tasks in Ht.
    apply elem_of_cons in Ht as [->|Ht];
      [|apply elem_of_cons in Ht as [->|Ht]; [|by apply elem_of_nil in Ht]].
    + exists 8%Q. split; [by vm_compute|lra].
    + exists 5%Q. split; [by vm_compute|lra].
  - intros t [d Hd]. unfold chain_times in Hd.
    apply lookup_insert_Some in Hd as [[<- _]|[_ Hd]]; [set_solver|].
    apply lookup_singleton_Some in Hd as [<- _]. set_solver.
  - lra.
  - intros t ps Hps. unfold chain_predecessors in Hps.
    apply lookup_insert_Some in Hps as [[<- <-]|[_ Hps]]; [set_solver|].
    apply lookup_singleton_Some in Hps as [<- <-]. set_solver.
  - exists (λ t, if bool_decide (t = "A") then 0%nat else 1%nat).
    intros t p Hp. unfold preds_of, chain_predecessors in Hp.
    destruct (decide (t = "A")) as [->|HA].
    { rewrite lookup_insert_eq in Hp. by apply elem_of_nil in Hp. }
    rewrite lookup_insert_ne in Hp by done.
    destruct (decide (t = "B")) as [->|HB].
    + rewrite lookup_singleton_eq in Hp. simpl in Hp.
      apply list_elem_of_singleton in Hp as ->. by vm_compute.
    + rewrite lookup_singleton_ne in Hp by done. by apply elem_of_nil in Hp.
Qed.

(** ** The engine under the longest-task-time rule *)

Lemma engine_longest_task_time f fuel tasks times predecessors cycle_time :
  Qeq_bool cycle_time 0 = false →
  (∃ followers, Line.build_followers tasks predecessors = Ok followers) →
  engine f fuel tasks times predecessors cycle_time "longest_task_time"
  = match while_loop tasks times predecessors cycle_time "longest_task_time"
                     None fuel initial_state with
    | Done st => derive_metrics cycle_time (sum_values times)
                   (min_stations_of (sum_values times) cycle_time) st
    | Raised e st => Raised e st
    | OutOfFuel => OutOfFuel
    end.
Proof.
  intros Hc [followers Hf].
  destruct f; simpl;
    [unfold Line.line_balancing_algorithm
    |unfold LineBalancing.line_balancing_algorithm];
    rewrite Hc; [rewrite Hf|]; reflexivity.
Qed.

(** ** A task longer than the cycle time *)

Lemma oversized_body st :
  assigned_tasks st = ∅ →
  station_times st !! current_station st = Some 0%Q →
  body oversized_tasks oversized_times oversized_predecessors 10
       "longest_task_time" None st = Ok (open_station st).
Proof.
  intros Ha Hs. unfold body. rewrite Ha.
  assert (candidates oversized_tasks oversized_predecessors ∅ = ["A"]) as ->
    by (by vm_compute).
  assert (ranked oversized_times "longest_task_time" None ["A"] = Ok ["A"]) as ->
    by (by vm_compute).
  simpl. unfold getitem. rewrite Hs. simpl.
  assert (oversized_times !! "A" = Some 15%Q) as -> by (by vm_compute).
  reflexivity.
Qed.

Lemma oversized_loop fuel : ∀ st,
  assigned_tasks st = ∅ →
  station_times st !! current_station st = Some 0%Q →
  while_loop oversized_tasks oversized_times oversized_predecessors 10
             "longest_task_time" None fuel st = OutOfFuel.
Proof.
  induction fuel as [|fuel IH]; intros st Ha Hs; simpl;
    unfold unfinished; rewrite Ha; simpl; [done|].
  rewrite oversized_body by done.
  apply IH; simpl; [done|]. by rewrite lookup_insert_eq.
Qed.

(** ** A predecessor that is not a task *)

Lemma add_followers_cases followers t preds :
  Line.add_followers followers t preds = Err KeyError
  ∨ ∃ followers', Line.add_followers followers t preds = Ok followers'
      ∧ dom followers' = dom followers
      ∧ ∀ p, p ∈ preds → p ∈ dom followers.
Proof.
  revert followers. induction preds as [|p preds IH]; intros followers; simpl.
  - right. exists followers. split_and!; [done..|]. by intros p ?%elem_of_nil.
  - unfold getitem. destruct (followers !! p) as [l|] eqn:Hp; simpl; [|by left].
    assert (Hdom : dom (<[p := l ++ [t]]> followers) = dom followers).
    { rewrite dom_insert_L. apply elem_of_dom_2 in Hp. set_solver. }
    destruct (IH (<[p := l ++ [t]]> followers)) as [->|(F & -> & HF & Hall)];
      [by left|right].
    exists F. split_and!; [done|congruence|].
    intros q [->|Hq]%elem_of_cons.
    + by apply elem_of_dom_2 in Hp.
    + rewrite <- Hdom. by apply Hall.
Qed.

Lemma fill_followers_cases predecessors followers ts :
  Line.fill_followers predecessors followers ts = Err KeyError
  ∨ ∃ followers', Line.fill_followers predecessors followers ts = Ok followers'
      ∧ dom followers' = dom followers
      ∧ ∀ t p, t ∈ ts → p ∈ preds_of predecessors t → p ∈ dom followers.
Proof.
  revert followers. induction ts as [|t ts IH]; intros followers; simpl.
  - right. exists followers. split_and!; [done..|]. by intros t p ?%elem_of_nil.
  - destruct (add_followers_cases followers t (preds_of predecessors t))
      as [->|(F1 & -> & HF1 & Hall1)]; simpl; [by left|].
    destruct (IH F1) as [->|(F2 & -> & HF2 & Hall2)]; [by left|right].
    exists F2. split_and!; [done|congruence|].
    intros t' p [->|Ht']%elem_of_cons Hp; [by apply Hall1|].
    rewrite <- HF1. by eapply Hall2.
Qed.

Lemma build_followers_dangling tasks predecessors t p :
  t ∈ tasks → p ∈ preds_of predecessors t → p ∉ tasks →
  Line.build_followers tasks predecessors = Err KeyError.
Proof.
  intros Ht Hp Hnot. unfold Line.build_followers.
  destruct (fill_followers_cases predecessors
              (list_to_map (map (λ t, (t, [])) tasks)) tasks)
    as [->|(F & _ & _ & Hall)]; [done|].
  exfalso. apply Hnot. specialize (Hall t p Ht Hp).
  rewrite dom_list_to_map_L in Hall. apply elem_of_list_to_set in Hall.
  rewrite <- list_fmap_compose in Hall.
  apply list_elem_of_fmap in Hall as (x & -> & Hx). done.
Qed.

Lemma size_list_to_set_le (l : list string) :
  (size (list_to_set l : gset string) ≤ length l)%nat.
Proof.
  induction l as [|x l IH]; simpl.
  - done.
  - rewrite size_union_alt, size_singleton.
    assert (size (list_to_set l ∖ {[x]} : gset string) ≤ size (list_to_set l : gset string))%nat
      by (apply subseteq_size; set_solver).
    lia.
Qed.

Lemma unassigned_task_unfinished tasks times predecessors cycle_time st t :
  inv tasks times predecessors cycle_time st →
  t ∈ tasks → t ∉ assigned_tasks st →
  unfinished tasks st = true.
Proof.
  intros Hinv Ht Hnot. unfold unfinished. apply bool_decide_eq_true.
  assert (Hsub : {[t]} ∪ assigned_tasks st ⊆ list_to_set tasks).
  { intros x [->%elem_of_singleton|Hx]%elem_of_union; apply elem_of_list_to_set;
      [done|]. by apply (inv_tasks _ _ _ _ _ Hinv). }
  apply subseteq_size in Hsub.
  rewrite size_union, size_singleton in Hsub by set_solver.
  pose proof (size_list_to_set_le tasks). lia.
Qed.

Lemma dangling_never_assigned tasks times predecessors cycle_time st t p :
  inv tasks times predecessors cycle_time st →
  p ∈ preds_of predecessors t → p ∉ tasks →
  t ∉ assigned_tasks st.
Proof.
  intros Hinv Hp Hnot Ht. apply Hnot.
  apply (inv_assigned _ _ _ _ _ Hinv) in Ht as (k & i & Hpos).
  destruct (inv_precedence _ _ _ _ _ Hinv t p k i Hpos Hp) as (k' & i' & Hpos' & _).
  apply (inv_tasks _ _ _ _ _ Hinv), (inv_assigned _ _ _ _ _ Hinv). eauto.
Qed.

(** ** Total work and the minimum number of stations *)

Lemma sum_values_insert (m : gmap string Q) t d :
  m !! t = None → (sum_values (<[t := d]> m) == sum_values m + d)%Q.
Proof.
  intros Hm. unfold sum_values.
  apply (map_fold_insert Qeq (λ _ v acc, acc + v)%Q); [| |done].
  - intros _ z x y Hxy. by rewrite Hxy.
  - intros. lra.
Qed.

Lemma sum_durations_ext (m1 m2 : gmap string Q) l :
  (∀ t, t ∈ l → m1 !! t = m2 !! t) → sum_durations m1 l = sum_durations m2 l.
Proof.
  induction l as [|x l IH]; intros Heq; simpl; [done|].
  unfold duration. rewrite (Heq x) by apply list_elem_of_here.
  rewrite IH; [done|]. intros t Ht. apply Heq. by apply list_elem_of_further.
Qed.

Lemma sum_values_sum_durations tasks : NoDup tasks → ∀ times : gmap string Q,
  (∀ t, is_Some (times !! t) ↔ t ∈ tasks) →
  (sum_values times == sum_durations times tasks)%Q.
Proof.
  induction 1 as [|t l Hnotin Hnd IH]; intros times Hdom.
  - assert (times = ∅) as ->.
    { apply map_empty. intros t. apply eq_None_not_Some. rewrite Hdom.
      apply not_elem_of_nil. }
    reflexivity.
  - destruct (proj2 (Hdom t) (list_elem_of_here _ _)) as [d Hd].
    rewrite <- (insert_id times t d Hd) at 1. rewrite <- insert_delete_eq.
    rewrite sum_values_insert by apply lookup_delete_eq.
    rewrite (IH (delete t times)).
    + simpl. unfold duration. rewrite Hd; simpl.
      rewrite (sum_durations_ext (delete t times) times); [lra|].
      intros x Hx. apply lookup_delete_ne. by intros ->.
    + intros x. destruct (decide (x = t)) as [->|Hne].
      * rewrite lookup_delete_eq. split; [by intros [??]|done].
      * rewrite lookup_delete_ne by done. rewrite Hdom, elem_of_cons. naive_solver.
Qed.

(** The engine returns only when the task list is not empty. *)
Lemma engine_Done_nonempty f fuel tasks times predecessors cycle_time heuristic w m :
  engine f fuel tasks times predecessors cycle_time heuristic = Done (w, m) →
  tasks ≠ [].
Proof.
  intros Hrun ->.
  apply engine_Done_inv in Hrun as (st & Hinv & _ & _ & _ & _ & [l Hl]).
  destruct (inv_stations _ _ _ _ _ Hinv _ _ Hl) as [_ Hne].
  destruct l as [|t l]; [done|].
  assert (Hin : t ∈ assigned_tasks st).
  { apply (inv_assigned _ _ _ _ _ Hinv). exists (current_station st), 0%nat.
    by exists (t :: l). }
  apply (inv_tasks _ _ _ _ _ Hinv) in Hin as [Hin _]. by apply elem_of_nil in Hin.
Qed.

Lemma fractional_valid :
  valid_input fractional_tasks fractional_times fractional_predecessors 10.
Proof.
  split.
  - apply (bool_decide_unpack _). by vm_compute.
  - intros t Ht. unfold fractional_tasks in Ht.
    apply elem_of_cons in Ht as [->|Ht];
      [|apply elem_of_cons in Ht as [->|Ht]; [|by apply elem_of_nil in Ht]].
    + exists (1001 # 200). split; [by vm_compute|lra].
    + exists 5%Q. split; [by vm_compute|lra].
  - intros t [d Hd]. unfold fractional_times in Hd.
    apply lookup_insert_Some in Hd as [[Ht _]|[_ Hd]]; [subst t; set_solver|].
    apply lookup_singleton_Some in Hd as [Ht _]. subst t. set_solver.
  - lra.
  - intros t ps Hps. unfold fractional_predecessors in Hps.
    apply lookup_insert_Some in Hps as [[Ht Hp]|[_ Hps]]; [subst; set_solver|].
    apply lookup_singleton_Some in Hps as [Ht Hp]. subst. set_solver.
  - exists (λ _, 0%nat). intros t p Hp. exfalso.
    unfold preds_of, fractional_predecessors in Hp.
    destruct (decide (t = "A")) as [->|HA].
    { rewrite lookup_insert_eq in Hp. by apply elem_of_nil in Hp. }
    rewrite lookup_insert_ne in Hp by done.
    destruct (decide (t = "B")) as [->|HB].
    + rewrite lookup_singleton_eq in Hp. by apply elem_of_nil in Hp.
    + rewrite lookup_singleton_ne in Hp by done. by apply elem_of_nil in Hp.
Qed.

(** ** Progress: when every task fits a station, the loop ends *)

Section Progress.

Context (tasks : list string) (times : gmap string Q)
        (predecessors : gmap string (list string)) (cycle_time : Q)
        (heuristic : string) (positional_weights : option (gmap string Q)).

Hypothesis Hvalid : valid_input tasks times predecessors cycle_time.
Hypothesis Hfit : ∀ t d, times !! t = Some d → (d <= cycle_time)%Q.
Hypothesis Hkey : ∀ t, t ∈ tasks →
  ∃ k, sort_key times heuristic positional_weights t = Ok k.

Local Abbreviation inv' := (inv tasks times predecessors cycle_time).
Local Abbreviation body' :=
  (body tasks times predecessors cycle_time heuristic positional_weights).
Local Abbreviation while_loop' :=
  (while_loop tasks times predecessors cycle_time heuristic positional_weights).

Lemma exists_unassigned st :
  inv' st → unfinished tasks st = true → ∃ t, t ∈ tasks ∧ t ∉ assigned_tasks st.
Proof.
  intros Hinv Hunf. unfold unfinished in Hunf. apply bool_decide_eq_true in Hunf.
  destruct (decide (Forall (λ t, t ∈ assigned_tasks st) tasks)) as [Hall|Hnot].
  - exfalso. rewrite Forall_forall in Hall.
    assert (Hsub : list_to_set tasks ⊆ assigned_tasks st).
    { intros t Ht. apply Hall. by apply elem_of_list_to_set in Ht. }
    apply subseteq_size in Hsub.
    rewrite size_list_to_set in Hsub by apply (valid_unique _ _ _ _ Hvalid). lia.
  - apply not_Forall_Exists in Hnot; [|apply _].
    apply Exists_exists in Hnot as (t & Ht & Hn). by exists t.
Qed.

Lemma exists_eligible st :
  inv' st → unfinished tasks st = true →
  ∃ t, t ∈ tasks ∧ eligible predecessors (assigned_tasks st) t = true.
Proof.
  intros Hinv Hunf.
  destruct (exists_unassigned st Hinv Hunf) as (t0 & Ht0 & Hn0).
  destruct (valid_acyclic _ _ _ _ Hvalid) as [rank Hrank].
  remember (rank t0) as n eqn:Hn. revert t0 Ht0 Hn0 Hn.
  induction n as [n IH] using lt_wf_ind. intros t Ht Hna ->.
  destruct (decide (Forall (λ p, p ∈ assigned_tasks st) (preds_of predecessors t)))
    as [Hall|Hnot].
  - exists t. split; [done|]. apply eligible_spec. split; [done|].
    by apply Forall_forall.
  - apply not_Forall_Exists in Hnot; [|apply _].
    apply Exists_exists in Hnot as (p & Hp & Hpn).
    apply (IH (rank p) (Hrank t p Hp) p); [|done..].
    unfold preds_of in Hp.
    destruct (predecessors !! t) as [ps|] eqn:Hps; simpl in Hp;
      [|by apply elem_of_nil in Hp].
    by apply (valid_members _ _ _ _ Hvalid t ps Hps).
Qed.

Lemma with_keys_ok (key : string → result Q) cand :
  (∀ t, t ∈ cand → ∃ k, key t = Ok k) → ∃ ks, with_keys key cand = Ok ks.
Proof.
  induction cand as [|t cand IH]; intros Hall; simpl; [by eexists|].
  destruct (Hall t (list_elem_of_here _ _)) as [k ->].
  destruct IH as [ks ->]; [|by eexists].
  intros x Hx. apply Hall. by apply list_elem_of_further.
Qed.

Lemma try_place_ok st cand :
  is_Some (station_times st !! current_station st) →
  (∀ t, t ∈ cand → is_Some (times !! t)) →
  ∃ r, try_place times cycle_time st cand = Ok r.
Proof.
  intros [cur Hcur] Hall. induction cand as [|t cand IH]; simpl; [by eexists|].
  unfold getitem. rewrite Hcur. simpl.
  destruct (Hall t (list_elem_of_here _ _)) as [d ->]. simpl.
  destruct (Qle_bool (cur + d) cycle_time); [by eexists|].
  apply IH. intros x Hx. apply Hall. by apply list_elem_of_further.
Qed.

Lemma body_ok st :
  inv' st → unfinished tasks st = true → ∃ st', body' st = Ok st'.
Proof.
  intros Hinv Hunf. unfold body.
  destruct (exists_eligible st Hinv Hunf) as (t0 & Ht0 & He0).
  destruct (candidates tasks predecessors (assigned_tasks st)) as [|c cand] eqn:Hcand.
  { assert (Hin : t0 ∈ candidates tasks predecessors (assigned_tasks st))
      by by apply elem_of_candidates.
    rewrite Hcand in Hin. by apply elem_of_nil in Hin. }
  assert (Hsub : ∀ t, t ∈ c :: cand → t ∈ tasks).
  { intros t Ht. rewrite <- Hcand in Ht. by apply elem_of_candidates in Ht as [? _]. }
  unfold ranked.
  destruct (with_keys_ok (sort_key times heuristic positional_weights) (c :: cand))
    as [ks Hks]; [by intros t Ht; apply Hkey, Hsub|].
  rewrite Hks. simpl bind.
  destruct (try_place_ok st (map fst (sort_desc ks))) as [r ->].
  - apply (inv_opened _ _ _ _ _ Hinv).
    destruct (workstations st !! current_station st) as [l|] eqn:Hl.
    + by apply (inv_stations _ _ _ _ _ Hinv _ l).
    + destruct (inv_current _ _ _ _ _ Hinv Hl) as [H0 _].
      apply (inv_opened _ _ _ _ _ Hinv). eauto.
  - intros t Ht.
    assert (Ht' : t ∈ c :: cand).
    { rewrite <- (with_keys_fst _ _ _ Hks), <- (sort_desc_perm ks). done. }
    destruct (valid_durations _ _ _ _ Hvalid t (Hsub t Ht')) as (d & Hd & _). eauto.
  - simpl. destruct r; by eexists.
Qed.

Lemma fresh_le_1 st : (fresh st ≤ 1)%nat.
Proof.
  unfold fresh. destruct (station_times st !! current_station st) as [q|]; [|lia].
  destruct (Qeq_bool q 0); lia.
Qed.

Lemma fresh_open_station st : fresh (open_station st) = 1%nat.
Proof. unfold fresh. simpl. by rewrite lookup_insert_eq. Qed.

(** A station is closed only after something was booked on it. *)
Lemma step_open_not_fresh st cur :
  station_times st !! current_station st = Some cur →
  (∃ t, t ∈ tasks ∧ eligible predecessors (assigned_tasks st) t = true) →
  (∀ t, t ∈ tasks → eligible predecessors (assigned_tasks st) t = true →
        ∃ d, times !! t = Some d ∧ Qle_bool (cur + d) cycle_time = false) →
  fresh st = 0%nat.
Proof.
  intros Hcur (t & Ht & He) Hall. unfold fresh. rewrite Hcur.
  destruct (Qeq_bool cur 0) eqn:Hz; [|done]. exfalso.
  apply Qeq_bool_eq in Hz.
  destruct (Hall t Ht He) as (d & Hd & Hno).
  assert (Hyes : Qle_bool (cur + d) cycle_time = true).
  { apply Qle_bool_iff. rewrite Hz. pose proof (Hfit t d Hd). lra. }
  congruence.
Qed.

Lemma loop_returns fuel : ∀ st,
  inv' st →
  (2 * (length tasks - size (assigned_tasks st)) ≤ fuel + fresh st)%nat →
  ∃ st', while_loop' fuel st = Done st'.
Proof.
  induction fuel as [|fuel IH]; intros st Hinv Hfuel; simpl;
    destruct (unfinished tasks st) eqn:Hunf; try by eexists.
  - pose proof (fresh_le_1 st). unfold unfinished in Hunf.
    apply bool_decide_eq_true in Hunf. lia.
  - destruct (body_ok st Hinv Hunf) as [st' Hbody]. rewrite Hbody.
    pose proof (fresh_le_1 st) as Hf.
    pose proof Hunf as Hlt. unfold unfinished in Hlt. apply bool_decide_eq_true in Hlt.
    destruct (body_step _ _ _ _ _ _ _ _ Hbody)
      as [t cur d Ht He Hcur Hd Hle|cur Hcur Hex Hall]; apply IH.
    + by apply inv_place.
    + simpl. apply eligible_spec in He as [Hna _].
      rewrite size_union, size_singleton by set_solver. lia.
    + apply inv_open; [done..|].
      pose proof (step_open_not_fresh st cur Hcur Hex Hall) as H0.
      destruct (workstations st !! current_station st) as [l|] eqn:Hl; [eauto|].
      destruct (inv_current _ _ _ _ _ Hinv Hl) as [Hzero _].
      unfold fresh in H0. by rewrite Hzero in H0.
    + rewrite fresh_open_station. simpl.
      rewrite (step_open_not_fresh st cur Hcur Hex Hall) in Hfuel. lia.
Qed.

End Progress.

(** ** The positional weights cover the task list *)

Lemma dict_of_times_dom times tasks m :
  dict_of_times times tasks = Ok m → ∀ t, t ∈ tasks → is_Some (m !! t).
Proof.
  revert m. induction tasks as [|x tasks IH]; simpl; intros m Hm t Ht.
  - by apply elem_of_nil in Ht.
  - unfold getitem in Hm. destruct (times !! x) as [d|]; simpl in Hm; [|done].
    destruct (dict_of_times times tasks) as [m'| |]; simpl in Hm; try done.
    inversion Hm; subst m. destruct (decide (t = x)) as [->|Hne].
    + rewrite lookup_insert_eq. eauto.
    + rewrite lookup_insert_ne by done. apply IH; [done|].
      apply elem_of_cons in Ht as [?|?]; done.
Qed.

Lemma accumulate_node_dom pw node succs pw' :
  accumulate_node pw node succs = Ok pw' →
  ∀ t, is_Some (pw !! t) → is_Some (pw' !! t).
Proof.
  revert pw. induction succs as [|s succs IH]; simpl; intros pw Hacc t Ht.
  - by inversion Hacc; subst.
  - unfold getitem in Hacc.
    destruct (pw !! node) as [a|]; simpl in Hacc; [|done].
    destruct (pw !! s) as [b|]; simpl in Hacc; [|done].
    apply (IH _ Hacc). destruct (decide (t = node)) as [->|Hne].
    + rewrite lookup_insert_eq. eauto.
    + by rewrite lookup_insert_ne.
Qed.

Lemma accumulate_dom G pw topo pw' :
  accumulate G pw topo = Ok pw' →
  ∀ t, is_Some (pw !! t) → is_Some (pw' !! t).
Proof.
  revert pw. induction topo as [|node topo IH]; simpl; intros pw Hacc t Ht.
  - by inversion Hacc; subst.
  - destruct (accumulate_node pw node (successors G node)) as [pw1| |] eqn:Hn;
      simpl in Hacc; try done.
    apply (IH _ Hacc). by apply (accumulate_node_dom _ _ _ _ Hn).
Qed.

Lemma compute_positional_weights_dom tasks times predecessors pw :
  compute_positional_weights tasks times predecessors = Ok pw →
  ∀ t, t ∈ tasks → is_Some (pw !! t).
Proof.
  unfold compute_positional_weights. intros H t Ht.
  destruct (topological_sort _) as [order| |]; simpl in H; try done.
  destruct (dict_of_times times tasks) as [m| |] eqn:Hm; simpl in H; try done.
  apply (accumulate_dom _ _ _ _ H). by apply (dict_of_times_dom _ _ _ Hm).
Qed.

(** ** The engine returns when every task fits a station *)

Lemma add_followers_ok followers t preds :
  (∀ p, p ∈ preds → p ∈ dom followers) →
  ∃ followers', Line.add_followers followers t preds = Ok followers'
    ∧ dom followers' = dom followers.
Proof.
  intros Hall.
  destruct (add_followers_cases followers t preds) as [Herr|(F & HF & Hdom & _)];
    [|by exists F].
  exfalso. revert followers Hall Herr.
  induction preds as [|p preds IH]; intros followers Hall; simpl; [done|].
  unfold getitem.
  destruct (followers !! p) as [l|] eqn:Hp; simpl.
  - apply IH. intros q Hq. rewrite dom_insert_L.
    apply elem_of_union_r, Hall. by apply list_elem_of_further.
  - intros _. specialize (Hall p (list_elem_of_here _ _)).
    apply elem_of_dom in Hall as [? ?]. congruence.
Qed.

Lemma fill_followers_ok predecessors followers ts :
  (∀ t p, t ∈ ts → p ∈ preds_of predecessors t → p ∈ dom followers) →
  ∃ followers', Line.fill_followers predecessors followers ts = Ok followers'.
Proof.
  revert followers. induction ts as [|t ts IH]; intros followers Hall; simpl;
    [by eexists|].
  destruct (add_followers_ok followers t (preds_of predecessors t))
    as (F & -> & Hdom).
  { intros p Hp. apply (Hall t p); [apply list_elem_of_here|done]. }
  simpl. apply IH. intros t' p Ht' Hp. rewrite Hdom.
  apply (Hall t' p); [by apply list_elem_of_further|done].
Qed.

Lemma build_followers_ok tasks times predecessors cycle_time :
  valid_input tasks times predecessors cycle_time →
  ∃ followers, Line.build_followers tasks predecessors = Ok followers.
Proof.
  intros Hvalid. apply fill_followers_ok. intros t p Ht Hp.
  rewrite dom_list_to_map_L, <- list_fmap_compose. apply elem_of_list_to_set.
  apply list_elem_of_fmap. exists p. split; [done|].
  unfold preds_of in Hp.
  destruct (predecessors !! t) as [ps|] eqn:Hps; simpl in Hp;
    [|by apply elem_of_nil in Hp].
  by apply (valid_members _ _ _ _ Hvalid t ps Hps).
Qed.

Lemma weights_for_keys tasks times predecessors cycle_time heuristic pw :
  valid_input tasks times predecessors cycle_time →
  heuristic = "longest_task_time" ∨ heuristic = "ranked_positional_weight" →
  weights_for tasks times predecessors heuristic = Ok pw →
  ∀ t, t ∈ tasks → ∃ k, sort_key times heuristic pw t = Ok k.
Proof.
  intros Hvalid [->| ->] Hw t Ht; unfold sort_key; simpl.
  - destruct (valid_durations _ _ _ _ Hvalid t Ht) as (d & Hd & _).
    unfold getitem. rewrite Hd. by eexists.
  - unfold weights_for in Hw. simpl in Hw.
    destruct (compute_positional_weights tasks times predecessors) as [m| |] eqn:Hm;
      simpl in Hw; try done.
    inversion Hw; subst pw.
    destruct (compute_positional_weights_dom _ _ _ _ Hm t Ht) as [k Hk].
    unfold getitem. rewrite Hk. by eexists.
Qed.

(** ** The loop ends on inputs whose tasks fit a station *)

Lemma loop_returns_all_assigned fuel tasks times predecessors cycle_time heuristic pw :
  valid_input tasks times predecessors cycle_time →
  (∀ t d, times !! t = Some d → (d <= cycle_time)%Q) →
  heuristic = "longest_task_time" ∨ heuristic = "ranked_positional_weight" →
  weights_for tasks times predecessors heuristic = Ok pw →
  (2 * length tasks - 1 ≤ fuel)%nat →
  ∃ st, while_loop tasks times predecessors cycle_time heuristic pw fuel initial_state
        = Done st
        ∧ ∀ t, t ∈ tasks → t ∈ assigned_tasks st.
Proof.
  intros Hvalid Hfit Hh Hw Hfuel.
  pose proof (weights_for_keys _ _ _ _ _ _ Hvalid Hh Hw) as Hkey.
  destruct (loop_returns tasks times predecessors cycle_time heuristic pw
              Hvalid Hfit Hkey fuel initial_state) as [st Hloop].
  { apply inv_initial. }
  { simpl. change (fresh initial_state) with 1%nat. lia. }
  exists st. split; [done|].
  pose proof (while_loop_Done _ _ _ _ _ _ _ _ Hloop) as [Hinv Hfin].
  by apply (finished_all_assigned _ _ _ _ _ (valid_unique _ _ _ _ Hvalid) Hinv Hfin).
Qed.

(** The allocation loop ends.  On a valid input none of whose tasks is longer
    than the cycle time, with one of the two heuristics and positional weights
    that were computed without an exception, the loop started on the first,
    empty station is over after at most [2 * len(tasks) - 1] iterations, and
    by then every task is assigned. *)
Theorem allocation_loop_returns fuel tasks times predecessors cycle_time heuristic
    pw :
  valid_input tasks times predecessors cycle_time →
  (∀ t d, times !! t = Some d → (d <= cycle_time)%Q) →
  heuristic = "longest_task_time" ∨ heuristic = "ranked_positional_weight" →
  weights_for tasks times predecessors heuristic = Ok pw →
  (2 * length tasks - 1 ≤ fuel)%nat →
  ∃ st, while_loop tasks times predecessors cycle_time heuristic pw fuel initial_state
        = Done st
        ∧ ∀ t, t ∈ tasks → t ∈ assigned_tasks st.
Proof. exact (loop_returns_all_assigned fuel tasks times predecessors cycle_time heuristic pw). Qed.

(** On such an input the engine terminates: [2 * len(tasks) - 1] iterations
    of the loop are enough for it to return or to raise, in either file. *)
Theorem engine_terminates f fuel tasks times predecessors cycle_time heuristic pw :
  valid_input tasks times predecessors cycle_time →
  (∀ t d, times !! t = Some d → (d <= cycle_time)%Q) →
  heuristic = "longest_task_time" ∨ heuristic = "ranked_positional_weight" →
  weights_for tasks times predecessors heuristic = Ok pw →
  (2 * length tasks - 1 ≤ fuel)%nat →
  engine f fuel tasks times predecessors cycle_time heuristic ≠ OutOfFuel.
Proof.
  intros Hvalid Hfit Hh Hw Hfuel.
  destruct (loop_returns_all_assigned fuel _ _ _ _ _ _ Hvalid Hfit Hh Hw Hfuel)
    as (st & Hloop & _).
  destruct (build_followers_ok _ _ _ _ Hvalid) as [F HF].
  destruct f; simpl;
    [unfold Line.line_balancing_algorithm
    |unfold LineBalancing.line_balancing_algorithm];
    (destruct (Qeq_bool cycle_time 0); [done|]);
    [rewrite HF|]; unfold allocate_and_report; rewrite Hw, Hloop;
    unfold derive_metrics; by destruct (Qeq_bool _ 0).
Qed.

(** ** How the loop ends when every task fits a station

    Without any assumption on the precedence data: when every task has a
    duration and a sort key, and no duration exceeds the cycle time, the loop
    is over after at most [2 * len(tasks) - 1] iterations; it has either
    assigned every task or raised its [ValueError], at a point where no task
    is eligible. *)

Section Ends.

Context (tasks : list string) (times : gmap string Q)
        (predecessors : gmap string (list string)) (cycle_time : Q)
        (heuristic : string) (positional_weights : option (gmap string Q)).

Hypothesis Hdur : ∀ t, t ∈ tasks → is_Some (times !! t).
Hypothesis Hfit : ∀ t d, times !! t = Some d → (d <= cycle_time)%Q.
Hypothesis Hkey : ∀ t, t ∈ tasks →
  ∃ k, sort_key times heuristic positional_weights t = Ok k.

Lemma body_ends st :
  inv tasks times predecessors cycle_time st →
  candidates tasks predecessors (assigned_tasks st) ≠ [] →
  ∃ st', body tasks times predecessors cycle_time heuristic positional_weights st
         = Ok st'.
Proof.
  intros Hinv Hne. unfold body.
  destruct (candidates tasks predecessors (assigned_tasks st)) as [|c cand] eqn:Hcand;
    [done|].
  assert (Hsub : ∀ t, t ∈ c :: cand → t ∈ tasks).
  { intros t Ht. rewrite <- Hcand in Ht. by apply elem_of_candidates in Ht as [? _]. }
  unfold ranked.
  destruct (with_keys_ok (sort_key times heuristic positional_weights) (c :: cand))
    as [ks Hks]; [by intros t Ht; apply Hkey, Hsub|].
  rewrite Hks. simpl bind.
  destruct (try_place_ok times cycle_time st (map fst (sort_desc ks))) as [r ->].
  - apply (inv_opened _ _ _ _ _ Hinv).
    destruct (workstations st !! current_station st) as [l|] eqn:Hl.
    + by apply (inv_stations _ _ _ _ _ Hinv _ l).
    + destruct (inv_current _ _ _ _ _ Hinv Hl) as [H0 _].
      apply (inv_opened _ _ _ _ _ Hinv). eauto.
  - intros t Ht. apply Hdur, Hsub.
    rewrite <- (with_keys_fst _ _ _ Hks), <- (sort_desc_perm ks). done.
  - simpl. destruct r; by eexists.
Qed.

Lemma loop_ends fuel : ∀ st,
  inv tasks times predecessors cycle_time st →
  (2 * (length tasks - size (assigned_tasks st)) ≤ fuel + fresh st)%nat →
  ∃ st',
    while_loop tasks times predecessors cycle_time heuristic positional_weights
               fuel st = Done st'
    ∨ (while_loop tasks times predecessors cycle_time heuristic positional_weights
                  fuel st = Raised ValueError st'
       ∧ inv tasks times predecessors cycle_time st'
       ∧ candidates tasks predecessors (assigned_tasks st') = []).
Proof.
  induction fuel as [|fuel IH]; intros st Hinv Hfuel; simpl;
    destruct (unfinished tasks st) eqn:Hunf; try by (eexists; left).
  - pose proof (fresh_le_1 st). unfold unfinished in Hunf.
    apply bool_decide_eq_true in Hunf. lia.
  - destruct (candidates tasks predecessors (assigned_tasks st)) as [|c cand] eqn:Hcand.
    { exists st. right. unfold body. by rewrite Hcand. }
    destruct (body_ends st Hinv) as [st' Hbody]; [by rewrite Hcand|].
    rewrite Hbody.
    pose proof (fresh_le_1 st) as Hf.
    pose proof Hunf as Hlt. unfold unfinished in Hlt. apply bool_decide_eq_true in Hlt.
    destruct (body_step _ _ _ _ _ _ _ _ Hbody)
      as [t cur d Ht He Hcur Hd Hle|cur Hcur Hex Hall]; apply IH.
    + by apply inv_place.
    + simpl. apply eligible_spec in He as [Hna _].
      rewrite size_union, size_singleton by set_solver. lia.
    + apply inv_open; [done..|].
      pose proof (step_open_not_fresh tasks times predecessors cycle_time Hfit
                    st cur Hcur Hex Hall) as H0.
      destruct (workstations st !! current_station st) as [l|] eqn:Hl; [eauto|].
      destruct (inv_current _ _ _ _ _ Hinv Hl) as [Hzero _].
      unfold fresh in H0. by rewrite Hzero in H0.
    + rewrite fresh_open_station. simpl.
      rewrite (step_open_not_fresh tasks times predecessors cycle_time Hfit
                 st cur Hcur Hex Hall) in Hfuel. lia.
Qed.

End Ends.

(** With a predecessor that is not a task, the loop under the
    longest-task-time rule ends in its [ValueError]. *)
Lemma dangling_loop_raises fuel tasks times predecessors cycle_time t p :
  t ∈ tasks → p ∈ preds_of predecessors t → p ∉ tasks →
  (∀ x, x ∈ tasks → is_Some (times !! x)) →
  (∀ x d, times !! x = Some d → (d <= cycle_time)%Q) →
  (2 * length tasks - 1 ≤ fuel)%nat →
  ∃ st, while_loop tasks times predecessors cycle_time "longest_task_time" None
                   fuel initial_state = Raised ValueError st
        ∧ candidates tasks predecessors (assigned_tasks st) = [].
Proof.
  intros Ht Hp Hnot Hdur Hfit Hfuel.
  destruct (loop_ends tasks times predecessors cycle_time "longest_task_time" None
              Hdur Hfit) with (fuel := fuel) (st := initial_state)
    as [st [Hdone|(Hraised & _ & Hcand)]].
  - intros x Hx. unfold sort_key. simpl. destruct (Hdur x Hx) as [d Hd].
    unfold getitem. rewrite Hd. by eexists.
  - apply inv_initial.
  - simpl. change (fresh initial_state) with 1%nat. lia.
  - exfalso. apply while_loop_Done in Hdone as [Hinv Hfin].
    pose proof (dangling_never_assigned _ _ _ _ _ _ _ Hinv Hp Hnot) as Hna.
    pose proof (unassigned_task_unfinished _ _ _ _ _ _ Hinv Ht Hna). congruence.
  - by exists st.
Qed.

(** ** A task longer than the cycle time is never placed *)

Lemma sum_durations_nonneg (times : gmap string Q) l :
  (∀ t d, times !! t = Some d → (0 <= d)%Q) → (0 <= sum_durations times l)%Q.
Proof.
  intros Hpos. induction l as [|x l IH]; simpl; [lra|].
  unfold duration. destruct (times !! x) as [d|] eqn:Hd; simpl.
  - pose proof (Hpos x d Hd). lra.
  - lra.
Qed.

Lemma too_long_never_assigned tasks times predecessors cycle_time heuristic pw
    fuel st t d :
  (∀ x q, times !! x = Some q → (0 <= q)%Q) →
  times !! t = Some d → (cycle_time < d)%Q →
  while_loop tasks times predecessors cycle_time heuristic pw fuel initial_state
    = Done st →
  t ∉ assigned_tasks st.
Proof.
  intros Hpos Hd Hlong Hrun.
  pose proof (while_loop_invariant tasks times predecessors cycle_time heuristic pw
    (λ s, (inv tasks times predecessors cycle_time s
           ∨ stuck tasks times predecessors cycle_time s)
          ∧ t ∉ assigned_tasks s)) as Hrule.
  specialize (Hrule) with (fuel := fuel) (st := initial_state).
  rewrite Hrun in Hrule. apply Hrule; [|split; [left; apply inv_initial|set_solver]].
  clear Hrule Hrun. intros s s' [Hs Hna] Hunf Hstep.
  split; [by eapply invariant_step|].
  destruct Hstep as [t' cur d' Ht' He Hcur Hd' Hle|cur _ _ _]; [|done].
  simpl. intros [->%elem_of_singleton|Hin]%elem_of_union; [|done].
  assert (d' = d) as -> by congruence.
  apply Qle_bool_iff in Hle.
  assert (Hcur0 : (0 <= cur)%Q).
  { destruct Hs as [Hinv|(_ & Hz & _)]; [|rewrite Hcur in Hz; by inversion Hz].
    destruct (workstations s !! current_station s) as [l|] eqn:Hl.
    - destruct (inv_times _ _ _ _ _ Hinv _ _ Hl) as (q & Hq & Heq & _).
      assert (q = cur) as -> by congruence.
      rewrite Heq. by apply sum_durations_nonneg.
    - destruct (inv_current _ _ _ _ _ Hinv Hl) as [Hz _].
      rewrite Hcur in Hz. by inversion Hz. }
  lra.
Qed.

(** On a well-formed input with a task longer than the cycle time the engine
    never returns. *)
Lemma oversized_never_returns f fuel tasks times predecessors cycle_time heuristic
    t d :
  valid_input tasks times predecessors cycle_time →
  t ∈ tasks → times !! t = Some d → (cycle_time < d)%Q →
  ∀ r, engine f fuel tasks times predecessors cycle_time heuristic ≠ Done r.
Proof.
  intros Hvalid Ht Hd Hlong [w m] Hrun.
  apply engine_Done in Hrun as (pw & st & Hloop & _).
  pose proof (while_loop_Done _ _ _ _ _ _ _ _ Hloop) as [Hinv Hfin].
  apply (too_long_never_assigned _ _ _ _ _ _ _ _ t d) in Hloop; [|
    |done..].
  - apply Hloop.
    by apply (finished_all_assigned _ _ _ _ _ (valid_unique _ _ _ _ Hvalid) Hinv Hfin).
  - intros x q Hq.
    destruct (valid_durations _ _ _ _ Hvalid x) as (q' & Hq' & Hpos).
    { apply (valid_times_dom _ _ _ _ Hvalid). eauto. }
    assert (q' = q) as -> by congruence. lra.
Qed.

(** ** An entry of [predecessors] for a key that is not a task *)

Lemma stray_entry_is_ignored f :
  engine f 3 chain_tasks chain_times (<["Z" := ["Q"]]> chain_predecessors) 10
         "longest_task_time" = Done (chain_workstations, chain_metrics).
Proof. destruct f; by vm_compute. Qed.

(** ** The failing inputs are well-formed *)

Lemma oversized_valid :
  valid_input oversized_tasks oversized_times oversized_predecessors 10.
Proof.
  split.
  - apply (bool_decide_unpack _). by vm_compute.
  - intros t Ht. apply list_elem_of_singleton in Ht as ->.
    exists 15%Q. split; [by vm_compute|lra].
  - intros t [d Hd]. unfold oversized_times in Hd.
    apply lookup_singleton_Some in Hd as [Ht _]. subst t.
    apply list_elem_of_here.
  - lra.
  - intros t ps Hps. unfold oversized_predecessors in Hps.
    apply lookup_singleton_Some in Hps as [Ht Hp]. subst t ps.
    split; [apply list_elem_of_here|]. by intros p ?%elem_of_nil.
  - exists (λ _, 0%nat). intros t p Hp. exfalso.
    unfold preds_of, oversized_predecessors in Hp.
    destruct (decide (t = "A")) as [->|HA].
    + rewrite lookup_singleton_eq in Hp. by apply elem_of_nil in Hp.
    + rewrite lookup_singleton_ne in Hp by done. by apply elem_of_nil in Hp.
Qed.

Lemma diamond_acyclic :
  ∃ rank : string → nat,
    ∀ t p, p ∈ preds_of diamond_predecessors t → (rank p < rank t)%nat.
Proof.
  exists (λ t, if bool_decide (t = "a") then 0%nat
               else if bool_decide (t = "d") then 2%nat else 1%nat).
  intros t p Hp. unfold preds_of, diamond_predecessors in Hp.
  destruct (decide (t = "a")) as [->|Ha].
  { rewrite lookup_insert_eq in Hp. by apply elem_of_nil in Hp. }
  rewrite lookup_insert_ne in Hp by done.
  destruct (decide (t = "b")) as [->|Hb].
  { rewrite lookup_insert_eq in Hp. simpl in Hp.
    apply list_elem_of_singleton in Hp as ->. by vm_compute. }
  rewrite lookup_insert_ne in Hp by done.
  destruct (decide (t = "c")) as [->|Hc].
  { rewrite lookup_insert_eq in Hp. simpl in Hp.
    apply list_elem_of_singleton in Hp as ->. by vm_compute. }
  rewrite lookup_insert_ne in Hp by done.
  destruct (decide (t = "d")) as [->|Hd].
  - rewrite lookup_singleton_eq in Hp. simpl in Hp.
    apply elem_of_cons in Hp as [->|Hp]; [by vm_compute|].
    apply list_elem_of_singleton in Hp as ->. by vm_compute.
  - rewrite lookup_singleton_ne in Hp by done. by apply elem_of_nil in Hp.
Qed.

(** ** The metrics fail only for an empty task list *)

Lemma derive_metrics_ok tasks times predecessors cycle_time heuristic pw fuel st
    total mins :
  Qeq_bool cycle_time 0 = false →
  while_loop tasks times predecessors cycle_time heuristic pw fuel initial_state
    = Done st →
  tasks ≠ [] →
  ∃ w m, derive_metrics cycle_time total mins st = Done (w, m).
Proof.
  intros Hcyc Hloop Hne.
  apply while_loop_Done in Hloop as [Hinv Hfin].
  unfold derive_metrics.
  destruct (Qeq_bool (inject_Z _ * cycle_time) 0) eqn:Hz;
    [exfalso|eexists _, _; reflexivity].
  apply Qeq_bool_eq, Qmult_integral in Hz as [Hz|Hz];
    [|by apply Qeq_bool_neq in Hcyc].
  unfold Qeq in Hz. simpl in Hz.
  assert (Hsize : size (workstations st) = 0%nat) by lia.
  apply map_size_empty_inv in Hsize.
  unfold unfinished in Hfin. apply bool_decide_eq_false in Hfin.
  destruct tasks as [|t0 ts]; [done|]. simpl in Hfin.
  destruct (set_choose_L (assigned_tasks st)) as [t Ht].
  { intros Hem. rewrite Hem, size_empty in Hfin. lia. }
  apply (inv_assigned _ _ _ _ _ Hinv) in Ht as (k & i & l & Hl & _).
  by rewrite Hsize, lookup_empty in Hl.
Qed.

(** * The graph of the precedence data and its topological sort *)

(** ** Counting occurrences *)

Lemma occurrences_cons v x l :
  occurrences v (x :: l) = if decide (x = v) then S (occurrences v l) else occurrences v l.
Proof.
  unfold occurrences. rewrite filter_cons. by destruct (decide (x = v)).
Qed.

Lemma occurrences_app v l k :
  occurrences v (l ++ k) = occurrences v l + occurrences v k.
Proof. unfold occurrences. by rewrite filter_app, length_app. Qed.

Lemma occurrences_not_elem v l : v ∉ l → occurrences v l = 0.
Proof.
  induction l as [|x l IH]; [done|]. intros Hn.
  rewrite occurrences_cons. destruct (decide (x = v)) as [->|]; [set_solver|].
  apply IH. set_solver.
Qed.

Lemma occurrences_NoDup v l :
  NoDup l → occurrences v l = if decide (v ∈ l) then 1 else 0.
Proof.
  induction 1 as [|x l Hx Hl IH]; [done|].
  rewrite occurrences_cons. destruct (decide (x = v)) as [->|Hne].
  - rewrite occurrences_not_elem by done.
    destruct (decide (v ∈ v :: l)); [done|set_solver].
  - rewrite IH. destruct (decide (v ∈ l)), (decide (v ∈ x :: l)); set_solver.
Qed.

Lemma occurrences_bind (f : string → list string) v Z :
  (∀ u, NoDup (f u)) →
  occurrences v (Z ≫= f) = length (filter (λ u, v ∈ f u) Z).
Proof.
  intros Hf. induction Z as [|u Z IH]; [done|].
  rewrite bind_cons, occurrences_app, IH, filter_cons, occurrences_NoDup by done.
  by destruct (decide (v ∈ f u)).
Qed.

Lemma filter_length_le (P : string → Prop) `{∀ x, Decision (P x)} l k :
  NoDup l → (∀ x, x ∈ l → x ∈ k) →
  length (filter P l) ≤ length (filter P k).
Proof.
  intros Hl Hsub. apply submseteq_length, NoDup_submseteq.
  - by apply NoDup_filter.
  - intros x. rewrite !list_elem_of_filter. naive_solver.
Qed.

Lemma filter_length_all (P : string → Prop) `{∀ x, Decision (P x)} l k :
  NoDup l → (∀ x, x ∈ l → x ∈ k) →
  length (filter P k) ≤ length (filter P l) →
  ∀ x, x ∈ k → P x → x ∈ l.
Proof.
  intros Hl Hsub Hlen x Hx HP.
  assert (Hperm : filter P l ≡ₚ filter P k).
  { apply submseteq_length_Permutation; [|done].
    apply NoDup_submseteq; [by apply NoDup_filter|].
    intros y. rewrite !list_elem_of_filter. naive_solver. }
  assert (x ∈ filter P l) as Hin.
  { rewrite Hperm. apply list_elem_of_filter. done. }
  apply list_elem_of_filter in Hin. tauto.
Qed.

Lemma foldl_bind_consume (f : string → list string) Z acc :
  foldl (λ acc node, foldl consume_edge acc (f node)) acc Z
  = foldl consume_edge acc (Z ≫= f).
Proof.
  revert acc. induction Z as [|u Z IH]; intros acc; [done|].
  rewrite bind_cons, foldl_app. simpl. apply IH.
Qed.

Lemma consume_fold cs : ∀ indeg zero,
  (∀ v c, indeg !! v = Some c → 0 < c) →
  (∀ v, occurrences v cs ≤ default 0 (indeg !! v)) →
  ∃ indeg' rel,
    foldl consume_edge (indeg, zero) cs = (indeg', zero ++ rel)
    ∧ NoDup rel
    ∧ (∀ v, v ∈ rel ↔ indeg !! v = Some (occurrences v cs))
    ∧ (∀ v, indeg' !! v =
            match indeg !! v with
            | Some c => if decide (c = occurrences v cs) then None
                        else Some (c - occurrences v cs)
            | None => None
            end)
    ∧ (∀ v c, indeg' !! v = Some c → 0 < c).
Proof.
  induction cs as [|x cs IH]; intros indeg zero Hpos Hle.
  - exists indeg, []. simpl. rewrite app_nil_r. split_and!; try done.
    + constructor.
    + intros v. split; [by intros ?%elem_of_nil|].
      intros Hv. apply Hpos in Hv. unfold occurrences in Hv. simpl in Hv. lia.
    + intros v. destruct (indeg !! v) as [c|] eqn:E; [|done].
      apply Hpos in E. unfold occurrences. simpl.
      destruct (decide (c = 0)); [lia|]. f_equal. lia.
  - pose proof (Hle x) as Hx. rewrite occurrences_cons in Hx.
    destruct (decide (x = x)); [|done].
    destruct (indeg !! x) as [k|] eqn:Ek; simpl in Hx; [|lia].
    destruct k as [|[|d]]; [lia| |].
    + (* the last incoming edge: x is released *)
      assert (Hocc : occurrences x cs = 0) by lia.
      destruct (IH (delete x indeg) (zero ++ [x])) as (indeg' & rel & Hf & Hnd & Hin & Hlk & Hpos').
      { intros v c. rewrite lookup_delete_Some. intros [_ ?]. eauto. }
      { intros v. destruct (decide (v = x)) as [->|Hne].
        - rewrite Hocc. lia.
        - rewrite lookup_delete_ne by done. specialize (Hle v).
          rewrite occurrences_cons in Hle. by destruct (decide (x = v)). }
      exists indeg', (x :: rel). split_and!.
      * simpl. rewrite Ek. rewrite Hf. by rewrite <- app_assoc.
      * constructor; [|done]. rewrite Hin, lookup_delete_eq. done.
      * intros v. rewrite elem_of_cons, Hin, occurrences_cons.
        destruct (decide (x = v)) as [<-|Hne].
        -- rewrite Ek, Hocc. naive_solver.
        -- rewrite lookup_delete_ne by done. naive_solver.
      * intros v. rewrite Hlk, occurrences_cons.
        destruct (decide (x = v)) as [<-|Hne].
        -- rewrite lookup_delete_eq, Ek, Hocc. by destruct (decide (1 = 1)).
        -- by rewrite lookup_delete_ne.
      * done.
    + destruct (IH (<[x := S d]> indeg) zero) as (indeg' & rel & Hf & Hnd & Hin & Hlk & Hpos').
      { intros v c. rewrite lookup_insert_Some. intros [[_ <-]|[_ ?]]; [lia|eauto]. }
      { intros v. destruct (decide (v = x)) as [->|Hne].
        - rewrite lookup_insert_eq. simpl. lia.
        - rewrite lookup_insert_ne by done. specialize (Hle v).
          rewrite occurrences_cons in Hle. by destruct (decide (x = v)). }
      exists indeg', rel. split_and!.
      * simpl. rewrite Ek. done.
      * done.
      * intros v. rewrite Hin, occurrences_cons.
        destruct (decide (x = v)) as [<-|Hne].
        -- rewrite lookup_insert_eq, Ek. split; intros [= E]; f_equal; lia.
        -- by rewrite lookup_insert_ne.
      * intros v. rewrite Hlk, occurrences_cons.
        destruct (decide (x = v)) as [<-|Hne].
        -- rewrite lookup_insert_eq, Ek.
           destruct (decide (S d = occurrences x cs)),
                    (decide (S (S d) = S (occurrences x cs))); try lia; done.
        -- by rewrite lookup_insert_ne.
      * done.
Qed.

(** ** The topological sort keeps its invariant *)

Lemma preds_in_app G v l k : preds_in G v (l ++ k) = preds_in G v l ++ preds_in G v k.
Proof. unfold preds_in. by rewrite filter_app. Qed.

Lemma kahn_occurrences_le G D Z indeg v :
  wf_graph G → kahn_inv G D Z indeg →
  occurrences v (Z ≫= successors G) = length (preds_in G v Z)
  ∧ length (preds_in G v Z) ≤ default 0 (indeg !! v).
Proof.
  intros Hwf Hinv. split.
  { apply occurrences_bind, Hwf. }
  destruct (preds_in G v Z) as [|u l] eqn:E; [simpl; lia|].
  assert (Hu : u ∈ preds_in G v Z) by (rewrite E; left).
  apply list_elem_of_filter in Hu as [Hvu HuZ].
  assert (Hv : v ∈ nodes G) by (by destruct (wf_succ_nodes G Hwf _ _ Hvu)).
  assert (HvDZ : v ∉ D ++ Z).
  { intros HvDZ. pose proof (ki_preds _ _ _ _ Hinv v u HvDZ Hvu) as HuD.
    pose proof (ki_nodup _ _ _ _ Hinv) as Hnd.
    apply NoDup_app in Hnd as (_ & Hdis & _). by apply (Hdis u). }
  destruct (indeg !! v) as [c|] eqn:Ec.
  - rewrite <- E. simpl.
    destruct (ki_count _ _ _ _ Hinv v c Ec) as [_ Hc].
    pose proof (filter_length_le (λ u, v ∈@{list string} successors G u)
                  (D ++ Z) (nodes G) (ki_nodup _ _ _ _ Hinv) (ki_nodes _ _ _ _ Hinv)) as Hle.
    fold (preds_in G v (D ++ Z)) in Hle. rewrite preds_in_app, length_app in Hle.
    unfold in_degree in Hc. lia.
  - apply (ki_none _ _ _ _ Hinv) in Ec. tauto.
Qed.

Lemma kahn_step G D Z indeg indeg' Z' :
  wf_graph G → kahn_inv G D Z indeg →
  next_generation G indeg Z = (indeg', Z') →
  kahn_inv G (D ++ Z) Z' indeg'.
Proof.
  intros Hwf Hinv Hng. unfold next_generation in Hng.
  rewrite foldl_bind_consume in Hng.
  destruct (consume_fold (Z ≫= successors G) indeg [])
    as (indeg1 & rel & Hf & Hnd & Hin & Hlk & Hpos).
  { intros v c Hc. by destruct (ki_count _ _ _ _ Hinv v c Hc). }
  { intros v. destruct (kahn_occurrences_le G D Z indeg v Hwf Hinv) as [-> ?]. done. }
  rewrite Hf in Hng. simpl in Hng. injection Hng as <- <-.
  assert (Hocc : ∀ v, occurrences v (Z ≫= successors G) = length (preds_in G v Z)
                      ∧ length (preds_in G v Z) ≤ default 0 (indeg !! v)).
  { intros v. by apply (kahn_occurrences_le G D Z). }
  assert (Hrel : ∀ v, v ∈ rel → v ∈ nodes G ∧ v ∉ D ++ Z).
  { intros v Hv. apply Hin in Hv.
    split.
    - destruct (decide (v ∈ nodes G)) as [|Hn]; [done|].
      assert (indeg !! v = None) as E by (apply (ki_none _ _ _ _ Hinv); tauto).
      congruence.
    - intros HvDZ.
      assert (indeg !! v = None) as E by (apply (ki_none _ _ _ _ Hinv); tauto).
      congruence. }
  split.
  - apply NoDup_app. split_and!; [apply Hinv| |done].
    intros x Hx Hxr. by apply Hrel in Hxr as [_ ?].
  - intros v [Hv|Hv]%elem_of_app; [by apply (ki_nodes _ _ _ _ Hinv)|by apply Hrel].
  - intros v. rewrite Hlk. destruct (indeg !! v) as [c|] eqn:Ec.
    + destruct (decide (c = occurrences v (Z ≫= successors G))) as [->|Hne].
      * split; [|done]. intros _. right. apply elem_of_app. right. by apply Hin.
      * split; [done|]. intros [Hn|[HDZ|Hr]%elem_of_app].
        -- assert (indeg !! v = None) as E by (apply (ki_none _ _ _ _ Hinv); tauto).
           congruence.
        -- assert (indeg !! v = None) as E by (apply (ki_none _ _ _ _ Hinv); tauto).
           congruence.
        -- apply Hin in Hr. congruence.
    + split; [|done]. intros _. apply (ki_none _ _ _ _ Hinv) in Ec.
      destruct Ec as [?|?]; [by left|]. right. apply elem_of_app. by left.
  - intros v c' Hc'. split; [by eapply Hpos|].
    rewrite Hlk in Hc'. destruct (indeg !! v) as [c|] eqn:Ec; [|done].
    destruct (decide (c = occurrences v (Z ≫= successors G))); [done|].
    injection Hc' as <-.
    destruct (ki_count _ _ _ _ Hinv v c Ec) as [_ Hc].
    destruct (Hocc v) as [Ho Hle]. rewrite Ec in Hle. simpl in Hle.
    rewrite preds_in_app, length_app, Ho. lia.
  - intros v u [Hv|Hv]%elem_of_app Hvu.
    + apply elem_of_app. left. by apply (ki_preds _ _ _ _ Hinv v u).
    + apply Hin in Hv. destruct (ki_count _ _ _ _ Hinv v _ Hv) as [_ Hc].
      destruct (Hocc v) as [Ho _]. rewrite Ho in Hc.
      apply (filter_length_all (λ u, v ∈@{list string} successors G u) (D ++ Z) (nodes G)).
      * apply Hinv.
      * apply Hinv.
      * fold (preds_in G v (D ++ Z)). rewrite preds_in_app, length_app.
        unfold in_degree in Hc. lia.
      * by destruct (wf_succ_nodes G Hwf _ _ Hvu).
      * done.
Qed.

Lemma indegree_map_lookup G l v :
  (list_to_map (omap (λ v, match in_degree G v with
                           | O => None
                           | d => Some (v, d)
                           end) l) : gmap string nat) !! v
  = if decide (v ∈ l) then
      match in_degree G v with O => None | d => Some d end
    else None.
Proof.
  induction l as [|x l IH]; [done|]. simpl.
  destruct (in_degree G x) as [|d] eqn:Ex.
  - etrans; [apply IH|]. destruct (decide (v ∈ l)) as [Hl|Hl].
    + destruct (decide (v ∈ x :: l)); [done|set_solver].
    + destruct (decide (v ∈ x :: l)) as [Hx|]; [|done].
      apply elem_of_cons in Hx as [->|]; [|done]. by rewrite Ex.
  - simpl. destruct (decide (v = x)) as [->|Hne].
    + rewrite lookup_insert_eq, Ex.
      destruct (decide (x ∈ x :: l)); [done|set_solver].
    + rewrite lookup_insert_ne by done. etrans; [apply IH|].
      destruct (decide (v ∈ l)), (decide (v ∈ x :: l)); set_solver.
Qed.

Lemma kahn_initial G :
  wf_graph G →
  kahn_inv G [] (filter (λ v, in_degree G v = O) (nodes G))
    (list_to_map (omap (λ v, match in_degree G v with
                             | O => None
                             | d => Some (v, d)
                             end) (nodes G))).
Proof.
  intros Hwf. split; simpl.
  - apply NoDup_filter, Hwf.
  - intros v Hv. apply list_elem_of_filter in Hv. tauto.
  - intros v. rewrite indegree_map_lookup, list_elem_of_filter.
    destruct (decide (v ∈ nodes G)); [|tauto].
    destruct (in_degree G v); split; try done; try tauto.
    intros [?|[? _]]; done.
  - intros v c. rewrite indegree_map_lookup.
    destruct (decide (v ∈ nodes G)); [|done].
    destruct (in_degree G v); [done|]. intros [= <-]. simpl. lia.
  - intros v u Hv Hvu. apply list_elem_of_filter in Hv as [Hz _].
    unfold in_degree in Hz. apply length_zero_iff_nil in Hz.
    assert (u ∈ filter (λ u, v ∈@{list string} successors G u) (nodes G)) as Hu.
    { apply list_elem_of_filter. split; [done|]. by destruct (wf_succ_nodes G Hwf _ _ Hvu). }
    rewrite Hz in Hu. by apply elem_of_nil in Hu.
Qed.

Lemma generations_sound G fuel : ∀ D Z indeg out,
  wf_graph G → kahn_inv G D Z indeg →
  generations fuel G indeg Z = Ok out →
  NoDup (D ++ out)
  ∧ (∀ v, v ∈ nodes G → v ∈ D ++ out)
  ∧ (∀ v, v ∈ out → v ∈ nodes G)
  ∧ (∀ j v u, out !! j = Some v → v ∈ successors G u →
       u ∈ D ∨ ∃ i, i < j ∧ out !! i = Some u).
Proof.
  assert (Hnil : ∀ D indeg out, kahn_inv G D [] indeg →
            (if bool_decide (indeg = ∅) then Ok [] else Err NetworkXUnfeasible) = Ok out →
            NoDup (D ++ out)
            ∧ (∀ v, v ∈ nodes G → v ∈ D ++ out)
            ∧ (∀ v, v ∈ out → v ∈ nodes G)
            ∧ (∀ j v u, out !! j = Some v → v ∈ successors G u →
                 u ∈ D ∨ ∃ i, i < j ∧ out !! i = Some u)).
  { intros D indeg out Hinv Hout.
    destruct (bool_decide (indeg = ∅)) eqn:Eb; [|done].
    apply bool_decide_eq_true in Eb. subst indeg. injection Hout as <-.
    split_and!.
    - apply Hinv.
    - intros v Hv. destruct (ki_none _ _ _ _ Hinv v) as [H1 _].
      destruct (H1 (lookup_empty _)); done.
    - by intros v ?%elem_of_nil.
    - by intros j v u ?. }
  induction fuel as [|fuel IH]; intros D Z indeg out Hwf Hinv Hout.
  - destruct Z; [by eapply Hnil|done].
  - destruct Z as [|z Z]; [by eapply Hnil|].
    simpl in Hout.
    destruct (next_generation G indeg (z :: Z)) as [indeg' Z'] eqn:Eng.
    pose proof (kahn_step _ _ _ _ _ _ Hwf Hinv Eng) as Hinv'.
    destruct (generations fuel G indeg' Z') as [rest| |] eqn:Er; try done.
    simpl in Hout. injection Hout as <-.
    change (z :: Z ++ rest) with ((z :: Z) ++ rest).
    destruct (IH _ _ _ _ Hwf Hinv' Er) as (Hnd & Hall & Hsub & Hord).
    split_and!.
    + rewrite <- app_assoc in Hnd. exact Hnd.
    + intros v Hv. apply Hall in Hv. rewrite <- app_assoc in Hv. exact Hv.
    + intros v [Hv|Hv]%elem_of_app; [|by apply Hsub].
      apply (ki_nodes _ _ _ _ Hinv). apply elem_of_app. by right.
    + intros j v u Hj Hvu.
      destruct (decide (j < length (z :: Z))) as [Hlt|Hge].
      * rewrite lookup_app_l in Hj by done.
        left. apply (ki_preds _ _ _ _ Hinv v u); [|done].
        apply elem_of_app. right. by eapply list_elem_of_lookup_2.
      * rewrite lookup_app_r in Hj by lia.
        destruct (Hord _ _ _ Hj Hvu) as [[HuD|HuZ]%elem_of_app|(i & Hi & Hu)].
        -- by left.
        -- right. apply list_elem_of_lookup_1 in HuZ as [i Hi].
           exists i. split.
           ++ apply lookup_lt_Some in Hi. lia.
           ++ by rewrite lookup_app_l by (by eapply lookup_lt_Some).
        -- right. exists (length (z :: Z) + i). split; [lia|].
           rewrite lookup_app_r by lia. rewrite <- Hu. f_equal. lia.
Qed.

Lemma topological_sort_sound G order :
  wf_graph G → topological_sort G = Ok order →
  NoDup order
  ∧ (∀ v, v ∈ order ↔ v ∈ nodes G)
  ∧ (∀ j v u, order !! j = Some v → v ∈ successors G u →
       ∃ i, i < j ∧ order !! i = Some u).
Proof.
  intros Hwf Hts. unfold topological_sort in Hts.
  destruct (generations_sound _ _ _ _ _ _ Hwf (kahn_initial G Hwf) Hts)
    as (Hnd & Hall & Hsub & Hord).
  simpl in *. split_and!; [done| |].
  - intros v. split; [apply Hsub|apply Hall].
  - intros j v u Hj Hvu. destruct (Hord _ _ _ Hj Hvu) as [Hu|?]; [|done].
    by apply elem_of_nil in Hu.
Qed.

Lemma unfinished_pred G D indeg v c :
  wf_graph G → kahn_inv G D [] indeg → indeg !! v = Some c →
  ∃ u, v ∈ successors G u ∧ is_Some (indeg !! u).
Proof.
  intros Hwf Hinv Hc. destruct (ki_count _ _ _ _ Hinv v c Hc) as [Hpos Hcnt].
  destruct (decide (Forall (λ u, v ∈ successors G u → u ∈ D) (nodes G))) as [Hall|Hex].
  - exfalso. rewrite Forall_forall in Hall.
    pose proof (ki_nodup _ _ _ _ Hinv) as Hnd. rewrite app_nil_r in Hnd.
    assert (length (filter (λ u, v ∈@{list string} successors G u) (nodes G))
            ≤ length (filter (λ u, v ∈@{list string} successors G u) D)) as Hle.
    { apply submseteq_length, NoDup_submseteq.
      - apply NoDup_filter, Hwf.
      - intros x. rewrite !list_elem_of_filter. intros [? ?]. split; [done|].
        by apply Hall. }
    unfold in_degree, preds_in in *. lia.
  - apply not_Forall_Exists in Hex; [|solve_decision].
    apply Exists_exists in Hex as (u & Hu & Hnot).
    destruct (decide (v ∈ successors G u)) as [Hvu|Hvu]; [|by exfalso; apply Hnot].
    exists u. split; [done|].
    destruct (indeg !! u) eqn:Eu; [done|].
    apply (ki_none _ _ _ _ Hinv) in Eu. rewrite app_nil_r in Eu.
    destruct Eu as [Eu|Eu]; [done|]. exfalso. apply Hnot. by intros _.
Qed.

Lemma generations_complete G (rank : string → nat) fuel : ∀ D Z indeg,
  wf_graph G →
  (∀ u v, v ∈ successors G u → rank u < rank v) →
  kahn_inv G D Z indeg →
  length (nodes G) ≤ length D + fuel →
  ∃ out, generations fuel G indeg Z = Ok out.
Proof.
  intros D Z indeg Hwf Hrank.
  assert (Hnil : ∀ D indeg, kahn_inv G D [] indeg → indeg = ∅).
  { clear D Z indeg. intros D indeg Hinv. apply map_empty. intros v.
    assert (∀ n v, rank v < n → indeg !! v = None) as Hn.
    { clear v. induction n as [|n IHn]; intros v Hv; [lia|].
      destruct (indeg !! v) as [c|] eqn:Ec; [|done].
      destruct (unfinished_pred G D indeg v c Hwf Hinv Ec) as (u & Hvu & [c' Hu]).
      apply Hrank in Hvu. rewrite IHn in Hu by lia. done. }
    apply (Hn (S (rank v))). lia. }
  revert D Z indeg. induction fuel as [|fuel IH]; intros D Z indeg Hinv Hfuel.
  - destruct Z as [|z Z].
    + simpl. rewrite (Hnil D indeg Hinv). rewrite bool_decide_eq_true_2 by done. eauto.
    + exfalso.
      pose proof (submseteq_length _ _
        (NoDup_submseteq _ _ (ki_nodup _ _ _ _ Hinv) (ki_nodes _ _ _ _ Hinv))) as Hle.
      rewrite length_app in Hle. simpl in Hle. lia.
  - destruct Z as [|z Z].
    + simpl. rewrite (Hnil D indeg Hinv). rewrite bool_decide_eq_true_2 by done. eauto.
    + simpl.
      destruct (next_generation G indeg (z :: Z)) as [indeg' Z'] eqn:Eng.
      pose proof (kahn_step _ _ _ _ _ _ Hwf Hinv Eng) as Hinv'.
      destruct (IH _ _ _ Hinv') as [rest Hrest].
      { rewrite length_app. simpl. lia. }
      rewrite Hrest. simpl. eauto.
Qed.

Lemma topological_sort_complete G (rank : string → nat) :
  wf_graph G →
  (∀ u v, v ∈ successors G u → rank u < rank v) →
  ∃ order, topological_sort G = Ok order.
Proof.
  intros Hwf Hrank. unfold topological_sort.
  apply (generations_complete G rank _ []); try done.
  by apply kahn_initial.
Qed.

(** ** The graph built from the precedence data *)

Lemma successors_add_node G t u : successors (add_node G t) u = successors G u.
Proof. unfold add_node. by destruct (bool_decide _). Qed.

Lemma nodes_add_node G t v : v ∈ nodes (add_node G t) ↔ v ∈ nodes G ∨ v = t.
Proof.
  unfold add_node. destruct (bool_decide (t ∈ nodes G)) eqn:E; simpl.
  - apply bool_decide_eq_true in E. split; [tauto|]. intros [?| ->]; done.
  - rewrite elem_of_app, list_elem_of_singleton. done.
Qed.

Lemma wf_add_node G t : wf_graph G → wf_graph (add_node G t).
Proof.
  intros [Hn Hs He]. split.
  - unfold add_node. destruct (bool_decide (t ∈ nodes G)) eqn:E; simpl; [done|].
    apply bool_decide_eq_false in E. apply NoDup_app. split_and!; [done| |apply NoDup_singleton].
    intros x Hx ->%list_elem_of_singleton. done.
  - intros u. by rewrite successors_add_node.
  - intros u v. rewrite successors_add_node, !nodes_add_node.
    intros Huv. destruct (He u v Huv). tauto.
Qed.

Lemma successors_add_edge G p t u v :
  v ∈ successors (add_edge G p t) u ↔ v ∈ successors G u ∨ (u = p ∧ v = t).
Proof.
  unfold add_edge.
  destruct (bool_decide (t ∈ successors (add_node (add_node G p) t) p)) eqn:E.
  - apply bool_decide_eq_true in E. rewrite !successors_add_node in *.
    split; [tauto|]. intros [?|[-> ->]]; done.
  - unfold successors at 1. simpl.
    destruct (decide (u = p)) as [->|Hne].
    + rewrite lookup_insert_eq. simpl. rewrite elem_of_app, list_elem_of_singleton.
      rewrite !successors_add_node. naive_solver.
    + rewrite lookup_insert_ne by done.
      change (default [] (adj (add_node (add_node G p) t) !! u))
        with (successors (add_node (add_node G p) t) u).
      rewrite !successors_add_node. naive_solver.
Qed.

Lemma nodes_add_edge G p t v :
  v ∈ nodes (add_edge G p t) ↔ v ∈ nodes G ∨ v = p ∨ v = t.
Proof.
  unfold add_edge.
  destruct (bool_decide (t ∈ successors (add_node (add_node G p) t) p)); simpl;
    rewrite !nodes_add_node; tauto.
Qed.

Lemma wf_add_edge G p t : wf_graph G → wf_graph (add_edge G p t).
Proof.
  intros Hwf.
  pose proof (wf_add_node _ t (wf_add_node _ p Hwf)) as Hwf1.
  split.
  - unfold add_edge. destruct (bool_decide _); simpl; apply Hwf1.
  - intros u. unfold add_edge.
    destruct (bool_decide (t ∈ successors (add_node (add_node G p) t) p)) eqn:E;
      [apply Hwf1|].
    apply bool_decide_eq_false in E. unfold successors at 1. simpl.
    destruct (decide (u = p)) as [->|Hne].
    + rewrite lookup_insert_eq. simpl. apply NoDup_app. split_and!.
      * apply Hwf1.
      * intros x Hx ->%list_elem_of_singleton. done.
      * apply NoDup_singleton.
    + rewrite lookup_insert_ne by done. apply (wf_succ_nodup _ Hwf1 u).
  - intros u v. rewrite successors_add_edge, !nodes_add_edge.
    intros [Huv|[-> ->]]; [|tauto].
    destruct (wf_succ_nodes _ Hwf u v Huv). tauto.
Qed.

Lemma wf_empty_graph : wf_graph empty_graph.
Proof.
  split; simpl.
  - constructor.
  - intros u. unfold successors. simpl. rewrite lookup_empty. constructor.
  - intros u v. unfold successors. simpl. rewrite lookup_empty. by intros ?%elem_of_nil.
Qed.

Lemma add_nodes_spec tasks : ∀ G,
  wf_graph G →
  wf_graph (foldl add_node G tasks)
  ∧ (∀ v, v ∈ nodes (foldl add_node G tasks) ↔ v ∈ nodes G ∨ v ∈ tasks)
  ∧ (∀ u, successors (foldl add_node G tasks) u = successors G u).
Proof.
  induction tasks as [|t tasks IH]; intros G Hwf; simpl.
  - split_and!; [done| |done]. intros v. rewrite elem_of_nil. tauto.
  - destruct (IH (add_node G t) (wf_add_node _ _ Hwf)) as (H1 & H2 & H3).
    split_and!; [done| |].
    + intros v. rewrite H2, nodes_add_node, elem_of_cons. tauto.
    + intros u. by rewrite H3, successors_add_node.
Qed.

Lemma add_edges_spec t preds : ∀ G,
  wf_graph G →
  wf_graph (foldl (λ G' p, add_edge G' p t) G preds)
  ∧ (∀ v, v ∈ nodes (foldl (λ G' p, add_edge G' p t) G preds)
          ↔ v ∈ nodes G ∨ (preds ≠ [] ∧ v = t) ∨ v ∈ preds)
  ∧ (∀ u v, v ∈ successors (foldl (λ G' p, add_edge G' p t) G preds) u
          ↔ v ∈ successors G u ∨ (v = t ∧ u ∈ preds)).
Proof.
  induction preds as [|p preds IH]; intros G Hwf; simpl.
  - split_and!; [done| |].
    + intros v. rewrite elem_of_nil. tauto.
    + intros u v. rewrite elem_of_nil. tauto.
  - destruct (IH (add_edge G p t) (wf_add_edge _ _ _ Hwf)) as (H1 & H2 & H3).
    split_and!; [done| |].
    + intros v. rewrite H2, nodes_add_edge, elem_of_cons.
      destruct (decide (preds = [])); naive_solver.
    + intros u v. rewrite H3, successors_add_edge, elem_of_cons. naive_solver.
Qed.

Lemma add_entries_spec (l : list (string * list string)) : ∀ G,
  wf_graph G →
  wf_graph (foldl (λ G '(t, preds), foldl (λ G' p, add_edge G' p t) G preds) G l)
  ∧ (∀ v, v ∈ nodes (foldl (λ G '(t, preds),
                              foldl (λ G' p, add_edge G' p t) G preds) G l)
          ↔ v ∈ nodes G
            ∨ ∃ t preds p, (t, preds) ∈ l ∧ p ∈ preds ∧ (v = t ∨ v = p))
  ∧ (∀ u v, v ∈ successors (foldl (λ G '(t, preds),
                              foldl (λ G' p, add_edge G' p t) G preds) G l) u
          ↔ v ∈ successors G u ∨ ∃ preds, (v, preds) ∈ l ∧ u ∈ preds).
Proof.
  induction l as [|[t preds] l IH]; intros G Hwf; simpl.
  - split_and!; [done| |].
    + intros v. split; [tauto|]. intros [?|(? & ? & ? & []%elem_of_nil & _)]. done.
    + intros u v. split; [tauto|]. intros [?|(? & []%elem_of_nil & _)]. done.
  - destruct (add_edges_spec t preds G Hwf) as (W1 & N1 & S1).
    destruct (IH _ W1) as (H1 & H2 & H3).
    split_and!; [done| |].
    + intros v. rewrite H2, N1. split.
      * intros [[?|[[Hne ->]|Hv]]|(t' & ps & p & Hin & Hp & Hv)].
        -- by left.
        -- destruct preds as [|p0 preds]; [done|].
           right. exists t, (p0 :: preds), p0. split_and!; [left|left|by left].
        -- right. exists t, preds, v. split_and!; [left|done|by right].
        -- right. exists t', ps, p. split_and!; [by right|done|done].
      * intros [?|(t' & ps & p & Hin & Hp & Hv)]; [by left; left|].
        apply elem_of_cons in Hin as [[= -> ->]|Hin].
        -- left. right. destruct Hv as [->| ->]; [left|by right].
           split; [|done]. intros ->. by apply elem_of_nil in Hp.
        -- right. by exists t', ps, p.
    + intros u v. rewrite H3, S1. split.
      * intros [[?|[-> Hu]]|(ps & Hin & Hu)].
        -- by left.
        -- right. exists preds. split; [left|done].
        -- right. exists ps. split; [by right|done].
      * intros [?|(ps & Hin & Hu)]; [by left; left|].
        apply elem_of_cons in Hin as [[= -> ->]|Hin].
        -- left. by right.
        -- right. by exists ps.
Qed.

Lemma build_graph_wf tasks predecessors : wf_graph (build_graph tasks predecessors).
Proof.
  unfold build_graph.
  destruct (add_nodes_spec tasks empty_graph wf_empty_graph) as (W & _ & _).
  by destruct (add_entries_spec (map_to_list predecessors) _ W) as (W' & _ & _).
Qed.

Lemma build_graph_successors tasks predecessors u v :
  v ∈ successors (build_graph tasks predecessors) u ↔ precedes predecessors u v.
Proof.
  unfold build_graph, precedes, preds_of.
  destruct (add_nodes_spec tasks empty_graph wf_empty_graph) as (W & _ & S0).
  destruct (add_entries_spec (map_to_list predecessors) _ W) as (_ & _ & S1).
  rewrite S1, S0. unfold successors at 1. simpl. rewrite lookup_empty. simpl.
  split.
  - intros [[]%elem_of_nil|(ps & Hin & Hu)].
    apply elem_of_map_to_list in Hin. by rewrite Hin.
  - intros Hu. right. destruct (predecessors !! v) as [ps|] eqn:E; simpl in Hu.
    + exists ps. split; [by apply elem_of_map_to_list|done].
    + by apply elem_of_nil in Hu.
Qed.

Lemma build_graph_nodes tasks predecessors v :
  v ∈ nodes (build_graph tasks predecessors)
  ↔ v ∈ tasks ∨ ∃ p t, precedes predecessors p t ∧ (v = t ∨ v = p).
Proof.
  unfold build_graph, precedes, preds_of.
  destruct (add_nodes_spec tasks empty_graph wf_empty_graph) as (W & N0 & _).
  destruct (add_entries_spec (map_to_list predecessors) _ W) as (_ & N1 & _).
  rewrite N1, N0. simpl. rewrite elem_of_nil. split.
  - intros [[[]|?]|(t & ps & p & Hin & Hp & Hv)]; [by left|].
    right. exists p, t. apply elem_of_map_to_list in Hin. rewrite Hin. done.
  - intros [?|(p & t & Hp & Hv)]; [by left; right|].
    right. destruct (predecessors !! t) as [ps|] eqn:E; simpl in Hp.
    + exists t, ps, p. split_and!; [by apply elem_of_map_to_list|done|done].
    + by apply elem_of_nil in Hp.
Qed.

(** ** The sort neither runs out of iterations nor raises anything but
       [NetworkXUnfeasible] *)

Lemma generations_enough_fuel G fuel : ∀ D Z indeg,
  wf_graph G → kahn_inv G D Z indeg →
  length (nodes G) ≤ length D + fuel →
  generations fuel G indeg Z ≠ NoFuel.
Proof.
  induction fuel as [|fuel IH]; intros D Z indeg Hwf Hinv Hfuel.
  - destruct Z as [|z Z]; simpl.
    + by destruct (bool_decide _).
    + exfalso.
      pose proof (submseteq_length _ _
        (NoDup_submseteq _ _ (ki_nodup _ _ _ _ Hinv) (ki_nodes _ _ _ _ Hinv))) as Hle.
      rewrite length_app in Hle. simpl in Hle. lia.
  - destruct Z as [|z Z]; simpl.
    + by destruct (bool_decide _).
    + destruct (next_generation G indeg (z :: Z)) as [indeg' Z'] eqn:Eng.
      pose proof (kahn_step _ _ _ _ _ _ Hwf Hinv Eng) as Hinv'.
      assert (generations fuel G indeg' Z' ≠ NoFuel) as Hne.
      { apply (IH (D ++ z :: Z)); [done|done|]. rewrite length_app. simpl. lia. }
      destruct (generations fuel G indeg' Z'); simpl; done.
Qed.

Lemma generations_error G fuel : ∀ indeg Z e,
  generations fuel G indeg Z = Err e → e = NetworkXUnfeasible.
Proof.
  induction fuel as [|fuel IH]; intros indeg Z e.
  - destruct Z; simpl; [|done]. destruct (bool_decide _); [done|]. by intros [= <-].
  - destruct Z as [|z Z]; simpl.
    + destruct (bool_decide _); [done|]. by intros [= <-].
    + destruct (next_generation G indeg (z :: Z)) as [indeg' Z'].
      destruct (generations fuel G indeg' Z') eqn:E; simpl; try done.
      intros [= <-]. by eapply IH.
Qed.

Lemma topological_sort_cases G :
  wf_graph G →
  (∃ order, topological_sort G = Ok order)
  ∨ topological_sort G = Err NetworkXUnfeasible.
Proof.
  intros Hwf. unfold topological_sort.
  match goal with |- context [generations ?f ?G ?i ?z] =>
    pose proof (generations_enough_fuel G f [] z i Hwf (kahn_initial G Hwf)) as Hfuel;
    pose proof (generations_error G f i z) as Herr;
    destruct (generations f G i z) as [order|e|] end.
  - left. by eexists.
  - right. by rewrite (Herr e eq_refl).
  - exfalso. apply Hfuel; [simpl; lia|done].
Qed.

(** ** The accumulation of the weights *)

Lemma dict_of_times_lookup times tasks m :
  dict_of_times times tasks = Ok m →
  ∀ t, m !! t = if decide (t ∈ tasks) then times !! t else None.
Proof.
  revert m. induction tasks as [|x tasks IH]; simpl; intros m Hm t.
  - by injection Hm as <-.
  - unfold getitem in Hm. destruct (times !! x) as [d|] eqn:Ex; simpl in Hm; [|done].
    destruct (dict_of_times times tasks) as [m'| |]; simpl in Hm; try done.
    injection Hm as <-. destruct (decide (t = x)) as [->|Hne].
    + rewrite lookup_insert_eq, Ex. destruct (decide (x ∈ x :: tasks)); [done|set_solver].
    + rewrite lookup_insert_ne, (IH m' eq_refl) by done.
      destruct (decide (t ∈ tasks)), (decide (t ∈ x :: tasks)); set_solver.
Qed.

Lemma dict_of_times_cases times tasks :
  (∃ m, dict_of_times times tasks = Ok m)
  ∨ dict_of_times times tasks = Err KeyError.
Proof.
  induction tasks as [|x tasks IH]; simpl; [left; by eexists|].
  unfold getitem. destruct (times !! x); simpl; [|by right].
  destruct IH as [[m ->]| ->]; simpl; [left; by eexists|by right].
Qed.

Lemma dict_of_times_ok times tasks :
  (∀ t, t ∈ tasks → is_Some (times !! t)) →
  ∃ m, dict_of_times times tasks = Ok m.
Proof.
  induction tasks as [|x tasks IH]; intros Hall; simpl; [by eexists|].
  destruct (Hall x) as [d Hd]; [left|]. unfold getitem. rewrite Hd. simpl.
  destruct IH as [m ->]; [|simpl; by eexists].
  intros t Ht. apply Hall. by right.
Qed.

Lemma accumulate_node_cases succs : ∀ pw node,
  (∃ pw', accumulate_node pw node succs = Ok pw')
  ∨ accumulate_node pw node succs = Err KeyError.
Proof.
  induction succs as [|s succs IH]; intros pw node; simpl; [left; by eexists|].
  unfold getitem. destruct (pw !! node); simpl; [|by right].
  destruct (pw !! s); simpl; [|by right]. apply IH.
Qed.

Lemma accumulate_cases G topo : ∀ pw,
  (∃ pw', accumulate G pw topo = Ok pw') ∨ accumulate G pw topo = Err KeyError.
Proof.
  induction topo as [|node topo IH]; intros pw; simpl; [left; by eexists|].
  destruct (accumulate_node_cases (successors G node) pw node) as [[pw1 ->]| ->];
    simpl; [apply IH|by right].
Qed.

Lemma accumulate_node_None pw node succs pw' :
  accumulate_node pw node succs = Ok pw' →
  ∀ t, pw !! t = None → pw' !! t = None.
Proof.
  revert pw. induction succs as [|s succs IH]; simpl; intros pw Hacc t Ht.
  - by injection Hacc as <-.
  - unfold getitem in Hacc.
    destruct (pw !! node) as [a|] eqn:Ea; simpl in Hacc; [|done].
    destruct (pw !! s) as [b|]; simpl in Hacc; [|done].
    apply (IH _ Hacc). rewrite lookup_insert_ne; [done|]. by intros <-; congruence.
Qed.

Lemma accumulate_node_needs pw node succs pw' s :
  accumulate_node pw node succs = Ok pw' → s ∈ succs →
  is_Some (pw !! node) ∧ is_Some (pw !! s).
Proof.
  revert pw. induction succs as [|x succs IH]; simpl; intros pw Hacc Hs.
  - by apply elem_of_nil in Hs.
  - unfold getitem in Hacc.
    destruct (pw !! node) as [a|] eqn:Ea; simpl in Hacc; [|done].
    destruct (pw !! x) as [b|] eqn:Eb; simpl in Hacc; [|done].
    apply elem_of_cons in Hs as [->|Hs]; [by rewrite Eb; eauto|].
    split; [eauto|]. destruct (IH _ Hacc Hs) as [_ [c Hc]].
    destruct (decide (s = node)) as [->|Hne]; [by rewrite Ea; eauto|].
    rewrite lookup_insert_ne in Hc by done. eauto.
Qed.

Lemma accumulate_needs G topo : ∀ pw pw' node s,
  accumulate G pw topo = Ok pw' → node ∈ topo → s ∈ successors G node →
  is_Some (pw !! node) ∧ is_Some (pw !! s).
Proof.
  induction topo as [|x topo IH]; simpl; intros pw pw' node s Hacc Hn Hs.
  - by apply elem_of_nil in Hn.
  - destruct (accumulate_node pw x (successors G x)) as [pw1| |] eqn:E1;
      simpl in Hacc; try done.
    apply elem_of_cons in Hn as [->|Hn].
    + by apply (accumulate_node_needs _ _ _ _ _ E1).
    + destruct (IH _ _ _ _ Hacc Hn Hs) as [[a Ha] [b Hb]].
      split.
      * destruct (pw !! node) eqn:E; [eauto|].
        rewrite (accumulate_node_None _ _ _ _ E1 _ E) in Ha. done.
      * destruct (pw !! s) eqn:E; [eauto|].
        rewrite (accumulate_node_None _ _ _ _ E1 _ E) in Hb. done.
Qed.

Lemma accumulate_node_ok succs : ∀ pw node,
  is_Some (pw !! node) → (∀ s, s ∈ succs → is_Some (pw !! s)) →
  ∃ pw', accumulate_node pw node succs = Ok pw'.
Proof.
  induction succs as [|s succs IH]; intros pw node [a Ha] Hall; simpl; [by eexists|].
  destruct (Hall s) as [b Hb]; [left|]. unfold getitem. rewrite Ha, Hb. simpl.
  apply IH.
  - rewrite lookup_insert_eq. eauto.
  - intros x Hx. destruct (decide (x = node)) as [->|Hne].
    + rewrite lookup_insert_eq. eauto.
    + rewrite lookup_insert_ne by done. apply Hall. by right.
Qed.

Lemma accumulate_ok G topo : ∀ pw,
  (∀ node, node ∈ topo → is_Some (pw !! node)) →
  (∀ node s, node ∈ topo → s ∈ successors G node → is_Some (pw !! s)) →
  ∃ pw', accumulate G pw topo = Ok pw'.
Proof.
  induction topo as [|x topo IH]; intros pw Hn Hs; simpl; [by eexists|].
  destruct (accumulate_node_ok (successors G x) pw x) as [pw1 E1].
  { apply Hn. left. }
  { intros s. apply Hs. left. }
  rewrite E1. simpl. apply IH.
  - intros node Hnode. apply (accumulate_node_dom _ _ _ _ E1), Hn. by right.
  - intros node s Hnode Hsucc. apply (accumulate_node_dom _ _ _ _ E1).
    apply (Hs node); [by right|done].
Qed.

Lemma accumulate_node_spec succs : ∀ pw node pw',
  node ∉ succs → accumulate_node pw node succs = Ok pw' →
  (∀ t, t ≠ node → pw' !! t = pw !! t)
  ∧ (∀ a, pw !! node = Some a →
       ∃ q, pw' !! node = Some q ∧ (q == a + sum_durations pw succs)%Q).
Proof.
  induction succs as [|s succs IH]; simpl; intros pw node pw' Hnot Hacc.
  - injection Hacc as <-. split; [done|]. intros a Ha. exists a. split; [done|]. ring.
  - unfold getitem in Hacc.
    destruct (pw !! node) as [a0|] eqn:Ea; simpl in Hacc; [|done].
    destruct (pw !! s) as [b|] eqn:Eb; simpl in Hacc; [|done].
    apply not_elem_of_cons in Hnot as [Hne Hnot].
    destruct (IH _ _ _ Hnot Hacc) as [Hother Hnode].
    split.
    + intros t Ht. rewrite (Hother t Ht). by rewrite lookup_insert_ne.
    + intros a [= <-]. destruct (Hnode (a0 + b)%Q) as (q & Hq & Hsum).
      { by rewrite lookup_insert_eq. }
      exists q. split; [done|]. rewrite Hsum.
      rewrite (sum_durations_ext (<[node:=(a0 + b)%Q]> pw) pw).
      * unfold duration. rewrite Eb. simpl. ring.
      * intros t Ht. rewrite lookup_insert_ne; [done|]. by intros <-.
Qed.

Lemma accumulate_spec G topo : ∀ pw0 pw,
  NoDup topo →
  (∀ l1 node l2 s, topo = l1 ++ node :: l2 → s ∈ successors G node → s ∉ node :: l2) →
  accumulate G pw0 topo = Ok pw →
  (∀ t, t ∉ topo → pw !! t = pw0 !! t)
  ∧ (∀ t a, t ∈ topo → pw0 !! t = Some a →
       ∃ q, pw !! t = Some q ∧ (q == a + sum_durations pw (successors G t))%Q).
Proof.
  induction topo as [|node rest IH]; simpl; intros pw0 pw Hnd Hord Hacc.
  - injection Hacc as <-. split; [done|]. by intros t a ?%elem_of_nil.
  - destruct (accumulate_node pw0 node (successors G node)) as [pw1| |] eqn:E1;
      simpl in Hacc; try done.
    apply NoDup_cons in Hnd as [Hnode Hnd].
    assert (Hself : node ∉ successors G node).
    { intros Hs. apply (Hord [] node rest node eq_refl Hs). left. }
    destruct (accumulate_node_spec _ _ _ _ Hself E1) as [Hother Hhere].
    destruct (IH pw1 pw Hnd) as [Hout Hin]; [|done|].
    { intros l1 n l2 s Heq. apply (Hord (node :: l1) n l2 s). by rewrite Heq. }
    split.
    + intros t Ht. apply not_elem_of_cons in Ht as [Hne Ht].
      by rewrite (Hout t Ht), (Hother t Hne).
    + intros t a Ht Ha. apply elem_of_cons in Ht as [->|Ht].
      * destruct (Hhere a Ha) as (q & Hq & Hsum). exists q.
        split; [by rewrite (Hout node Hnode)|].
        rewrite Hsum.
        rewrite (sum_durations_ext pw pw0); [reflexivity|].
        intros s Hs. pose proof (Hord [] node rest s eq_refl Hs) as Hs'.
        apply not_elem_of_cons in Hs' as [Hne Hs'].
        by rewrite (Hout s Hs'), (Hother s Hne).
      * apply Hin; [done|]. rewrite Hother; [done|]. by intros ->.
Qed.

Lemma reverse_order_spec G order :
  wf_graph G → topological_sort G = Ok order →
  NoDup (reverse order)
  ∧ ∀ l1 node l2 s, reverse order = l1 ++ node :: l2 →
      s ∈ successors G node → s ∉ node :: l2.
Proof.
  intros Hwf Hts.
  destruct (topological_sort_sound G order Hwf Hts) as (Hnd & _ & Hord).
  split; [by rewrite reverse_Permutation|].
  intros l1 node l2 s Heq Hs Hin.
  assert (Horder : order = (reverse l2 ++ [node]) ++ reverse l1).
  { rewrite <- (reverse_involutive order), Heq.
    by rewrite reverse_app, reverse_cons. }
  assert (Hin' : s ∈ reverse l2 ++ [node]).
  { apply elem_of_app. apply elem_of_cons in Hin as [->|Hin].
    - right. left.
    - left. by apply elem_of_reverse. }
  apply list_elem_of_lookup_1 in Hin' as [j Hj].
  assert (Hjlt : j < length (reverse l2 ++ [node])) by (by eapply lookup_lt_Some).
  assert (Hsj : order !! j = Some s).
  { rewrite Horder, lookup_app_l by done. done. }
  destruct (Hord j s node Hsj Hs) as (i & Hi & Hnode).
  assert (Hnode' : order !! length (reverse l2) = Some node).
  { rewrite Horder, lookup_app_l by (rewrite length_app; simpl; lia).
    rewrite lookup_app_r by lia. by rewrite Nat.sub_diag. }
  pose proof (NoDup_lookup _ _ _ _ Hnd Hnode Hnode') as ->.
  rewrite length_app in Hjlt. simpl in Hjlt. lia.
Qed.

(** ** An edge that leaves the task list

    [compute_positional_weights] looks at every entry of [predecessors]: an
    edge with an end that is not a task makes it raise, a [KeyError] unless
    the sort has found a cycle first. *)

Lemma foreign_edge_raises tasks times predecessors p t :
  precedes predecessors p t → p ∉ tasks ∨ t ∉ tasks →
  compute_positional_weights tasks times predecessors = Err KeyError
  ∨ compute_positional_weights tasks times predecessors = Err NetworkXUnfeasible.
Proof.
  intros Hpt Hnot. unfold compute_positional_weights.
  pose proof (build_graph_wf tasks predecessors) as Hwf.
  destruct (topological_sort_cases _ Hwf) as [[order Hts]|Hts];
    rewrite Hts; simpl; [|by right].
  left. destruct (dict_of_times_cases times tasks) as [[m Hm]|Hm];
    rewrite Hm; simpl; [|done].
  destruct (accumulate_cases (build_graph tasks predecessors) (reverse order) m)
    as [[pw Hacc]|Hacc]; [|done].
  exfalso.
  apply (build_graph_successors tasks) in Hpt.
  destruct (accumulate_needs _ _ _ _ p t Hacc) as [[a Ha] [b Hb]]; [|done|].
  { apply elem_of_reverse. apply (topological_sort_sound _ _ Hwf Hts).
    by destruct (wf_succ_nodes _ Hwf _ _ Hpt). }
  rewrite (dict_of_times_lookup _ _ _ Hm) in Ha, Hb.
  destruct (decide (p ∈ tasks)), (decide (t ∈ tasks)); try done. tauto.
Qed.

(** * The properties of the specification *)

(** C1 (termination), failing input.  A single task of 15 s with a cycle time
    of 10 s is a well-formed input (unique identifier, positive duration,
    positive cycle time, no precedence at all).  Whatever the bound on the
    number of iterations, the loop is still running when the bound is reached,
    opening one empty station after the other: the engine neither returns nor
    raises.  (No well-formed input with a task longer than the cycle time
    makes the engine return, [oversized_never_returns]; when no task is
    longer than the cycle time the loop does end, [loop_returns].) *)
Theorem oversized_task_never_terminates f fuel :
  valid_input oversized_tasks oversized_times oversized_predecessors 10
  ∧ engine f fuel oversized_tasks oversized_times oversized_predecessors 10
           "longest_task_time" = OutOfFuel.
Proof.
  split; [exact oversized_valid|].
  rewrite engine_longest_task_time.
  - by rewrite oversized_loop.
  - by vm_compute.
  - eexists. by vm_compute.
Qed.

(** C2 (coverage and partition).  On a valid input on which the engine
    returns, every task of the list sits in exactly one station of the
    returned assignment (and once in that station's sequence), and the tasks
    found in the stations are exactly the tasks of the list. *)
Theorem coverage_partition f fuel tasks times predecessors cycle_time heuristic w m :
  valid_input tasks times predecessors cycle_time →
  engine f fuel tasks times predecessors cycle_time heuristic = Done (w, m) →
  (∀ t, t ∈ tasks →
        ∃ k, (∃ l, w !! k = Some l ∧ t ∈ l)
             ∧ ∀ k' l', w !! k' = Some l' → t ∈ l' → k' = k)
  ∧ (∀ k l, w !! k = Some l → NoDup l)
  ∧ (∀ t, (∃ k l, w !! k = Some l ∧ t ∈ l) ↔ t ∈ tasks).
Proof.
  intros Hvalid Hrun.
  apply engine_Done_inv in Hrun as (st & Hinv & Hfin & -> & _).
  pose proof (finished_all_assigned _ _ _ _ _ (valid_unique _ _ _ _ Hvalid) Hinv Hfin)
    as Hall.
  destruct Hinv as [_ Has Hta Hun _ _ _ _ _].
  split_and!.
  - intros t Ht. apply Hall, Has in Ht as (k & i & l & Hl & Hi).
    exists k. split.
    + exists l. split; [done|]. apply list_elem_of_lookup. eauto.
    + intros k' l' Hl' Hin. apply list_elem_of_lookup in Hin as [i' Hi'].
      eapply (Hun t k' i' k i); by eexists.
  - intros k l Hl. apply NoDup_alt. intros i j x Hi Hj.
    eapply (Hun x k i k j); by eexists.
  - intros t. split.
    + intros (k & l & Hl & Hin). apply list_elem_of_lookup in Hin as [i Hi].
      apply Hta, Has. exists k, i. by exists l.
    + intros Ht. apply Hall, Has in Ht as (k & i & l & Hl & Hi).
      exists k, l. split; [done|]. apply list_elem_of_lookup. eauto.
Qed.

Lemma coverage_partition_witness :
  valid_input chain_tasks chain_times chain_predecessors 10
  ∧ engine line_py 3 chain_tasks chain_times chain_predecessors 10
           "longest_task_time" = Done (chain_workstations, chain_metrics)
  ∧ (∀ t, t ∈ chain_tasks →
        ∃ k, (∃ l, chain_workstations !! k = Some l ∧ t ∈ l)
             ∧ ∀ k' l', chain_workstations !! k' = Some l' → t ∈ l' → k' = k)
  ∧ (∀ k l, chain_workstations !! k = Some l → NoDup l)
  ∧ (∀ t, (∃ k l, chain_workstations !! k = Some l ∧ t ∈ l) ↔ t ∈ chain_tasks).
Proof.
  split; [exact chain_valid|]. split; [vm_compute; reflexivity|].
  apply (coverage_partition line_py 3 chain_tasks chain_times chain_predecessors
           10 "longest_task_time" chain_workstations chain_metrics).
  - exact chain_valid.
  - vm_compute. reflexivity.
Defined.

(** C3 (capacity).  On a valid input on which the engine returns, the
    durations of the tasks of every station of the returned assignment add up
    to at most the cycle time (and each of these tasks has a duration). *)
Theorem capacity_respected f fuel tasks times predecessors cycle_time heuristic w m :
  valid_input tasks times predecessors cycle_time →
  engine f fuel tasks times predecessors cycle_time heuristic = Done (w, m) →
  ∀ k l, w !! k = Some l →
    (sum_durations times l <= cycle_time)%Q
    ∧ ∀ t, t ∈ l → is_Some (times !! t).
Proof.
  intros _ Hrun k l Hl.
  apply engine_Done_inv in Hrun as (st & Hinv & _ & -> & _).
  split.
  - destruct (inv_times _ _ _ _ _ Hinv k l Hl) as (q & _ & Hq & Hle).
    by rewrite <- Hq.
  - intros t Hin. apply list_elem_of_lookup in Hin as [i Hi].
    apply (inv_tasks _ _ _ _ _ Hinv), (inv_assigned _ _ _ _ _ Hinv).
    exists k, i. by exists l.
Qed.

Lemma capacity_respected_witness :
  valid_input chain_tasks chain_times chain_predecessors 10
  ∧ engine line_py 3 chain_tasks chain_times chain_predecessors 10
           "longest_task_time" = Done (chain_workstations, chain_metrics)
  ∧ ∀ k l, chain_workstations !! k = Some l →
      (sum_durations chain_times l <= 10)%Q
      ∧ ∀ t, t ∈ l → is_Some (chain_times !! t).
Proof.
  split; [exact chain_valid|]. split; [vm_compute; reflexivity|].
  apply (capacity_respected line_py 3 chain_tasks chain_times chain_predecessors
           10 "longest_task_time" chain_workstations chain_metrics).
  - exact chain_valid.
  - vm_compute. reflexivity.
Defined.

(** C4 (precedence).  On a valid input on which the engine returns, every
    predecessor [p] of a task [t] of the returned assignment has its own single
    place in the assignment, in a station whose number is at most that of
    [t]'s station, and earlier in the sequence when the station is the same. *)
Theorem precedence_respected f fuel tasks times predecessors cycle_time heuristic w m :
  valid_input tasks times predecessors cycle_time →
  engine f fuel tasks times predecessors cycle_time heuristic = Done (w, m) →
  ∀ t p k i,
    at_position w k i t →
    p ∈ preds_of predecessors t →
    ∃ k' i', at_position w k' i' p
      ∧ (∀ k'' i'', at_position w k'' i'' p → k'' = k' ∧ i'' = i')
      ∧ (k' ≤ k)%nat ∧ (k' = k → (i' < i)%nat).
Proof.
  intros _ Hrun t p k i Ht Hp.
  apply engine_Done_inv in Hrun as (st & Hinv & _ & -> & _).
  destruct (inv_precedence _ _ _ _ _ Hinv t p k i Ht Hp) as (k' & i' & Hpos & Hlt).
  exists k', i'. split_and!; [done| |lia|lia].
  intros k'' i'' Hpos'. by eapply (inv_unique _ _ _ _ _ Hinv).
Qed.

Lemma precedence_respected_witness :
  valid_input chain_tasks chain_times chain_predecessors 10
  ∧ engine line_py 3 chain_tasks chain_times chain_predecessors 10
           "longest_task_time" = Done (chain_workstations, chain_metrics)
  ∧ ∀ t p k i,
      at_position chain_workstations k i t →
      p ∈ preds_of chain_predecessors t →
      ∃ k' i', at_position chain_workstations k' i' p
        ∧ (∀ k'' i'', at_position chain_workstations k'' i'' p → k'' = k' ∧ i'' = i')
        ∧ (k' ≤ k)%nat ∧ (k' = k → (i' < i)%nat).
Proof.
  split; [exact chain_valid|]. split; [vm_compute; reflexivity|].
  apply (precedence_respected line_py 3 chain_tasks chain_times chain_predecessors
           10 "longest_task_time" chain_workstations chain_metrics).
  - exact chain_valid.
  - vm_compute. reflexivity.
Defined.

(** C5 (unknown predecessor), counterexample.  [B] names the unknown
    predecessor [X]: [line_balancing.py] places [A] in station 1 and only then
    raises, and what it raises is the [ValueError] of the loop. *)
Lemma dangling_predecessor_counterexample :
  "B" ∈ chain_tasks
  ∧ "X" ∈ preds_of dangling_predecessors "B"
  ∧ ("X" ∉ chain_tasks)
  ∧ ∃ st, engine line_balancing_py 3 chain_tasks chain_times dangling_predecessors
                 10 "longest_task_time" = Raised ValueError st
          ∧ workstations st = {[ 1%nat := ["A"] ]}
          ∧ assigned_tasks st = {[ "A" ]}.
Proof.
  split_and!.
  - apply (bool_decide_unpack _). by vm_compute.
  - apply (bool_decide_unpack _). by vm_compute.
  - apply (bool_decide_unpack _). by vm_compute.
  - eexists. split_and!; [by vm_compute|by vm_compute..].
Qed.

(** C5, as the code has it.  When a task of the list names a predecessor that
    is not in the list, the engine never returns an assignment, whatever the
    bound on the iterations, and what it raises is no validation error.
    [line.py] raises before any task is placed: the step that fills
    [followers] raises a [KeyError].  [line_balancing.py] with the ranked
    positional weights also raises before any task is placed:
    [compute_positional_weights] raises a [KeyError], or [NetworkXUnfeasible]
    when the sort finds a cycle.  [line_balancing.py] with the longest task
    time enters the loop; when every task has a duration and no duration
    exceeds the cycle time, the loop raises its [ValueError] within
    [2 * len(tasks) - 1] iterations, at a point where no task is eligible. *)
Theorem dangling_predecessor_never_returns f fuel tasks times predecessors
    cycle_time heuristic t p :
  t ∈ tasks → p ∈ preds_of predecessors t → p ∉ tasks →
  (∀ r, engine f fuel tasks times predecessors cycle_time heuristic ≠ Done r)
  ∧ Line.build_followers tasks predecessors = Err KeyError
  ∧ (∃ e, Line.line_balancing_algorithm fuel tasks times predecessors cycle_time
            heuristic = Raised e initial_state)
  ∧ (heuristic = "ranked_positional_weight" →
     (compute_positional_weights tasks times predecessors = Err KeyError
      ∨ compute_positional_weights tasks times predecessors
        = Err NetworkXUnfeasible)
     ∧ ∃ e, LineBalancing.line_balancing_algorithm fuel tasks times predecessors
              cycle_time heuristic = Raised e initial_state)
  ∧ (heuristic = "longest_task_time" →
     (∀ x, x ∈ tasks → is_Some (times !! x)) →
     (∀ x d, times !! x = Some d → (d <= cycle_time)%Q) →
     (2 * length tasks - 1 ≤ fuel)%nat →
     (∃ st, while_loop tasks times predecessors cycle_time heuristic None fuel
                       initial_state = Raised ValueError st
            ∧ candidates tasks predecessors (assigned_tasks st) = [])
     ∧ ∃ e st, LineBalancing.line_balancing_algorithm fuel tasks times
                 predecessors cycle_time heuristic = Raised e st).
Proof.
  intros Ht Hp Hnot.
  pose proof (build_followers_dangling _ _ _ _ Ht Hp Hnot) as HF.
  split_and!.
  - intros [w m] Hrun.
    apply engine_Done_inv in Hrun as (st & Hinv & Hfin & _).
    pose proof (dangling_never_assigned _ _ _ _ _ _ _ Hinv Hp Hnot) as Hna.
    pose proof (unassigned_task_unfinished _ _ _ _ _ _ Hinv Ht Hna). congruence.
  - exact HF.
  - unfold Line.line_balancing_algorithm.
    destruct (Qeq_bool cycle_time 0); [by eexists|]. rewrite HF. by eexists.
  - intros ->.
    assert (Hpw : compute_positional_weights tasks times predecessors = Err KeyError
                  ∨ compute_positional_weights tasks times predecessors
                    = Err NetworkXUnfeasible).
    { apply (foreign_edge_raises tasks times predecessors p t); [done|by left]. }
    split; [exact Hpw|].
    unfold LineBalancing.line_balancing_algorithm.
    destruct (Qeq_bool cycle_time 0); [by eexists|].
    unfold allocate_and_report, weights_for. simpl.
    destruct Hpw as [-> | ->]; by eexists.
  - intros -> Hdur Hfit Hfuel.
    destruct (dangling_loop_raises fuel tasks times predecessors cycle_time t p
                Ht Hp Hnot Hdur Hfit Hfuel) as (st & Hloop & Hcand).
    split; [by exists st|].
    unfold LineBalancing.line_balancing_algorithm.
    destruct (Qeq_bool cycle_time 0); [by eexists _, _|].
    unfold allocate_and_report, weights_for. simpl. rewrite Hloop. by eexists _, _.
Qed.

Lemma dangling_predecessor_never_returns_witness :
  "B" ∈ chain_tasks
  ∧ "X" ∈ preds_of dangling_predecessors "B"
  ∧ ("X" ∉ chain_tasks)
  ∧ (∀ r, engine line_balancing_py 3 chain_tasks chain_times dangling_predecessors
                 10 "longest_task_time" ≠ Done r)
  ∧ Line.build_followers chain_tasks dangling_predecessors = Err KeyError
  ∧ (∃ e, Line.line_balancing_algorithm 3 chain_tasks chain_times
            dangling_predecessors 10 "longest_task_time" = Raised e initial_state)
  ∧ ("longest_task_time" = "ranked_positional_weight" →
     (compute_positional_weights chain_tasks chain_times dangling_predecessors
      = Err KeyError
      ∨ compute_positional_weights chain_tasks chain_times dangling_predecessors
        = Err NetworkXUnfeasible)
     ∧ ∃ e, LineBalancing.line_balancing_algorithm 3 chain_tasks chain_times
              dangling_predecessors 10 "longest_task_time" = Raised e initial_state)
  ∧ ("longest_task_time" = "longest_task_time" →
     (∀ x, x ∈ chain_tasks → is_Some (chain_times !! x)) →
     (∀ x d, chain_times !! x = Some d → (d <= 10)%Q) →
     (2 * length chain_tasks - 1 ≤ 3)%nat →
     (∃ st, while_loop chain_tasks chain_times dangling_predecessors 10
                       "longest_task_time" None 3 initial_state
            = Raised ValueError st
            ∧ candidates chain_tasks dangling_predecessors (assigned_tasks st) = [])
     ∧ ∃ e st, LineBalancing.line_balancing_algorithm 3 chain_tasks chain_times
                 dangling_predecessors 10 "longest_task_time" = Raised e st).
Proof.
  assert (H1 : "B" ∈ chain_tasks) by (apply (bool_decide_unpack _); by vm_compute).
  assert (H2 : "X" ∈ preds_of dangling_predecessors "B")
    by (apply (bool_decide_unpack _); by vm_compute).
  assert (H3 : "X" ∉ chain_tasks) by (apply (bool_decide_unpack _); by vm_compute).
  split; [exact H1|]. split; [exact H2|]. split; [exact H3|].
  exact (dangling_predecessor_never_returns line_balancing_py 3 chain_tasks
           chain_times dangling_predecessors 10 "longest_task_time" "B" "X"
           H1 H2 H3).
Defined.

(** C6 (positional weight), failing input.  In the diamond [a -> b, c -> d]
    (acyclic, durations 1, 2, 3, 4) the function returns 14 for [a]: the
    duration of [d] is added once through [b] and once through [c].  The
    weight of [a] as the glossary words it is 1 + 2 + 3 + 4 = 10. *)
Theorem diamond_counts_descendant_twice :
  (∃ rank : string → nat,
     ∀ t p, p ∈ preds_of diamond_predecessors t → (rank p < rank t)%nat)
  ∧ ∃ pw,
      compute_positional_weights diamond_tasks diamond_times diamond_predecessors
      = Ok pw
      ∧ pw !! "d" = Some 4%Q ∧ pw !! "b" = Some 6%Q ∧ pw !! "c" = Some 7%Q
      ∧ pw !! "a" = Some 14%Q
      ∧ spec_positional_weight diamond_tasks diamond_times diamond_predecessors "a"
        = 10%Q.
Proof.
  split; [exact diamond_acyclic|].
  eexists. split_and!; by vm_compute.
Qed.

(** On the demonstration data of [line_balancing.py] the value returned for
    the first task, 88, exceeds the total work content of the line, 50. *)
Lemma demo_weight_exceeds_total_work :
  ∃ pw, compute_positional_weights demo_tasks demo_times demo_predecessors = Ok pw
    ∧ pw !! "a" = Some 88%Q
    ∧ sum_values demo_times = 50%Q
    ∧ spec_positional_weight demo_tasks demo_times demo_predecessors "a" = 50%Q.
Proof. eexists. split_and!; by vm_compute. Qed.

(** C7 (minimum number of stations), failing input.  Two tasks of 5.005 s and
    5 s with a cycle time of 10 s are a well-formed input.  The engine returns
    and reports a minimum of 1 station,
    [max(1, int((10.005 + 10 - 0.01) // 10)) = 1], while the ceiling of
    10.005 / 10 is 2. *)
Theorem min_stations_below_ceiling :
  valid_input fractional_tasks fractional_times fractional_predecessors 10
  ∧ ∃ w m,
      engine line_py 3 fractional_tasks fractional_times fractional_predecessors
             10 "longest_task_time" = Done (w, m)
      ∧ min_stations m = 1%Z
      ∧ Qceiling (sum_durations fractional_times fractional_tasks / 10) = 2%Z.
Proof.
  split; [exact fractional_valid|].
  eexists _, _. split_and!; by vm_compute.
Qed.

(** C8 (metrics never fail), failing input.  With an empty task list the loop
    ends at once, with no station holding a task, and the efficiency divides
    by zero.  (For a task list that is not empty the derivation succeeds:
    [derive_metrics_ok].) *)
Theorem empty_task_list_divides_by_zero f fuel :
  while_loop [] ∅ ∅ 10 "longest_task_time" None fuel initial_state
    = Done initial_state
  ∧ engine f fuel [] ∅ ∅ 10 "longest_task_time"
    = Raised ZeroDivisionError initial_state.
Proof.
  split.
  - by destruct fuel.
  - rewrite engine_longest_task_time.
    + by destruct fuel.
    + by vm_compute.
    + eexists. by vm_compute.
Qed.

(** C9 (end-to-end scenario).  Tasks [A] (8 s) and [B] (5 s, after [A]) with a
    cycle time of 10 s under the longest-task-time rule: station 1 is [A],
    station 2 is [B], two stations at least and two used, 7 s idle, 65 %
    efficiency; three iterations of the loop are enough. *)
Theorem chain_scenario f n :
  ∃ w m,
    engine f (3 + n) ["A"; "B"] {[ "A" := 8%Q; "B" := 5%Q ]}
           {[ "A" := []; "B" := ["A"] ]} 10 "longest_task_time" = Done (w, m)
    ∧ w = {[ 1%nat := ["A"]; 2%nat := ["B"] ]}
    ∧ min_stations m = 2%Z
    ∧ actual_stations m = 2%nat
    ∧ (idle_time m == 7)%Q
    ∧ (efficiency m == 65)%Q.
Proof.
  exists chain_workstations, chain_metrics. split; [|by vm_compute].
  destruct f, n; by vm_compute.
Qed.

(** C10 (station times).  On a valid input on which the engine returns, the
    station numbers of [station_times] in the metrics are exactly the station
    numbers of the assignment, no station of the assignment is empty, and the
    time recorded for a station is the sum of the durations of its tasks. *)
Theorem station_times_match f fuel tasks times predecessors cycle_time heuristic w m :
  valid_input tasks times predecessors cycle_time →
  engine f fuel tasks times predecessors cycle_time heuristic = Done (w, m) →
  dom (m_station_times m) = dom w
  ∧ ∀ k l, w !! k = Some l →
      l ≠ []
      ∧ ∃ q, m_station_times m !! k = Some q ∧ (q == sum_durations times l)%Q.
Proof.
  intros _ Hrun.
  apply engine_Done_inv in Hrun as (st & Hinv & _ & -> & -> & _ & Hlast).
  split.
  - apply set_eq. intros k. rewrite !elem_of_dom.
    rewrite (inv_opened _ _ _ _ _ Hinv). split.
    + intros Hk. destruct (decide (k = current_station st)) as [->|Hne]; [done|].
      apply (inv_filled _ _ _ _ _ Hinv). lia.
    + intros [l Hl]. by apply (inv_stations _ _ _ _ _ Hinv k l).
  - intros k l Hl. split; [by apply (inv_stations _ _ _ _ _ Hinv k l)|].
    destruct (inv_times _ _ _ _ _ Hinv k l Hl) as (q & Hq & Heq & _). eauto.
Qed.

Lemma station_times_match_witness :
  valid_input chain_tasks chain_times chain_predecessors 10
  ∧ engine line_py 3 chain_tasks chain_times chain_predecessors 10
           "longest_task_time" = Done (chain_workstations, chain_metrics)
  ∧ dom (m_station_times chain_metrics) = dom chain_workstations
  ∧ ∀ k l, chain_workstations !! k = Some l →
      l ≠ []
      ∧ ∃ q, m_station_times chain_metrics !! k = Some q
             ∧ (q == sum_durations chain_times l)%Q.
Proof.
  split; [exact chain_valid|]. split; [vm_compute; reflexivity|].
  apply (station_times_match line_py 3 chain_tasks chain_times chain_predecessors
           10 "longest_task_time" chain_workstations chain_metrics).
  - exact chain_valid.
  - vm_compute. reflexivity.
Defined.


(** * Further properties of the code *)

(** ** What the engine returns, in full *)

Lemma engine_Done_full f fuel tasks times predecessors cycle_time heuristic w m :
  engine f fuel tasks times predecessors cycle_time heuristic = Done (w, m) →
  ∃ st,
    inv tasks times predecessors cycle_time st
    ∧ unfinished tasks st = false
    ∧ is_Some (workstations st !! current_station st)
    ∧ ¬ (cycle_time == 0)%Q
    ∧ w = workstations st
    ∧ total_work_content m = sum_values times
    ∧ m_cycle_time m = cycle_time
    ∧ actual_stations m = size (workstations st)
    ∧ idle_time m
      = map_fold (λ _ v acc, acc + (cycle_time - v))%Q 0%Q (station_times st)
    ∧ efficiency m
      = (sum_values times
         / (inject_Z (Z.of_nat (size (workstations st))) * cycle_time) * 100)%Q
    ∧ balance_delay m = (100 - efficiency m)%Q
    ∧ m_station_times m = station_times st.
Proof.
  intros Hrun.
  pose proof (engine_Done_inv _ _ _ _ _ _ _ _ _ Hrun)
    as (st0 & _ & _ & _ & _ & _ & _).
  assert (Hcyc : ¬ (cycle_time == 0)%Q).
  { intros Hz. apply Qeq_bool_iff in Hz.
    destruct f; simpl in Hrun;
      [unfold Line.line_balancing_algorithm in Hrun
      |unfold LineBalancing.line_balancing_algorithm in Hrun];
      by rewrite Hz in Hrun. }
  apply engine_Done in Hrun as (pw & st & Hloop & Hm).
  pose proof (while_loop_Done _ _ _ _ _ _ _ _ Hloop) as [Hinv Hfin].
  pose proof (derive_metrics_Done _ _ _ _ _ _ Hm) as (Hw & _ & _ & Hsize).
  unfold derive_metrics in Hm.
  destruct (Qeq_bool (inject_Z _ * cycle_time) 0); [done|].
  inversion Hm; subst w m; clear Hm. simpl.
  exists st. split_and!; try done.
  destruct (workstations st !! current_station st) as [ts|] eqn:Hts; [eauto|].
  destruct (inv_current _ _ _ _ _ Hinv Hts) as [_ [Hem|Hu]]; [|congruence].
  rewrite Hem in Hsize. by rewrite map_size_empty in Hsize.
Qed.

(** ** The two files return the same results *)

Lemma build_followers_members tasks predecessors :
  (∀ t p, t ∈ tasks → p ∈ preds_of predecessors t → p ∈ tasks) →
  ∃ followers, Line.build_followers tasks predecessors = Ok followers.
Proof.
  intros Hmem. apply fill_followers_ok. intros t p Ht Hp.
  rewrite dom_list_to_map_L, <- list_fmap_compose. apply elem_of_list_to_set.
  apply list_elem_of_fmap. exists p. split; [done|]. by apply (Hmem t p).
Qed.

(** Whatever [line_balancing.py] returns, [line.py] returns too, and the other
    way round: the [followers] table of [line.py] changes no result. *)
Theorem both_files_return_the_same fuel tasks times predecessors cycle_time
    heuristic r :
  engine line_py fuel tasks times predecessors cycle_time heuristic = Done r
  ↔ engine line_balancing_py fuel tasks times predecessors cycle_time heuristic
    = Done r.
Proof.
  simpl. unfold Line.line_balancing_algorithm, LineBalancing.line_balancing_algorithm.
  destruct (Qeq_bool cycle_time 0) eqn:Hz; [done|]. split.
  - by destruct (Line.build_followers tasks predecessors).
  - intros Hrun.
    destruct (decide (Forall (λ t, Forall (λ p, p ∈ tasks)
                                     (preds_of predecessors t)) tasks))
      as [Hall|Hnot].
    + destruct (build_followers_members tasks predecessors) as [F ->]; [|done].
      intros t p Ht Hp. rewrite Forall_forall in Hall.
      specialize (Hall t Ht). rewrite Forall_forall in Hall. by apply Hall.
    + exfalso. apply not_Forall_Exists in Hnot; [|apply _].
      apply Exists_exists in Hnot as (t & Ht & Hnot).
      apply not_Forall_Exists in Hnot; [|apply _].
      apply Exists_exists in Hnot as (p & Hp & Hnotin).
      destruct r as [w m].
      assert (Hrun' : engine line_balancing_py fuel tasks times predecessors
                        cycle_time heuristic = Done (w, m)).
      { simpl. unfold LineBalancing.line_balancing_algorithm. by rewrite Hz. }
      apply engine_Done_inv in Hrun' as (st & Hinv & Hfin & _).
      pose proof (dangling_never_assigned _ _ _ _ _ _ _ Hinv Hp Hnotin) as Hna.
      pose proof (unassigned_task_unfinished _ _ _ _ _ _ Hinv Ht Hna). congruence.
Qed.

(** ** Stations are numbered 1, 2, ..., [actual_stations] *)

Lemma dom_workstations_seq tasks times predecessors cycle_time st :
  inv tasks times predecessors cycle_time st →
  is_Some (workstations st !! current_station st) →
  dom (workstations st) = set_seq 1 (current_station st).
Proof.
  intros Hinv Hlast. apply set_eq. intros k.
  rewrite elem_of_dom, elem_of_set_seq. split.
  - intros [l Hl]. destruct (inv_stations _ _ _ _ _ Hinv k l Hl) as [? _]. lia.
  - intros Hk. destruct (decide (k = current_station st)) as [->|Hne]; [done|].
    apply (inv_filled _ _ _ _ _ Hinv). lia.
Qed.

(** The stations of a returned assignment are exactly the numbers from 1 to
    [actual_stations], and [station_times] has the same keys. *)
Theorem stations_numbered_from_one f fuel tasks times predecessors cycle_time
    heuristic w m :
  engine f fuel tasks times predecessors cycle_time heuristic = Done (w, m) →
  (1 ≤ actual_stations m)%nat
  ∧ ∀ k, (is_Some (w !! k) ↔ (1 ≤ k ≤ actual_stations m)%nat)
         ∧ (is_Some (m_station_times m !! k) ↔ (1 ≤ k ≤ actual_stations m)%nat).
Proof.
  intros Hrun.
  apply engine_Done_full in Hrun
    as (st & Hinv & _ & Hlast & _ & -> & _ & _ & Hn & _ & _ & _ & Hst).
  pose proof (dom_workstations_seq _ _ _ _ _ Hinv Hlast) as Hdom.
  assert (Hsize : size (workstations st) = current_station st).
  { by rewrite <- size_dom, Hdom, size_set_seq. }
  rewrite Hn, Hsize, Hst.
  destruct Hlast as [l Hl].
  destruct (inv_stations _ _ _ _ _ Hinv _ _ Hl) as [Hk _].
  split; [lia|]. intros k. split.
  - rewrite <- elem_of_dom, Hdom, elem_of_set_seq. lia.
  - apply (inv_opened _ _ _ _ _ Hinv).
Qed.

(** ** Inputs on which the engine cannot return *)

Lemma size_list_to_set_dup (l : list string) :
  ¬ NoDup l → (size (list_to_set l : gset string) < length l)%nat.
Proof.
  induction l as [|x l IH]; intros Hdup; simpl.
  - destruct Hdup. constructor.
  - destruct (decide (x ∈ l)) as [Hin|Hnotin].
    + assert (({[x]} ∪ list_to_set l : gset string) = list_to_set l) as ->
        by set_solver.
      pose proof (size_list_to_set_le l). lia.
    + rewrite size_union, size_singleton by set_solver.
      assert (¬ NoDup l) as Hl by (intros Hl; apply Hdup; by constructor).
      specialize (IH Hl). lia.
Qed.

(** With a task identifier listed twice the engine never returns: the number
    of assigned tasks stays below the length of the list. *)
Theorem duplicate_task_never_returns f fuel tasks times predecessors cycle_time
    heuristic :
  ¬ NoDup tasks →
  ∀ r, engine f fuel tasks times predecessors cycle_time heuristic ≠ Done r.
Proof.
  intros Hdup [w m] Hrun.
  apply engine_Done_inv in Hrun as (st & Hinv & Hfin & _).
  unfold unfinished in Hfin. apply bool_decide_eq_false in Hfin.
  assert (Hsub : assigned_tasks st ⊆ list_to_set tasks).
  { intros x Hx. apply elem_of_list_to_set. by apply (inv_tasks _ _ _ _ _ Hinv). }
  apply subseteq_size in Hsub.
  pose proof (size_list_to_set_dup tasks Hdup). lia.
Qed.

Lemma duplicate_task_never_returns_witness :
  ¬ NoDup ["A"; "A"]
  ∧ ∀ r, engine line_py 5 ["A"; "A"] chain_times chain_predecessors 10
                "longest_task_time" ≠ Done r.
Proof.
  assert (H : ¬ NoDup ["A"; "A"]).
  { intros Hnd. apply NoDup_cons in Hnd as [Hnotin _]. apply Hnotin.
    apply list_elem_of_here. }
  split; [exact H|].
  exact (duplicate_task_never_returns line_py 5 ["A"; "A"] chain_times
           chain_predecessors 10 "longest_task_time" H).
Defined.

(** With a task that has no entry in [times] the engine never returns. *)
Theorem missing_duration_never_returns f fuel tasks times predecessors cycle_time
    heuristic t :
  t ∈ tasks → times !! t = None →
  ∀ r, engine f fuel tasks times predecessors cycle_time heuristic ≠ Done r.
Proof.
  intros Ht Hnone [w m] Hrun.
  apply engine_Done_inv in Hrun as (st & Hinv & Hfin & _).
  assert (Hna : t ∉ assigned_tasks st).
  { intros Hin. apply (inv_tasks _ _ _ _ _ Hinv) in Hin as [_ [d Hd]]. congruence. }
  pose proof (unassigned_task_unfinished _ _ _ _ _ _ Hinv Ht Hna). congruence.
Qed.

Lemma missing_duration_never_returns_witness :
  "B" ∈ chain_tasks
  ∧ ({[ "A" := 8%Q ]} : gmap string Q) !! "B" = None
  ∧ ∀ r, engine line_py 5 chain_tasks {[ "A" := 8%Q ]} chain_predecessors 10
                "longest_task_time" ≠ Done r.
Proof.
  assert (H1 : "B" ∈ chain_tasks) by (apply (bool_decide_unpack _); by vm_compute).
  assert (H2 : ({[ "A" := 8%Q ]} : gmap string Q) !! "B" = None) by (by vm_compute).
  split; [exact H1|]. split; [exact H2|].
  exact (missing_duration_never_returns line_py 5 chain_tasks {[ "A" := 8%Q ]}
           chain_predecessors 10 "longest_task_time" "B" H1 H2).
Defined.

(** Everything a placed task depends on, directly or not, is placed before
    it. *)
Lemma inv_precedence_tc tasks times predecessors cycle_time st p t :
  inv tasks times predecessors cycle_time st →
  tc (precedes predecessors) p t →
  ∀ k i, at_position (workstations st) k i t →
    ∃ k' i', at_position (workstations st) k' i' p
             ∧ (k' < k ∨ (k' = k ∧ i' < i))%nat.
Proof.
  intros Hinv Htc. induction Htc as [p t Hpt|p y t Hpy _ IH]; intros k i Hpos.
  - by apply (inv_precedence _ _ _ _ _ Hinv t p).
  - destruct (IH k i Hpos) as (k1 & i1 & Hpos1 & Hlt1).
    destruct (inv_precedence _ _ _ _ _ Hinv y p k1 i1 Hpos1 Hpy)
      as (k2 & i2 & Hpos2 & Hlt2).
    exists k2, i2. split; [done|lia].
Qed.

(** With a task of the list that depends on itself, directly or through other
    tasks, the engine never returns. *)
Theorem cyclic_precedence_never_returns f fuel tasks times predecessors cycle_time
    heuristic t :
  t ∈ tasks → tc (precedes predecessors) t t →
  ∀ r, engine f fuel tasks times predecessors cycle_time heuristic ≠ Done r.
Proof.
  intros Ht Hcyc [w m] Hrun.
  apply engine_Done_inv in Hrun as (st & Hinv & Hfin & _).
  assert (Hna : t ∉ assigned_tasks st).
  { intros Hin. apply (inv_assigned _ _ _ _ _ Hinv) in Hin as (k & i & Hpos).
    destruct (inv_precedence_tc _ _ _ _ _ _ _ Hinv Hcyc k i Hpos)
      as (k' & i' & Hpos' & Hlt).
    destruct (inv_unique _ _ _ _ _ Hinv t k i k' i' Hpos Hpos'). lia. }
  pose proof (unassigned_task_unfinished _ _ _ _ _ _ Hinv Ht Hna). congruence.
Qed.

Lemma cyclic_precedence_never_returns_witness :
  "A" ∈ chain_tasks
  ∧ tc (precedes {[ "A" := ["B"]; "B" := ["A"] ]}) "A" "A"
  ∧ ∀ r, engine line_balancing_py 5 chain_tasks chain_times
                {[ "A" := ["B"]; "B" := ["A"] ]} 10 "longest_task_time" ≠ Done r.
Proof.
  assert (H1 : "A" ∈ chain_tasks) by (apply (bool_decide_unpack _); by vm_compute).
  assert (H2 : tc (precedes {[ "A" := ["B"]; "B" := ["A"] ]}) "A" "A").
  { apply (tc_l _ "A" "B" "A"); [|apply tc_once];
      unfold precedes; apply (bool_decide_unpack _); by vm_compute. }
  split; [exact H1|]. split; [exact H2|].
  exact (cyclic_precedence_never_returns line_balancing_py 5 chain_tasks chain_times
           {[ "A" := ["B"]; "B" := ["A"] ]} 10 "longest_task_time" "A" H1 H2).
Defined.

(** ** A well-formed input raises nothing *)

Section NoException.

Context (tasks : list string) (times : gmap string Q)
        (predecessors : gmap string (list string)) (cycle_time : Q)
        (heuristic : string) (positional_weights : option (gmap string Q)).

Hypothesis Hvalid : valid_input tasks times predecessors cycle_time.
Hypothesis Hkey : ∀ t, t ∈ tasks →
  ∃ k, sort_key times heuristic positional_weights t = Ok k.

Lemma unfinished_exists_eligible st :
  unfinished tasks st = true →
  ∃ t, t ∈ tasks ∧ eligible predecessors (assigned_tasks st) t = true.
Proof.
  intros Hunf. unfold unfinished in Hunf. apply bool_decide_eq_true in Hunf.
  assert (Hex : ∃ t0, t0 ∈ tasks ∧ t0 ∉ assigned_tasks st).
  { destruct (decide (Forall (λ t, t ∈ assigned_tasks st) tasks)) as [Hall|Hnot].
    - exfalso. rewrite Forall_forall in Hall.
      assert (Hsub : list_to_set tasks ⊆ assigned_tasks st).
      { intros t Ht. apply Hall. by apply elem_of_list_to_set in Ht. }
      apply subseteq_size in Hsub.
      rewrite size_list_to_set in Hsub by apply (valid_unique _ _ _ _ Hvalid). lia.
    - apply not_Forall_Exists in Hnot; [|apply _].
      apply Exists_exists in Hnot as (t & Ht & Hn). by exists t. }
  destruct Hex as (t0 & Ht0 & Hn0).
  destruct (valid_acyclic _ _ _ _ Hvalid) as [rank Hrank].
  remember (rank t0) as n eqn:Hn. revert t0 Ht0 Hn0 Hn.
  induction n as [n IH] using lt_wf_ind. intros t Ht Hna ->.
  destruct (decide (Forall (λ p, p ∈ assigned_tasks st) (preds_of predecessors t)))
    as [Hall|Hnot].
  - exists t. split; [done|]. apply eligible_spec. split; [done|].
    by apply Forall_forall.
  - apply not_Forall_Exists in Hnot; [|apply _].
    apply Exists_exists in Hnot as (p & Hp & Hpn).
    apply (IH (rank p) (Hrank t p Hp) p); [|done..].
    unfold preds_of in Hp.
    destruct (predecessors !! t) as [ps|] eqn:Hps; simpl in Hp;
      [|by apply elem_of_nil in Hp].
    by apply (valid_members _ _ _ _ Hvalid t ps Hps).
Qed.

Lemma body_never_raises st :
  is_Some (station_times st !! current_station st) →
  unfinished tasks st = true →
  ∃ st', body tasks times predecessors cycle_time heuristic positional_weights st
         = Ok st'
         ∧ is_Some (station_times st' !! current_station st').
Proof.
  intros Hcur Hunf. unfold body.
  destruct (unfinished_exists_eligible st Hunf) as (t0 & Ht0 & He0).
  destruct (candidates tasks predecessors (assigned_tasks st)) as [|c cand] eqn:Hcand.
  { assert (Hin : t0 ∈ candidates tasks predecessors (assigned_tasks st))
      by by apply elem_of_candidates.
    rewrite Hcand in Hin. by apply elem_of_nil in Hin. }
  assert (Hsub : ∀ t, t ∈ c :: cand → t ∈ tasks).
  { intros t Ht. rewrite <- Hcand in Ht. by apply elem_of_candidates in Ht as [? _]. }
  unfold ranked.
  destruct (with_keys_ok (sort_key times heuristic positional_weights) (c :: cand))
    as [ks Hks]; [by intros t Ht; apply Hkey, Hsub|].
  rewrite Hks. simpl bind.
  destruct (try_place_ok times cycle_time st (map fst (sort_desc ks))) as [r Hr].
  - done.
  - intros t Ht.
    assert (Ht' : t ∈ c :: cand).
    { rewrite <- (with_keys_fst _ _ _ Hks), <- (sort_desc_perm ks). done. }
    destruct (valid_durations _ _ _ _ Hvalid t (Hsub t Ht')) as (d & Hd & _). eauto.
  - rewrite Hr. simpl. destruct r as [st'|].
    + exists st'. split; [done|].
      apply try_place_Some in Hr as (t & cur & d & _ & _ & _ & _ & ->).
      simpl. rewrite lookup_insert_eq. eauto.
    + eexists. split; [done|]. simpl. rewrite lookup_insert_eq. eauto.
Qed.

Lemma loop_never_raises fuel : ∀ st,
  is_Some (station_times st !! current_station st) →
  ∀ e st', while_loop tasks times predecessors cycle_time heuristic
                      positional_weights fuel st ≠ Raised e st'.
Proof.
  induction fuel as [|fuel IH]; intros st Hcur e st'; simpl;
    destruct (unfinished tasks st) eqn:Hunf; try done.
  destruct (body_never_raises st Hcur Hunf) as (st1 & -> & Hcur1).
  by apply IH.
Qed.

End NoException.

(** On a valid input, with one of the two heuristics and positional weights
    that were computed without an exception, the allocation loop raises
    nothing, whatever the bound on its iterations: neither its [ValueError]
    (there is always an eligible task) nor a [KeyError]. *)
Theorem allocation_loop_never_raises fuel tasks times predecessors cycle_time
    heuristic pw :
  valid_input tasks times predecessors cycle_time →
  heuristic = "longest_task_time" ∨ heuristic = "ranked_positional_weight" →
  weights_for tasks times predecessors heuristic = Ok pw →
  ∀ e st, while_loop tasks times predecessors cycle_time heuristic pw fuel
                     initial_state ≠ Raised e st.
Proof.
  intros Hvalid Hh Hw.
  pose proof (weights_for_keys _ _ _ _ _ _ Hvalid Hh Hw) as Hkey.
  apply (loop_never_raises tasks times predecessors cycle_time heuristic pw
           Hvalid Hkey fuel initial_state).
  simpl. rewrite lookup_singleton_eq. eauto.
Qed.

Lemma chain_times_fit t d : chain_times !! t = Some d → (d <= 10)%Q.
Proof.
  unfold chain_times. intros Hd.
  apply lookup_insert_Some in Hd as [[_ Hd]|[_ Hd]].
  - subst d. by vm_compute.
  - apply lookup_singleton_Some in Hd as [_ Hd]. subst d. by vm_compute.
Qed.

Lemma allocation_loop_never_raises_witness :
  valid_input chain_tasks chain_times chain_predecessors 10
  ∧ ("longest_task_time" = "longest_task_time"
     ∨ "longest_task_time" = "ranked_positional_weight")
  ∧ weights_for chain_tasks chain_times chain_predecessors "longest_task_time"
    = Ok None
  ∧ ∀ e st, while_loop chain_tasks chain_times chain_predecessors 10
                       "longest_task_time" None 3 initial_state ≠ Raised e st.
Proof.
  assert (H3 : "longest_task_time" = "longest_task_time"
               ∨ "longest_task_time" = "ranked_positional_weight") by (by left).
  assert (H4 : weights_for chain_tasks chain_times chain_predecessors
                 "longest_task_time" = Ok None) by reflexivity.
  split; [exact chain_valid|]. split; [exact H3|]. split; [exact H4|].
  exact (allocation_loop_never_raises 3 chain_tasks chain_times
           chain_predecessors 10 "longest_task_time" None chain_valid H3 H4).
Defined.

Lemma allocation_loop_returns_witness :
  valid_input chain_tasks chain_times chain_predecessors 10
  ∧ (∀ t d, chain_times !! t = Some d → (d <= 10)%Q)
  ∧ ("longest_task_time" = "longest_task_time"
     ∨ "longest_task_time" = "ranked_positional_weight")
  ∧ weights_for chain_tasks chain_times chain_predecessors "longest_task_time"
    = Ok None
  ∧ (2 * length chain_tasks - 1 ≤ 3)%nat
  ∧ ∃ st, while_loop chain_tasks chain_times chain_predecessors 10
                     "longest_task_time" None 3 initial_state = Done st
          ∧ ∀ t, t ∈ chain_tasks → t ∈ assigned_tasks st.
Proof.
  assert (H4 : "longest_task_time" = "longest_task_time"
               ∨ "longest_task_time" = "ranked_positional_weight") by (by left).
  assert (H5 : weights_for chain_tasks chain_times chain_predecessors
                 "longest_task_time" = Ok None) by reflexivity.
  assert (H6 : (2 * length chain_tasks - 1 ≤ 3)%nat) by (simpl; lia).
  split; [exact chain_valid|]. split; [exact chain_times_fit|].
  split; [exact H4|]. split; [exact H5|]. split; [exact H6|].
  exact (allocation_loop_returns 3 chain_tasks chain_times chain_predecessors 10
           "longest_task_time" None chain_valid chain_times_fit H4 H5 H6).
Defined.

Lemma engine_terminates_witness :
  valid_input chain_tasks chain_times chain_predecessors 10
  ∧ (∀ t d, chain_times !! t = Some d → (d <= 10)%Q)
  ∧ ("ranked_positional_weight" = "longest_task_time"
     ∨ "ranked_positional_weight" = "ranked_positional_weight")
  ∧ weights_for chain_tasks chain_times chain_predecessors
                "ranked_positional_weight" = Ok (Some chain_weights)
  ∧ (2 * length chain_tasks - 1 ≤ 3)%nat
  ∧ engine line_balancing_py 3 chain_tasks chain_times chain_predecessors 10
           "ranked_positional_weight" ≠ OutOfFuel.
Proof.
  assert (H4 : "ranked_positional_weight" = "longest_task_time"
               ∨ "ranked_positional_weight" = "ranked_positional_weight")
    by (by right).
  assert (H5 : weights_for chain_tasks chain_times chain_predecessors
                 "ranked_positional_weight" = Ok (Some chain_weights))
    by (vm_compute; reflexivity).
  assert (H6 : (2 * length chain_tasks - 1 ≤ 3)%nat) by (simpl; lia).
  split; [exact chain_valid|]. split; [exact chain_times_fit|].
  split; [exact H4|]. split; [exact H5|]. split; [exact H6|].
  exact (engine_terminates line_balancing_py 3 chain_tasks chain_times
           chain_predecessors 10 "ranked_positional_weight" (Some chain_weights)
           chain_valid chain_times_fit H4 H5 H6).
Defined.

Lemma oversized_never_returns_witness :
  valid_input oversized_tasks oversized_times oversized_predecessors 10
  ∧ "A" ∈ oversized_tasks
  ∧ oversized_times !! "A" = Some 15%Q
  ∧ (10 < 15)%Q
  ∧ ∀ r, engine line_py 7 oversized_tasks oversized_times oversized_predecessors
                10 "ranked_positional_weight" ≠ Done r.
Proof.
  assert (H2 : "A" ∈ oversized_tasks) by apply list_elem_of_here.
  assert (H3 : oversized_times !! "A" = Some 15%Q) by (by vm_compute).
  assert (H4 : (10 < 15)%Q) by reflexivity.
  split; [exact oversized_valid|]. split; [exact H2|]. split; [exact H3|].
  split; [exact H4|].
  exact (oversized_never_returns line_py 7 oversized_tasks oversized_times
           oversized_predecessors 10 "ranked_positional_weight" "A" 15
           oversized_valid H2 H3 H4).
Defined.


(** ** The time booked on the stations is the total work *)

Lemma sum_durations_app times l1 l2 :
  (sum_durations times (l1 ++ l2)
   == sum_durations times l1 + sum_durations times l2)%Q.
Proof.
  induction l1 as [|x l1 IH]; simpl; [lra|]. rewrite IH. lra.
Qed.

Lemma sum_durations_perm times l k :
  l ≡ₚ k → (sum_durations times l == sum_durations times k)%Q.
Proof.
  induction 1 as [|x l k _ IH|x y l|l k j _ IH1 _ IH2]; simpl.
  - reflexivity.
  - by rewrite IH.
  - lra.
  - by rewrite IH1.
Qed.

Lemma sum_durations_bind times (f : nat → list string) ks :
  (sum_durations times (ks ≫= f)
   == sum_list (map (λ k, sum_durations times (f k)) ks))%Q.
Proof.
  induction ks as [|k ks IH]; csimpl; [reflexivity|].
  rewrite sum_durations_app, IH. reflexivity.
Qed.

Lemma sum_list_app l1 l2 : (sum_list (l1 ++ l2) == sum_list l1 + sum_list l2)%Q.
Proof.
  induction l1 as [|x l1 IH]; simpl; [lra|]. rewrite IH. lra.
Qed.

Lemma sum_list_map_ext (f g : nat → Q) ks :
  (∀ k, k ∈ ks → (f k == g k)%Q) → (sum_list (map f ks) == sum_list (map g ks))%Q.
Proof.
  induction ks as [|k ks IH]; intros Heq; simpl; [reflexivity|].
  rewrite (Heq k) by apply list_elem_of_here.
  rewrite IH; [reflexivity|]. intros j Hj. apply Heq. by apply list_elem_of_further.
Qed.

Lemma inject_Z_of_nat_S n :
  (inject_Z (Z.of_nat (S n)) == inject_Z (Z.of_nat n) + 1)%Q.
Proof. rewrite Nat2Z.inj_succ. unfold Z.succ. by rewrite inject_Z_plus. Qed.

Lemma sum_list_cons x l : sum_list (x :: l) = (x + sum_list l)%Q.
Proof. reflexivity. Qed.

Lemma sum_list_map_minus (c : Q) (h : nat → Q) ks :
  (sum_list (map (λ k, c - h k) ks)
   == inject_Z (Z.of_nat (length ks)) * c - sum_list (map h ks))%Q.
Proof.
  induction ks as [|k ks IH].
  - cbn [map sum_list foldr length]. change (inject_Z (Z.of_nat 0)) with 0%Q. ring.
  - rewrite !map_cons, !sum_list_cons. cbn [length].
    rewrite IH, inject_Z_of_nat_S.
    generalize (inject_Z (Z.of_nat (length ks))). intros x. ring.
Qed.

Lemma sum_list_map_le (c : Q) (h : nat → Q) ks :
  (∀ k, k ∈ ks → (h k <= c)%Q) →
  (sum_list (map h ks) <= inject_Z (Z.of_nat (length ks)) * c)%Q.
Proof.
  induction ks as [|k ks IH]; intros Hle.
  - cbn [map sum_list foldr length]. change (inject_Z (Z.of_nat 0)) with 0%Q. lra.
  - rewrite map_cons, sum_list_cons. cbn [length].
    rewrite inject_Z_of_nat_S.
    pose proof (Hle k (list_elem_of_here _ _)) as Hk.
    assert (IH' : (sum_list (map h ks) <= inject_Z (Z.of_nat (length ks)) * c)%Q).
    { apply IH. intros j Hj. apply Hle. by apply list_elem_of_further. }
    revert IH'. generalize (inject_Z (Z.of_nat (length ks))).
    generalize (sum_list (map h ks)). intros y x Hxy.
    assert (E : ((x + 1) * c == x * c + c)%Q) by ring. rewrite E. lra.
Qed.

(** Folding over a dictionary whose keys are 1, ..., n. *)
Lemma map_fold_seq (g : Q → Q) n : ∀ m : gmap nat Q,
  (∀ k, is_Some (m !! k) ↔ (1 ≤ k ≤ n)%nat) →
  (map_fold (λ _ v acc, acc + g v)%Q 0%Q m
   == sum_list (map (λ k, g (default 0%Q (m !! k))) (seq 1 n)))%Q.
Proof.
  induction n as [|n IH]; intros m Hdom.
  - assert (m = ∅) as ->.
    { apply map_empty. intros k. apply eq_None_not_Some. rewrite Hdom. lia. }
    reflexivity.
  - destruct (proj2 (Hdom (S n)) ltac:(lia)) as [v Hv].
    rewrite <- (insert_id m (S n) v Hv) at 1. rewrite <- insert_delete_eq.
    rewrite (map_fold_insert Qeq (λ _ v acc, acc + g v)%Q);
      [| |intros; lra|apply lookup_delete_eq].
    2:{ intros _ z x y Hxy. by rewrite Hxy. }
    rewrite (IH (delete (S n) m)).
    + rewrite seq_S, map_app, sum_list_app. simpl. rewrite Hv. simpl.
      rewrite (sum_list_map_ext
                 (λ k, g (default 0%Q (delete (S n) m !! k)))
                 (λ k, g (default 0%Q (m !! k)))); [lra|].
      intros k Hk. apply elem_of_seq in Hk.
      rewrite lookup_delete_ne by lia. reflexivity.
    + intros k. destruct (decide (k = S n)) as [->|Hne].
      * rewrite lookup_delete_eq. split; [by intros [??]|lia].
      * rewrite lookup_delete_ne by done. rewrite Hdom. lia.
Qed.

Lemma line_sequence_perm tasks times predecessors cycle_time st :
  NoDup tasks →
  inv tasks times predecessors cycle_time st →
  unfinished tasks st = false →
  line_sequence (workstations st) (current_station st) ≡ₚ tasks.
Proof.
  intros Hnd Hinv Hfin.
  pose proof (finished_all_assigned _ _ _ _ _ Hnd Hinv Hfin) as Hall.
  apply NoDup_Permutation; [|done|].
  - unfold line_sequence. apply NoDup_bind; [| |apply NoDup_seq].
    + intros k1 k2 t _ _ H1 H2.
      destruct (workstations st !! k1) as [l1|] eqn:Hl1; simpl in H1;
        [|by apply elem_of_nil in H1].
      destruct (workstations st !! k2) as [l2|] eqn:Hl2; simpl in H2;
        [|by apply elem_of_nil in H2].
      apply list_elem_of_lookup in H1 as [i1 Hi1].
      apply list_elem_of_lookup in H2 as [i2 Hi2].
      eapply (inv_unique _ _ _ _ _ Hinv t k1 i1 k2 i2); by eexists.
    + intros k _. destruct (workstations st !! k) as [l|] eqn:Hl; simpl;
        [|constructor].
      apply NoDup_alt. intros i j x Hi Hj.
      eapply (inv_unique _ _ _ _ _ Hinv x k i k j); by eexists.
  - intros t. unfold line_sequence. rewrite list_elem_of_bind. split.
    + intros (k & Hin & _).
      destruct (workstations st !! k) as [l|] eqn:Hl; simpl in Hin;
        [|by apply elem_of_nil in Hin].
      apply list_elem_of_lookup in Hin as [i Hi].
      apply (inv_tasks _ _ _ _ _ Hinv), (inv_assigned _ _ _ _ _ Hinv).
      exists k, i. by exists l.
    + intros Ht. apply Hall, (inv_assigned _ _ _ _ _ Hinv) in Ht
        as (k & i & l & Hl & Hi).
      exists k. split.
      * rewrite Hl. simpl. apply list_elem_of_lookup. eauto.
      * apply elem_of_seq. destruct (inv_stations _ _ _ _ _ Hinv k l Hl). lia.
Qed.

Lemma booked_time_is_total_work tasks times predecessors cycle_time st :
  valid_input tasks times predecessors cycle_time →
  inv tasks times predecessors cycle_time st →
  unfinished tasks st = false →
  is_Some (workstations st !! current_station st) →
  (sum_list (map (λ k, default 0%Q (station_times st !! k))
                 (seq 1 (current_station st)))
   == sum_values times)%Q.
Proof.
  intros Hvalid Hinv Hfin Hlast.
  rewrite (sum_values_sum_durations tasks (valid_unique _ _ _ _ Hvalid)).
  2:{ intros t. split; [apply (valid_times_dom _ _ _ _ Hvalid)|].
      intros Ht. destruct (valid_durations _ _ _ _ Hvalid t Ht) as (d & Hd & _).
      eauto. }
  rewrite <- (sum_durations_perm times _ _
                (line_sequence_perm _ _ _ _ _ (valid_unique _ _ _ _ Hvalid) Hinv Hfin)).
  unfold line_sequence. rewrite sum_durations_bind.
  apply sum_list_map_ext. intros k Hk. apply elem_of_seq in Hk.
  assert (Hsome : is_Some (workstations st !! k)).
  { destruct (decide (k = current_station st)) as [->|Hne]; [done|].
    apply (inv_filled _ _ _ _ _ Hinv). lia. }
  destruct Hsome as [l Hl].
  destruct (inv_times _ _ _ _ _ Hinv k l Hl) as (q & Hq & Heq & _).
  by rewrite Hq, Hl.
Qed.

Lemma sum_durations_nonneg_on times l :
  (∀ t, t ∈ l → ∃ d, times !! t = Some d ∧ (0 < d)%Q) →
  (0 <= sum_durations times l)%Q.
Proof.
  induction l as [|x l IH]; intros Hpos; simpl; [lra|].
  destruct (Hpos x (list_elem_of_here _ _)) as (d & Hd & Hd0).
  unfold duration. rewrite Hd. simpl.
  assert (0 <= sum_durations times l)%Q; [|lra].
  apply IH. intros t Ht. apply Hpos. by apply list_elem_of_further.
Qed.

Lemma sum_durations_pos times l :
  l ≠ [] → (∀ t, t ∈ l → ∃ d, times !! t = Some d ∧ (0 < d)%Q) →
  (0 < sum_durations times l)%Q.
Proof.
  intros Hne Hpos. destruct l as [|x l]; [done|]. simpl.
  destruct (Hpos x (list_elem_of_here _ _)) as (d & Hd & Hd0).
  unfold duration. rewrite Hd. simpl.
  assert (0 <= sum_durations times l)%Q; [|lra].
  apply sum_durations_nonneg_on. intros t Ht. apply Hpos.
  by apply list_elem_of_further.
Qed.

(** The figures behind the metrics of a returned result: the total work is
    positive and at most the capacity of the stations used, and the idle time
    is what is left of that capacity. *)
Lemma returned_metrics_facts f fuel tasks times predecessors cycle_time heuristic
    w m :
  valid_input tasks times predecessors cycle_time →
  engine f fuel tasks times predecessors cycle_time heuristic = Done (w, m) →
  (1 ≤ actual_stations m)%nat
  ∧ (0 < total_work_content m)%Q
  ∧ (total_work_content m
     <= inject_Z (Z.of_nat (actual_stations m)) * cycle_time)%Q
  ∧ (idle_time m
     == inject_Z (Z.of_nat (actual_stations m)) * cycle_time
        - total_work_content m)%Q
  ∧ efficiency m
    = (total_work_content m
       / (inject_Z (Z.of_nat (actual_stations m)) * cycle_time) * 100)%Q
  ∧ balance_delay m = (100 - efficiency m)%Q
  ∧ min_stations m = min_stations_of (total_work_content m) cycle_time.
Proof.
  intros Hvalid Hrun.
  pose proof (engine_Done_nonempty _ _ _ _ _ _ _ _ _ Hrun) as Hne.
  pose proof (engine_Done_inv _ _ _ _ _ _ _ _ _ Hrun)
    as (st' & _ & _ & _ & _ & Hmin & _).
  apply engine_Done_full in Hrun
    as (st & Hinv & Hfin & Hlast & Hcyc & -> & HT & _ & Hn & Hidle & Heff & Hbal & _).
  pose proof (dom_workstations_seq _ _ _ _ _ Hinv Hlast) as Hdom.
  assert (Hsize : size (workstations st) = current_station st).
  { by rewrite <- size_dom, Hdom, size_set_seq. }
  pose proof (booked_time_is_total_work _ _ _ _ _ Hvalid Hinv Hfin Hlast) as Hbooked.
  rewrite Hn, HT, Hsize. rewrite Hsize in Heff.
  assert (Hpos : (0 < sum_values times)%Q).
  { rewrite (sum_values_sum_durations tasks (valid_unique _ _ _ _ Hvalid)).
    - apply sum_durations_pos; [done|]. apply (valid_durations _ _ _ _ Hvalid).
    - intros t. split; [apply (valid_times_dom _ _ _ _ Hvalid)|].
      intros Ht. destruct (valid_durations _ _ _ _ Hvalid t Ht) as (d & Hd & _).
      eauto. }
  assert (Hle : (sum_values times
                 <= inject_Z (Z.of_nat (current_station st)) * cycle_time)%Q).
  { rewrite <- Hbooked.
    pose proof (sum_list_map_le cycle_time
                  (λ k, default 0%Q (station_times st !! k))
                  (seq 1 (current_station st))) as Hsum.
    rewrite length_seq in Hsum. apply Hsum.
    intros k Hk. apply elem_of_seq in Hk.
    assert (Hsome : is_Some (workstations st !! k)).
    { destruct (decide (k = current_station st)) as [->|Hne']; [done|].
      apply (inv_filled _ _ _ _ _ Hinv). lia. }
    destruct Hsome as [l Hl].
    destruct (inv_times _ _ _ _ _ Hinv k l Hl) as (q & Hq & _ & Hqle).
    by rewrite Hq. }
  split_and!; try done.
  - destruct Hlast as [l Hl].
    destruct (inv_stations _ _ _ _ _ Hinv _ _ Hl). lia.
  - rewrite Hidle.
    rewrite (map_fold_seq (λ v, cycle_time - v)%Q (current_station st));
      [|apply (inv_opened _ _ _ _ _ Hinv)].
    rewrite (sum_list_map_minus cycle_time
               (λ k, default 0%Q (station_times st !! k))).
    rewrite length_seq, Hbooked. reflexivity.
Qed.

(** The idle time of a returned result is never negative: no station is
    booked beyond the cycle time. *)
Theorem idle_time_is_never_negative f fuel tasks times predecessors cycle_time
    heuristic w m :
  valid_input tasks times predecessors cycle_time →
  engine f fuel tasks times predecessors cycle_time heuristic = Done (w, m) →
  (0 <= idle_time m)%Q.
Proof.
  intros Hvalid Hrun.
  destruct (returned_metrics_facts _ _ _ _ _ _ _ _ _ Hvalid Hrun)
    as (_ & _ & Hle & Hidle & _).
  rewrite Hidle. lra.
Qed.

Lemma idle_time_is_never_negative_witness :
  valid_input chain_tasks chain_times chain_predecessors 10
  ∧ engine line_py 3 chain_tasks chain_times chain_predecessors 10
           "longest_task_time" = Done (chain_workstations, chain_metrics)
  ∧ (0 <= idle_time chain_metrics)%Q.
Proof.
  assert (H : engine line_py 3 chain_tasks chain_times chain_predecessors 10
                "longest_task_time" = Done (chain_workstations, chain_metrics))
    by (vm_compute; reflexivity).
  split; [exact chain_valid|]. split; [exact H|].
  exact (idle_time_is_never_negative line_py 3 chain_tasks chain_times
           chain_predecessors 10 "longest_task_time" chain_workstations
           chain_metrics chain_valid H).
Defined.

(** The efficiency of a returned result is never negative, and the balance
    delay, [100 - efficiency], is never above 100. *)
Theorem efficiency_is_never_negative f fuel tasks times predecessors cycle_time
    heuristic w m :
  valid_input tasks times predecessors cycle_time →
  engine f fuel tasks times predecessors cycle_time heuristic = Done (w, m) →
  (0 <= efficiency m)%Q ∧ (balance_delay m <= 100)%Q.
Proof.
  intros Hvalid Hrun.
  destruct (returned_metrics_facts _ _ _ _ _ _ _ _ _ Hvalid Hrun)
    as (_ & Hpos & Hle & _ & Heff & Hbal & _).
  rewrite Hbal, Heff.
  set (T := total_work_content m) in *.
  set (D := (inject_Z (Z.of_nat (actual_stations m)) * cycle_time)%Q) in *.
  assert (HD : (0 < D)%Q) by lra.
  assert (H1 : (0 < T / D)%Q) by (apply Qlt_shift_div_l; [done|lra]).
  revert H1. generalize (T / D)%Q. intros x H1. split; lra.
Qed.

Lemma efficiency_is_never_negative_witness :
  valid_input chain_tasks chain_times chain_predecessors 10
  ∧ engine line_py 3 chain_tasks chain_times chain_predecessors 10
           "longest_task_time" = Done (chain_workstations, chain_metrics)
  ∧ (0 <= efficiency chain_metrics)%Q ∧ (balance_delay chain_metrics <= 100)%Q.
Proof.
  assert (H : engine line_py 3 chain_tasks chain_times chain_predecessors 10
                "longest_task_time" = Done (chain_workstations, chain_metrics))
    by (vm_compute; reflexivity).
  split; [exact chain_valid|]. split; [exact H|].
  exact (efficiency_is_never_negative line_py 3 chain_tasks chain_times
           chain_predecessors 10 "longest_task_time" chain_workstations
           chain_metrics chain_valid H).
Defined.

(** ** The ranking is a stable descending sort *)

Lemma Qle_bool_false_lt x y : Qle_bool x y = false → (y < x)%Q.
Proof.
  intros H. apply Qnot_le_lt. intros Hle. apply Qle_bool_iff in Hle. congruence.
Qed.

Lemma insert_desc_sorted x l :
  StronglySorted key_ge l → StronglySorted key_ge (insert_desc x l).
Proof.
  induction l as [|y l IH]; intros Hs; simpl.
  - repeat constructor.
  - apply StronglySorted_cons in Hs as [Hy Hl].
    destruct (Qle_bool (snd y) (snd x)) eqn:Hle.
    + apply Qle_bool_iff in Hle. constructor; [by constructor|].
      constructor; [done|]. rewrite Forall_forall in Hy |- *.
      intros z Hz. specialize (Hy z Hz). unfold key_ge in *. lra.
    + apply Qle_bool_false_lt in Hle. constructor; [by apply IH|].
      rewrite Forall_forall in Hy |- *. intros z Hz.
      rewrite insert_desc_perm in Hz. apply elem_of_cons in Hz as [->|Hz].
      * unfold key_ge. lra.
      * by apply Hy.
Qed.

Lemma sort_desc_sorted l : StronglySorted key_ge (sort_desc l).
Proof.
  induction l as [|x l IH]; simpl; [constructor|]. by apply insert_desc_sorted.
Qed.

Lemma insert_desc_filter v x l :
  filter (λ p : string * Q, Qeq_bool (snd p) v = true) (insert_desc x l)
  = filter (λ p : string * Q, Qeq_bool (snd p) v = true) (x :: l).
Proof.
  induction l as [|y l IH]; simpl; [done|].
  destruct (Qle_bool (snd y) (snd x)) eqn:Hle; [done|].
  apply Qle_bool_false_lt in Hle.
  rewrite (filter_cons _ y), IH, !filter_cons.
  destruct (decide (Qeq_bool (snd y) v = true)) as [Hy|Hy];
    destruct (decide (Qeq_bool (snd x) v = true)) as [Hx|Hx]; try done.
  apply Qeq_bool_eq in Hy, Hx. lra.
Qed.

Lemma sort_desc_filter v l :
  filter (λ p : string * Q, Qeq_bool (snd p) v = true) (sort_desc l)
  = filter (λ p : string * Q, Qeq_bool (snd p) v = true) l.
Proof.
  induction l as [|x l IH]; simpl; [done|].
  rewrite insert_desc_filter, !filter_cons, IH. done.
Qed.

Lemma with_keys_elem (key : string → result Q) cand ks :
  with_keys key cand = Ok ks → ∀ p, p ∈ ks → key (fst p) = Ok (snd p).
Proof.
  revert ks. induction cand as [|t cand IH]; simpl; intros ks Hk p Hp.
  - inversion Hk; subst. by apply elem_of_nil in Hp.
  - destruct (key t) as [k| |] eqn:Hkt; simpl in Hk; try discriminate.
    destruct (with_keys key cand) as [ks'| |]; simpl in Hk; try discriminate.
    inversion Hk; subst. apply elem_of_cons in Hp as [->|Hp]; [done|].
    by apply (IH ks').
Qed.

Lemma filter_has_key_fst (key : string → result Q) v (ks : list (string * Q)) :
  (∀ p, p ∈ ks → key (fst p) = Ok (snd p)) →
  filter (λ t, has_key key v t = true) (map fst ks)
  = map fst (filter (λ p : string * Q, Qeq_bool (snd p) v = true) ks).
Proof.
  induction ks as [|p ks IH]; intros Hkey; simpl; [done|].
  assert (E : has_key key v (fst p) = Qeq_bool (snd p) v).
  { unfold has_key. by rewrite (Hkey p (list_elem_of_here _ _)). }
  rewrite !filter_cons.
  rewrite IH by (intros q Hq; apply Hkey; by apply list_elem_of_further).
  destruct (decide (has_key key v (fst p) = true)) as [H1|H1];
    destruct (decide (Qeq_bool (snd p) v = true)) as [H2|H2];
    try done; congruence.
Qed.

(** [cand.sort(key=..., reverse=True)]: the ranked list holds the candidates,
    keys never increase along it, and candidates with the same key keep the
    order they had. *)
Theorem ranked_is_stable_descending times heuristic pw cand sorted :
  ranked times heuristic pw cand = Ok sorted →
  sorted ≡ₚ cand
  ∧ (∀ i j t t' k k',
       sorted !! i = Some t → sorted !! j = Some t' → (i < j)%nat →
       sort_key times heuristic pw t = Ok k →
       sort_key times heuristic pw t' = Ok k' → (k' <= k)%Q)
  ∧ (∀ v, filter (λ t, has_key (sort_key times heuristic pw) v t = true) sorted
          = filter (λ t, has_key (sort_key times heuristic pw) v t = true) cand).
Proof.
  intros Hr. split; [by eapply ranked_perm|].
  unfold ranked in Hr.
  destruct (with_keys _ cand) as [ks| |] eqn:Hks; simpl in Hr; try discriminate.
  inversion Hr; subst sorted; clear Hr.
  pose proof (with_keys_elem _ _ _ Hks) as Hkey.
  assert (Hkey' : ∀ p, p ∈ sort_desc ks →
            sort_key times heuristic pw (fst p) = Ok (snd p)).
  { intros p Hp. apply Hkey. by rewrite sort_desc_perm in Hp. }
  split.
  - intros i j t t' k k' Hi Hj Hij Hk Hk'.
    rewrite list_lookup_fmap in Hi, Hj.
    destruct (sort_desc ks !! i) as [p|] eqn:Hpi; simpl in Hi; [|done].
    destruct (sort_desc ks !! j) as [p'|] eqn:Hpj; simpl in Hj; [|done].
    inversion Hi; subst t. inversion Hj; subst t'.
    rewrite (Hkey' p) in Hk by (apply list_elem_of_lookup; eauto).
    rewrite (Hkey' p') in Hk' by (apply list_elem_of_lookup; eauto).
    inversion Hk; subst k. inversion Hk'; subst k'.
    pose proof (sort_desc_sorted ks) as Hs.
    rewrite <- (take_drop_middle _ _ _ Hpi) in Hs, Hpj.
    apply StronglySorted_app_1_r, StronglySorted_cons in Hs as [Hall _].
    rewrite Forall_forall in Hall. apply (Hall p').
    rewrite lookup_app_r in Hpj by (rewrite length_take; lia).
    rewrite length_take in Hpj.
    replace (j - i `min` length (sort_desc ks))%nat with (S (j - S i)) in Hpj.
    + simpl in Hpj. apply list_elem_of_lookup. eauto.
    + apply lookup_lt_Some in Hpi. lia.
  - intros v. rewrite (filter_has_key_fst _ _ _ Hkey'), sort_desc_filter.
    rewrite <- (filter_has_key_fst _ _ _ Hkey). by rewrite (with_keys_fst _ _ _ Hks).
Qed.

Lemma ranked_is_stable_descending_witness :
  ranked chain_times "longest_task_time" None ["B"; "A"] = Ok ["A"; "B"]
  ∧ ["A"; "B"] ≡ₚ ["B"; "A"]
  ∧ (∀ i j t t' k k',
       ["A"; "B"] !! i = Some t → ["A"; "B"] !! j = Some t' → (i < j)%nat →
       sort_key chain_times "longest_task_time" None t = Ok k →
       sort_key chain_times "longest_task_time" None t' = Ok k' → (k' <= k)%Q)
  ∧ (∀ v, filter (λ t, has_key (sort_key chain_times "longest_task_time" None) v t
                       = true) ["A"; "B"]
          = filter (λ t, has_key (sort_key chain_times "longest_task_time" None) v t
                         = true) ["B"; "A"]).
Proof.
  assert (H : ranked chain_times "longest_task_time" None ["B"; "A"]
              = Ok ["A"; "B"]) by (vm_compute; reflexivity).
  split; [exact H|].
  exact (ranked_is_stable_descending chain_times "longest_task_time" None
           ["B"; "A"] ["A"; "B"] H).
Defined.

(** ** The placement rule *)

Lemma try_place_first_fit times cycle_time st l st' :
  try_place times cycle_time st l = Ok (Some st') →
  ∃ l1 t l2 cur d,
    l = l1 ++ t :: l2
    ∧ station_times st !! current_station st = Some cur
    ∧ times !! t = Some d
    ∧ Qle_bool (cur + d) cycle_time = true
    ∧ st' = place st t cur d
    ∧ ∀ x, x ∈ l1 → ∃ dx, times !! x = Some dx
                          ∧ Qle_bool (cur + dx) cycle_time = false.
Proof.
  induction l as [|t l IH]; simpl; [discriminate|].
  unfold getitem.
  destruct (station_times st !! current_station st) as [cur|] eqn:Hc;
    simpl; [|discriminate].
  destruct (times !! t) as [d|] eqn:Hd; simpl; [|discriminate].
  destruct (Qle_bool (cur + d) cycle_time) eqn:Hfit.
  - intros H; inversion H; subst.
    exists [], t, l, cur, d. split_and!; try done. by intros x ?%elem_of_nil.
  - intros H.
    destruct (IH H) as (l1 & t' & l2 & cur' & d' & -> & Hc' & Hd' & Hfit' & -> & Hno).
    assert (cur' = cur) as -> by congruence.
    exists (t :: l1), t', l2, cur, d'. split_and!; try done.
    intros x [->|Hx]%elem_of_cons; [eauto|by apply Hno].
Qed.

(** In an iteration that places a task, every eligible task with a strictly
    larger key (duration, or positional weight) was tried before it and did
    not fit the current station. *)
Theorem placement_takes_largest_fitting tasks times predecessors cycle_time
    heuristic pw st st' t t' k k' :
  body tasks times predecessors cycle_time heuristic pw st = Ok st' →
  t ∈ assigned_tasks st' → t ∉ assigned_tasks st →
  t' ∈ tasks → eligible predecessors (assigned_tasks st) t' = true →
  sort_key times heuristic pw t = Ok k →
  sort_key times heuristic pw t' = Ok k' →
  (k < k')%Q →
  ∃ cur d', station_times st !! current_station st = Some cur
            ∧ times !! t' = Some d'
            ∧ Qle_bool (cur + d') cycle_time = false.
Proof.
  intros Hbody Hin Hnotin Ht' He' Hk Hk' Hlt. unfold body in Hbody.
  assert (Hc' : t' ∈ candidates tasks predecessors (assigned_tasks st))
    by by apply elem_of_candidates.
  destruct (candidates tasks predecessors (assigned_tasks st)) as [|c cand] eqn:Hcand;
    [discriminate|].
  unfold ranked in Hbody.
  destruct (with_keys _ (c :: cand)) as [ks| |] eqn:Hks; simpl in Hbody;
    try discriminate.
  destruct (try_place times cycle_time st (map fst (sort_desc ks)))
    as [[st1|]| |] eqn:Hp; simpl in Hbody; try discriminate.
  2:{ inversion Hbody; subst st'. done. }
  inversion Hbody; subst st1; clear Hbody.
  destruct (try_place_first_fit _ _ _ _ _ Hp)
    as (l1 & t0 & l2 & cur & d & Hl & Hcur & Hd & Hfit & -> & Hno).
  assert (t = t0) as <-.
  { simpl in Hin. apply elem_of_union in Hin as [Hin|Hin]; [|done].
    by apply elem_of_singleton in Hin. }
  pose proof (with_keys_elem _ _ _ Hks) as Hkey.
  apply fmap_app_inv in Hl as (p1 & p2' & -> & Hp2 & Hsort).
  symmetry in Hp2. apply fmap_cons_inv in Hp2 as (x & p2 & Hx & -> & ->).
  assert (Hxk : snd x = k).
  { assert (Hxin : x ∈ ks).
    { rewrite <- (sort_desc_perm ks), Hsort. set_solver. }
    specialize (Hkey x Hxin). rewrite <- Hx in Hkey. congruence. }
  assert (Hex : ∃ p', p' ∈ ks ∧ fst p' = t').
  { rewrite <- (with_keys_fst _ _ _ Hks) in Hc'.
    apply list_elem_of_fmap in Hc' as (p' & -> & Hp'). eauto. }
  destruct Hex as (p' & Hp' & <-).
  assert (Hp'k : snd p' = k') by (specialize (Hkey p' Hp'); congruence).
  rewrite <- (sort_desc_perm ks), Hsort in Hp'.
  apply elem_of_app in Hp' as [Hp'|Hp'].
  - destruct (Hno (fst p')) as (dx & Hdx & Hnofit).
    { apply list_elem_of_fmap. eauto. }
    eauto.
  - exfalso. pose proof (sort_desc_sorted ks) as Hs. rewrite Hsort in Hs.
    apply StronglySorted_app_1_r, StronglySorted_cons in Hs as [Hall _].
    apply elem_of_cons in Hp' as [->|Hp'].
    + rewrite Hxk in Hp'k. subst k'. by apply Qlt_irrefl in Hlt.
    + rewrite Forall_forall in Hall. specialize (Hall p' Hp').
      unfold key_ge in Hall. rewrite Hxk, Hp'k in Hall. lra.
Qed.

Lemma placement_takes_largest_fitting_witness :
  body ["A"; "B"; "C"] {[ "A" := 5%Q; "B" := 8%Q; "C" := 3%Q ]} ∅ 10
       "longest_task_time" None (place initial_state "A" 0 5) = Ok (place (place initial_state "A" 0 5) "C" 5 3)
  ∧ "C" ∈ assigned_tasks (place (place initial_state "A" 0 5) "C" 5 3)
  ∧ ("C" ∉ assigned_tasks (place initial_state "A" 0 5))
  ∧ "B" ∈ ["A"; "B"; "C"]
  ∧ eligible ∅ (assigned_tasks (place initial_state "A" 0 5)) "B" = true
  ∧ sort_key {[ "A" := 5%Q; "B" := 8%Q; "C" := 3%Q ]} "longest_task_time" None "C"
    = Ok 3%Q
  ∧ sort_key {[ "A" := 5%Q; "B" := 8%Q; "C" := 3%Q ]} "longest_task_time" None "B"
    = Ok 8%Q
  ∧ (3 < 8)%Q
  ∧ ∃ cur d', station_times (place initial_state "A" 0 5) !! current_station (place initial_state "A" 0 5) = Some cur
              ∧ ({[ "A" := 5%Q; "B" := 8%Q; "C" := 3%Q ]} : gmap string Q) !! "B"
                = Some d'
              ∧ Qle_bool (cur + d') 10 = false.
Proof.
  assert (H1 : body ["A"; "B"; "C"] {[ "A" := 5%Q; "B" := 8%Q; "C" := 3%Q ]} ∅ 10
                 "longest_task_time" None (place initial_state "A" 0 5) = Ok (place (place initial_state "A" 0 5) "C" 5 3))
    by (vm_compute; reflexivity).
  assert (H2 : "C" ∈ assigned_tasks (place (place initial_state "A" 0 5) "C" 5 3))
    by (apply (bool_decide_unpack _); by vm_compute).
  assert (H3 : "C" ∉ assigned_tasks (place initial_state "A" 0 5))
    by (apply (bool_decide_unpack _); by vm_compute).
  assert (H4 : "B" ∈ ["A"; "B"; "C"])
    by (apply (bool_decide_unpack _); by vm_compute).
  assert (H5 : eligible ∅ (assigned_tasks (place initial_state "A" 0 5)) "B" = true) by (by vm_compute).
  assert (H6 : sort_key {[ "A" := 5%Q; "B" := 8%Q; "C" := 3%Q ]}
                 "longest_task_time" None "C" = Ok 3%Q) by (by vm_compute).
  assert (H7 : sort_key {[ "A" := 5%Q; "B" := 8%Q; "C" := 3%Q ]}
                 "longest_task_time" None "B" = Ok 8%Q) by (by vm_compute).
  assert (H8 : (3 < 8)%Q) by reflexivity.
  split; [exact H1|]. split; [exact H2|]. split; [exact H3|]. split; [exact H4|].
  split; [exact H5|]. split; [exact H6|]. split; [exact H7|]. split; [exact H8|].
  exact (placement_takes_largest_fitting ["A"; "B"; "C"]
           {[ "A" := 5%Q; "B" := 8%Q; "C" := 3%Q ]} ∅ 10 "longest_task_time" None
           (place initial_state "A" 0 5) (place (place initial_state "A" 0 5) "C" 5 3) "C" "B" 3 8 H1 H2 H3 H4 H5 H6 H7 H8).
Defined.


(** ** A station is closed only when the next task does not fit *)

Section ClosingRule.

Context (tasks : list string) (times : gmap string Q)
        (predecessors : gmap string (list string)) (cycle_time : Q)
        (heuristic : string) (positional_weights : option (gmap string Q)).

Local Abbreviation inv' := (inv tasks times predecessors cycle_time).
Local Abbreviation stuck' := (stuck tasks times predecessors cycle_time).
Local Abbreviation step' := (step tasks times predecessors cycle_time).
Local Abbreviation closed' := (closed_when_needed times cycle_time).
Local Abbreviation needed' :=
  (fresh_station_needed tasks times predecessors cycle_time).



End ClosingRule.



Lemma stations_numbered_from_one_witness :
  engine line_py 3 chain_tasks chain_times chain_predecessors 10
         "longest_task_time" = Done (chain_workstations, chain_metrics)
  ∧ (1 ≤ actual_stations chain_metrics)%nat
  ∧ ∀ k, (is_Some (chain_workstations !! k)
          ↔ (1 ≤ k ≤ actual_stations chain_metrics)%nat)
         ∧ (is_Some (m_station_times chain_metrics !! k)
            ↔ (1 ≤ k ≤ actual_stations chain_metrics)%nat).
Proof.
  assert (H1 : engine line_py 3 chain_tasks chain_times chain_predecessors 10
                 "longest_task_time" = Done (chain_workstations, chain_metrics))
    by (vm_compute; reflexivity).
  split; [exact H1|].
  exact (stations_numbered_from_one line_py 3 chain_tasks chain_times
           chain_predecessors 10 "longest_task_time" chain_workstations
           chain_metrics H1).
Defined.

Lemma derive_metrics_ok_witness :
  Qeq_bool 10 0 = false
  ∧ while_loop chain_tasks chain_times chain_predecessors 10 "longest_task_time"
               None 3 initial_state
    = Done (mkState chain_workstations {[ 1%nat := 8%Q; 2%nat := 5%Q ]}
                    {[ "A"; "B" ]} 2)
  ∧ chain_tasks ≠ []
  ∧ ∃ w m, derive_metrics 10 13 2
             (mkState chain_workstations {[ 1%nat := 8%Q; 2%nat := 5%Q ]}
                      {[ "A"; "B" ]} 2) = Done (w, m).
Proof.
  assert (H1 : Qeq_bool 10 0 = false) by reflexivity.
  assert (H2 : while_loop chain_tasks chain_times chain_predecessors 10
                 "longest_task_time" None 3 initial_state
               = Done (mkState chain_workstations {[ 1%nat := 8%Q; 2%nat := 5%Q ]}
                               {[ "A"; "B" ]} 2)) by (vm_compute; reflexivity).
  assert (H3 : chain_tasks ≠ []) by discriminate.
  split; [exact H1|]. split; [exact H2|]. split; [exact H3|].
  exact (derive_metrics_ok chain_tasks chain_times chain_predecessors 10
           "longest_task_time" None 3 _ 13 2 H1 H2 H3).
Defined.

(** * The positional weights *)

(** ** What [compute_positional_weights] returns *)

(** The weight returned for a task is its own duration plus the weights
    returned for its direct successors, the tasks that list it as a
    predecessor, each of them taken once. *)
Theorem positional_weight_recurrence tasks times predecessors pw :
  compute_positional_weights tasks times predecessors = Ok pw →
  ∀ t, t ∈ tasks →
    ∃ d q succs,
      times !! t = Some d ∧ pw !! t = Some q
      ∧ NoDup succs ∧ (∀ s, s ∈ succs ↔ precedes predecessors t s)
      ∧ (q == d + sum_durations pw succs)%Q.
Proof.
  unfold compute_positional_weights. intros H t Ht.
  pose proof (build_graph_wf tasks predecessors) as Hwf.
  destruct (topological_sort _) as [order| |] eqn:Hts; simpl in H; try done.
  destruct (dict_of_times times tasks) as [m| |] eqn:Hm; simpl in H; try done.
  destruct (reverse_order_spec _ _ Hwf Hts) as [Hnd Hord].
  destruct (accumulate_spec _ _ _ _ Hnd Hord H) as [_ Hin].
  pose proof (dict_of_times_lookup _ _ _ Hm t) as Hmt.
  destruct (decide (t ∈ tasks)); [|done].
  destruct (dict_of_times_dom _ _ _ Hm t Ht) as [d Hd].
  destruct (Hin t d) as (q & Hq & Hsum); [|done|].
  { apply elem_of_reverse.
    apply (topological_sort_sound _ _ Hwf Hts), build_graph_nodes. by left. }
  exists d, q, (successors (build_graph tasks predecessors) t).
  split_and!; [congruence|done|apply Hwf| |done].
  intros s. apply build_graph_successors.
Qed.

Lemma diamond_weights_computed :
  compute_positional_weights diamond_tasks diamond_times diamond_predecessors
  = Ok diamond_weights.
Proof. vm_compute. reflexivity. Qed.

Lemma chain_weights_computed :
  compute_positional_weights chain_tasks chain_times chain_predecessors
  = Ok chain_weights.
Proof. vm_compute. reflexivity. Qed.

Lemma positional_weight_recurrence_witness :
  compute_positional_weights diamond_tasks diamond_times diamond_predecessors
  = Ok diamond_weights
  ∧ "a" ∈ diamond_tasks
  ∧ ∃ d q succs,
      diamond_times !! "a" = Some d ∧ diamond_weights !! "a" = Some q
      ∧ NoDup succs ∧ (∀ s, s ∈ succs ↔ precedes diamond_predecessors "a" s)
      ∧ (q == d + sum_durations diamond_weights succs)%Q.
Proof.
  assert (H2 : "a" ∈ diamond_tasks) by (apply (bool_decide_unpack _); by vm_compute).
  split; [exact diamond_weights_computed|]. split; [exact H2|].
  exact (positional_weight_recurrence diamond_tasks diamond_times
           diamond_predecessors diamond_weights diamond_weights_computed "a" H2).
Defined.

Lemma accumulate_node_nonneg succs : ∀ pw node pw',
  (∀ t q, pw !! t = Some q → (0 <= q)%Q) →
  accumulate_node pw node succs = Ok pw' →
  ∀ t q, pw' !! t = Some q → (0 <= q)%Q.
Proof.
  induction succs as [|s succs IH]; simpl; intros pw node pw' Hpos Hacc.
  - by injection Hacc as <-.
  - unfold getitem in Hacc.
    destruct (pw !! node) as [a|] eqn:Ea; simpl in Hacc; [|done].
    destruct (pw !! s) as [b|] eqn:Eb; simpl in Hacc; [|done].
    eapply IH; [|exact Hacc].
    intros t q. rewrite lookup_insert_Some. intros [[_ <-]|[_ Hq]]; [|by eapply Hpos].
    pose proof (Hpos _ _ Ea). pose proof (Hpos _ _ Eb). lra.
Qed.

Lemma accumulate_nonneg G topo : ∀ pw pw',
  (∀ t q, pw !! t = Some q → (0 <= q)%Q) →
  accumulate G pw topo = Ok pw' →
  ∀ t q, pw' !! t = Some q → (0 <= q)%Q.
Proof.
  induction topo as [|x topo IH]; simpl; intros pw pw' Hpos Hacc.
  - by injection Hacc as <-.
  - destruct (accumulate_node pw x (successors G x)) as [pw1| |] eqn:E1;
      simpl in Hacc; try done.
    apply (IH pw1); [|done]. by apply (accumulate_node_nonneg _ _ _ _ Hpos E1).
Qed.

Lemma sum_durations_elem_le (pw : gmap string Q) l t :
  (∀ s q, pw !! s = Some q → (0 <= q)%Q) → t ∈ l →
  (duration pw t <= sum_durations pw l)%Q.
Proof.
  intros Hpos. induction l as [|x l IH]; intros Ht; [by apply elem_of_nil in Ht|].
  simpl. pose proof (sum_durations_nonneg pw l Hpos) as H0.
  apply elem_of_cons in Ht as [->|Ht].
  - lra.
  - specialize (IH Ht). assert (0 <= duration pw x)%Q; [|lra].
    unfold duration. destruct (pw !! x) eqn:E; simpl; [by eapply Hpos|lra].
Qed.

(** With durations that are not negative, a task weighs at least as much as
    each of its direct successors: ranking by positional weight never puts a
    task strictly behind one that has to wait for it. *)
Theorem weight_covers_successors tasks times predecessors pw p t :
  (∀ x d, times !! x = Some d → (0 <= d)%Q) →
  compute_positional_weights tasks times predecessors = Ok pw →
  p ∈ tasks → t ∈ tasks → precedes predecessors p t →
  ∃ a b, pw !! p = Some a ∧ pw !! t = Some b ∧ (b <= a)%Q.
Proof.
  intros Hpos Hpw Hp Ht Hpt.
  assert (Hnn : ∀ s q, pw !! s = Some q → (0 <= q)%Q).
  { unfold compute_positional_weights in Hpw.
    destruct (topological_sort _) as [order| |]; simpl in Hpw; try done.
    destruct (dict_of_times times tasks) as [m| |] eqn:Hm; simpl in Hpw; try done.
    eapply accumulate_nonneg; [|exact Hpw].
    intros s q Hs. rewrite (dict_of_times_lookup _ _ _ Hm) in Hs.
    destruct (decide (s ∈ tasks)); [|done]. by apply Hpos in Hs. }
  destruct (compute_positional_weights_dom _ _ _ _ Hpw t Ht) as [b Hb].
  unfold compute_positional_weights in Hpw.
  pose proof (build_graph_wf tasks predecessors) as Hwf.
  destruct (topological_sort _) as [order| |] eqn:Hts; simpl in Hpw; try done.
  destruct (dict_of_times times tasks) as [m| |] eqn:Hm; simpl in Hpw; try done.
  destruct (reverse_order_spec _ _ Hwf Hts) as [Hnd Hord].
  destruct (accumulate_spec _ _ _ _ Hnd Hord Hpw) as [_ Hin].
  pose proof (dict_of_times_lookup _ _ _ Hm p) as Hmp.
  destruct (decide (p ∈ tasks)); [|done].
  destruct (dict_of_times_dom _ _ _ Hm p Hp) as [d Hd].
  destruct (Hin p d) as (a & Ha & Hsum); [|done|].
  { apply elem_of_reverse.
    apply (topological_sort_sound _ _ Hwf Hts), build_graph_nodes. by left. }
  exists a, b. split_and!; [done|done|].
  assert (Hd0 : (0 <= d)%Q) by (apply (Hpos p); congruence).
  pose proof (sum_durations_elem_le pw _ t Hnn
                (proj2 (build_graph_successors tasks predecessors p t) Hpt)) as Hle.
  unfold duration in Hle at 1. rewrite Hb in Hle. simpl in Hle.
  rewrite Hsum. lra.
Qed.

Lemma diamond_times_nonneg : ∀ x d, diamond_times !! x = Some d → (0 <= d)%Q.
Proof.
  intros x d Hd. unfold diamond_times in Hd.
  repeat (apply lookup_insert_Some in Hd as [[_ <-]|[_ Hd]]; [by vm_compute|]).
  apply lookup_singleton_Some in Hd as [_ <-]. by vm_compute.
Qed.

Lemma weight_covers_successors_witness :
  (∀ x d, diamond_times !! x = Some d → (0 <= d)%Q)
  ∧ compute_positional_weights diamond_tasks diamond_times diamond_predecessors
    = Ok diamond_weights
  ∧ "b" ∈ diamond_tasks ∧ "d" ∈ diamond_tasks
  ∧ precedes diamond_predecessors "b" "d"
  ∧ ∃ a b, diamond_weights !! "b" = Some a ∧ diamond_weights !! "d" = Some b
           ∧ (b <= a)%Q.
Proof.
  assert (H1 : "b" ∈ diamond_tasks) by (apply (bool_decide_unpack _); by vm_compute).
  assert (H2 : "d" ∈ diamond_tasks) by (apply (bool_decide_unpack _); by vm_compute).
  assert (H3 : precedes diamond_predecessors "b" "d")
    by (unfold precedes, preds_of; apply (bool_decide_unpack _); by vm_compute).
  split; [exact diamond_times_nonneg|]. split; [exact diamond_weights_computed|].
  split; [exact H1|]. split; [exact H2|]. split; [exact H3|].
  exact (weight_covers_successors diamond_tasks diamond_times diamond_predecessors
           diamond_weights "b" "d" diamond_times_nonneg diamond_weights_computed
           H1 H2 H3).
Defined.

(** On a well-formed input the positional weights are computed: the sort
    finds no cycle and no lookup fails. *)
Theorem positional_weights_computed tasks times predecessors cycle_time :
  valid_input tasks times predecessors cycle_time →
  ∃ pw, compute_positional_weights tasks times predecessors = Ok pw.
Proof.
  intros Hvalid. unfold compute_positional_weights.
  pose proof (build_graph_wf tasks predecessors) as Hwf.
  destruct (valid_acyclic _ _ _ _ Hvalid) as [rank Hrank].
  destruct (topological_sort_complete _ rank Hwf) as [order Hts].
  { intros u v Huv. apply build_graph_successors in Huv. by apply Hrank. }
  rewrite Hts. simpl.
  destruct (dict_of_times_ok times tasks) as [m Hm].
  { intros t Ht. destruct (valid_durations _ _ _ _ Hvalid t Ht) as (d & -> & _). eauto. }
  rewrite Hm. simpl.
  assert (Hnodes : ∀ v, v ∈ nodes (build_graph tasks predecessors) → v ∈ tasks).
  { intros v [?|(p & t & Hpt & Hv)]%build_graph_nodes; [done|].
    unfold precedes, preds_of in Hpt.
    destruct (predecessors !! t) as [ps|] eqn:E; simpl in Hpt;
      [|by apply elem_of_nil in Hpt].
    destruct (valid_members _ _ _ _ Hvalid t ps E) as [H1 H2].
    destruct Hv as [->| ->]; [done|by apply H2]. }
  apply accumulate_ok.
  - intros node Hnode. apply (dict_of_times_dom _ _ _ Hm), Hnodes.
    apply (topological_sort_sound _ _ Hwf Hts). by apply elem_of_reverse.
  - intros node s Hnode Hs. apply (dict_of_times_dom _ _ _ Hm), Hnodes.
    by destruct (wf_succ_nodes _ Hwf _ _ Hs).
Qed.

Lemma positional_weights_computed_witness :
  valid_input chain_tasks chain_times chain_predecessors 10
  ∧ ∃ pw, compute_positional_weights chain_tasks chain_times chain_predecessors
          = Ok pw.
Proof.
  split; [exact chain_valid|].
  exact (positional_weights_computed chain_tasks chain_times chain_predecessors 10
           chain_valid).
Defined.

(** [compute_positional_weights] looks at every entry of [predecessors],
    also at those the allocation ignores: when an entry names a predecessor or
    is filed under a key that is not a task, the function raises, a [KeyError]
    unless the sort has found a cycle first. *)
Theorem weights_need_tasks_only tasks times predecessors p t :
  precedes predecessors p t → p ∉ tasks ∨ t ∉ tasks →
  compute_positional_weights tasks times predecessors = Err KeyError
  ∨ compute_positional_weights tasks times predecessors = Err NetworkXUnfeasible.
Proof. exact (foreign_edge_raises tasks times predecessors p t). Qed.

Lemma weights_need_tasks_only_witness :
  precedes dangling_predecessors "X" "B"
  ∧ (("X" ∉ chain_tasks) ∨ ("B" ∉ chain_tasks))
  ∧ (compute_positional_weights chain_tasks chain_times dangling_predecessors
     = Err KeyError
     ∨ compute_positional_weights chain_tasks chain_times dangling_predecessors
       = Err NetworkXUnfeasible).
Proof.
  assert (H1 : precedes dangling_predecessors "X" "B")
    by (unfold precedes, preds_of; apply (bool_decide_unpack _); by vm_compute).
  assert (H2 : ("X" ∉ chain_tasks) ∨ ("B" ∉ chain_tasks))
    by (left; apply (bool_decide_unpack _); by vm_compute).
  split; [exact H1|]. split; [exact H2|].
  exact (weights_need_tasks_only chain_tasks chain_times dangling_predecessors
           "X" "B" H1 H2).
Defined.

(** ** The weight of a task counts every path that leaves it *)

Lemma sum_durations_flat_map (times pw : gmap string Q) (f : string → list string) l :
  (∀ s, s ∈ l → (sum_durations times (f s) == duration pw s)%Q) →
  (sum_durations times (flat_map f l) == sum_durations pw l)%Q.
Proof.
  induction l as [|x l IH]; intros Hall; simpl; [reflexivity|].
  rewrite sum_durations_app, (Hall x) by left.
  rewrite IH; [reflexivity|]. intros s Hs. apply Hall. by right.
Qed.

Lemma accumulate_path_sum G times topo pw0 pw :
  NoDup topo →
  (∀ l1 node l2 s, topo = l1 ++ node :: l2 → s ∈ successors G node → s ∉ node :: l2) →
  (∀ node s, node ∈ topo → s ∈ successors G node → s ∈ topo) →
  (∀ t, t ∈ topo → ∃ a, pw0 !! t = Some a ∧ times !! t = Some a) →
  accumulate G pw0 topo = Ok pw →
  ∀ n l1 node l2, topo = l1 ++ node :: l2 → length l1 ≤ n →
    (sum_durations times (path_ends n G node) == duration pw node)%Q.
Proof.
  intros Hnd Hord Hclosed Htimes Hacc.
  destruct (accumulate_spec _ _ _ _ Hnd Hord Hacc) as [_ Hin].
  assert (Hbefore : ∀ l1 node l2 s, topo = l1 ++ node :: l2 →
                      s ∈ successors G node → s ∈ l1).
  { intros l1 node l2 s Heq Hs.
    assert (s ∈ topo) as Hst.
    { apply (Hclosed node); [|done]. rewrite Heq. apply elem_of_app. right. left. }
    pose proof (Hord _ _ _ _ Heq Hs) as Hnot.
    rewrite Heq in Hst. apply elem_of_app in Hst as [?|?]; done. }
  induction n as [|n IH]; intros l1 node l2 Heq Hlen.
  - assert (node ∈ topo) as Hnode by (rewrite Heq; apply elem_of_app; right; left).
    destruct (Htimes node Hnode) as (a & Ha0 & Ha).
    destruct (Hin node a Hnode Ha0) as (q & Hq & Hsum).
    destruct l1; [|simpl in Hlen; lia].
    assert (successors G node = []) as Hnil.
    { destruct (successors G node) as [|s l] eqn:E; [done|].
      exfalso. assert (s ∈ []) as Hs; [|by apply elem_of_nil in Hs].
      apply (Hbefore [] node l2 s Heq). rewrite E. left. }
    simpl. unfold duration. rewrite Ha, Hq. simpl. rewrite Hsum, Hnil. simpl. ring.
  - assert (node ∈ topo) as Hnode by (rewrite Heq; apply elem_of_app; right; left).
    destruct (Htimes node Hnode) as (a & Ha0 & Ha).
    destruct (Hin node a Hnode Ha0) as (q & Hq & Hsum).
    simpl.
    rewrite (sum_durations_flat_map times pw).
    + unfold duration. rewrite Ha, Hq. simpl. rewrite Hsum. reflexivity.
    + intros s Hs. pose proof (Hbefore _ _ _ _ Heq Hs) as Hs1.
      apply list_elem_of_split in Hs1 as (l1' & l2' & ->).
      apply (IH l1' s (l2' ++ node :: l2)).
      * rewrite Heq. by rewrite <- app_assoc.
      * rewrite length_app in Hlen. simpl in Hlen. lia.
Qed.

Lemma weights_sum_over_paths tasks times predecessors pw t :
  compute_positional_weights tasks times predecessors = Ok pw →
  t ∈ tasks →
  ∃ q, pw !! t = Some q
       ∧ (q == sum_durations times
                 (path_ends (length (nodes (build_graph tasks predecessors)))
                            (build_graph tasks predecessors) t))%Q.
Proof.
  intros Hpw Ht.
  destruct (compute_positional_weights_dom _ _ _ _ Hpw t Ht) as [q Hq].
  exists q. split; [done|].
  unfold compute_positional_weights in Hpw.
  pose proof (build_graph_wf tasks predecessors) as Hwf.
  set (G := build_graph tasks predecessors) in *.
  destruct (topological_sort G) as [order| |] eqn:Hts; simpl in Hpw; try done.
  destruct (dict_of_times times tasks) as [m| |] eqn:Hm; simpl in Hpw; try done.
  destruct (reverse_order_spec _ _ Hwf Hts) as [Hnd Hord].
  destruct (topological_sort_sound _ _ Hwf Hts) as (_ & Hmem & _).
  assert (Hin : t ∈ reverse order).
  { apply elem_of_reverse, Hmem, build_graph_nodes. by left. }
  apply list_elem_of_split in Hin as (l1 & l2 & Heq).
  assert (Hlen : length (reverse order) = length (nodes G)).
  { rewrite length_reverse. apply Permutation_length.
    apply NoDup_Permutation; [|apply Hwf|done].
    by destruct (topological_sort_sound _ _ Hwf Hts). }
  assert (Hclosed : ∀ node s, node ∈ reverse order → s ∈ successors G node →
                      s ∈ reverse order).
  { intros node s Hnode Hs. apply elem_of_reverse, Hmem.
    by destruct (wf_succ_nodes _ Hwf _ _ Hs). }
  assert (Htimes : ∀ x, x ∈ reverse order → ∃ a, m !! x = Some a ∧ times !! x = Some a).
  { intros x Hx.
    assert (is_Some (m !! x)) as [a Ha].
    { destruct (decide (x ∈ tasks)) as [Hxt|Hxt];
        [by apply (dict_of_times_dom _ _ _ Hm)|].
      pose proof Hx as Hx'.
      apply elem_of_reverse, Hmem, build_graph_nodes in Hx' as [?|(p & s & Hps & Hx')];
        [done|].
      apply (build_graph_successors tasks) in Hps. fold G in Hps.
      assert (p ∈ reverse order) as Hp.
      { apply elem_of_reverse, Hmem. by destruct (wf_succ_nodes _ Hwf _ _ Hps). }
      destruct (accumulate_needs _ _ _ _ p s Hpw Hp Hps) as [? ?].
      by destruct Hx' as [->| ->]. }
    exists a. split; [done|].
    rewrite (dict_of_times_lookup _ _ _ Hm) in Ha. by destruct (decide (x ∈ tasks)). }
  rewrite (accumulate_path_sum G times (reverse order) m pw Hnd Hord Hclosed Htimes Hpw
             (length (nodes G)) l1 t l2 Heq).
  - unfold duration. by rewrite Hq.
  - rewrite <- Hlen, Heq, length_app. simpl. lia.
Qed.

Lemma remove_dups_NoDup_perm (l : list string) : NoDup l → remove_dups l ≡ₚ l.
Proof.
  intros Hl. apply NoDup_Permutation; [apply NoDup_remove_dups|done|].
  intros x. apply elem_of_remove_dups.
Qed.

Lemma descendants_path_ends G n : ∀ t,
  NoDup (path_ends n G t) → t :: descendants n G t ≡ₚ path_ends n G t.
Proof.
  induction n as [|n IH]; intros t Hnd; [done|].
  simpl in *. apply NoDup_cons in Hnd as [_ Hnd]. constructor.
  assert (Hperm : flat_map (λ s, s :: descendants n G s) (successors G t)
                  ≡ₚ flat_map (path_ends n G) (successors G t)).
  { revert Hnd. generalize (successors G t) as succs.
    induction succs as [|s succs IHs]; intros Hnd; simpl; [done|].
    simpl in Hnd. apply NoDup_app in Hnd as (H1 & _ & H2).
    exact (Permutation_app (IH s H1) (IHs H2)). }
  rewrite remove_dups_NoDup_perm; [done|]. by rewrite Hperm.
Qed.

(** The weight returned for a task is the sum of the durations at the ends
    of all the paths that leave it: a task reached along two paths is counted
    twice. *)
Theorem positional_weight_counts_paths tasks times predecessors pw t :
  compute_positional_weights tasks times predecessors = Ok pw →
  t ∈ tasks →
  ∃ q, pw !! t = Some q
       ∧ (q == sum_durations times
                 (path_ends (length (nodes (build_graph tasks predecessors)))
                            (build_graph tasks predecessors) t))%Q.
Proof. apply weights_sum_over_paths. Qed.

Lemma positional_weight_counts_paths_witness :
  compute_positional_weights diamond_tasks diamond_times diamond_predecessors
  = Ok diamond_weights
  ∧ "a" ∈ diamond_tasks
  ∧ ∃ q, diamond_weights !! "a" = Some q
       ∧ (q == sum_durations diamond_times
                 (path_ends
                    (length (nodes (build_graph diamond_tasks diamond_predecessors)))
                    (build_graph diamond_tasks diamond_predecessors) "a"))%Q.
Proof.
  assert (H2 : "a" ∈ diamond_tasks) by (apply (bool_decide_unpack _); by vm_compute).
  split; [exact diamond_weights_computed|]. split; [exact H2|].
  exact (positional_weight_counts_paths diamond_tasks diamond_times
           diamond_predecessors diamond_weights "a" diamond_weights_computed H2).
Defined.

(** When no task is reached from [t] along two different paths, the weight
    returned for [t] is the positional weight of the glossary: the duration
    of [t] plus the durations of all the tasks that depend on it. *)
Theorem positional_weight_matches_glossary tasks times predecessors pw t :
  compute_positional_weights tasks times predecessors = Ok pw →
  t ∈ tasks →
  NoDup (path_ends (length (nodes (build_graph tasks predecessors)))
                   (build_graph tasks predecessors) t) →
  ∃ q, pw !! t = Some q
       ∧ (q == spec_positional_weight tasks times predecessors t)%Q.
Proof.
  intros Hpw Ht Hnd.
  destruct (weights_sum_over_paths _ _ _ _ _ Hpw Ht) as (q & Hq & Hsum).
  exists q. split; [done|]. rewrite Hsum. unfold spec_positional_weight.
  rewrite <- (sum_durations_perm times _ _ (descendants_path_ends _ _ _ Hnd)).
  reflexivity.
Qed.

Lemma positional_weight_matches_glossary_witness :
  compute_positional_weights chain_tasks chain_times chain_predecessors
  = Ok chain_weights
  ∧ "A" ∈ chain_tasks
  ∧ NoDup (path_ends (length (nodes (build_graph chain_tasks chain_predecessors)))
                     (build_graph chain_tasks chain_predecessors) "A")
  ∧ ∃ q, chain_weights !! "A" = Some q
       ∧ (q == spec_positional_weight chain_tasks chain_times chain_predecessors "A")%Q.
Proof.
  assert (H2 : "A" ∈ chain_tasks) by (apply (bool_decide_unpack _); by vm_compute).
  assert (H3 : NoDup (path_ends
                        (length (nodes (build_graph chain_tasks chain_predecessors)))
                        (build_graph chain_tasks chain_predecessors) "A"))
    by (apply (bool_decide_unpack _); by vm_compute).
  split; [exact chain_weights_computed|]. split; [exact H2|]. split; [exact H3|].
  exact (positional_weight_matches_glossary chain_tasks chain_times
           chain_predecessors chain_weights "A" chain_weights_computed H2 H3).
Defined.


(** * The layout of the precedence network *)

(** ** Levels *)

Lemma elem_of_graph_predecessors G u v :
  wf_graph G → u ∈ graph_predecessors G v ↔ v ∈ successors G u.
Proof.
  intros Hwf. unfold graph_predecessors, preds_in. rewrite list_elem_of_filter.
  split; [tauto|]. intros H. split; [done|]. by destruct (wf_succ_nodes _ Hwf _ _ H).
Qed.

Lemma max_level_spec level ps m :
  max_level level ps = Ok m →
  (∀ p, p ∈ ps → ∃ lp, level !! p = Some lp ∧ lp ≤ m)
  ∧ (∃ p, p ∈ ps ∧ level !! p = Some m).
Proof.
  revert m. induction ps as [|p ps IH]; intros m Hm; [done|].
  destruct ps as [|p' ps].
  - simpl in Hm. unfold getitem in Hm. destruct (level !! p) as [a|] eqn:Ea; [|done].
    simpl in Hm. injection Hm as <-. split.
    + intros q ->%list_elem_of_singleton. eauto.
    + exists p. split; [left|done].
  - change (max_level level (p :: p' :: ps))
      with (do a <- getitem level p in
            do b <- max_level level (p' :: ps) in Ok (Nat.max a b)) in Hm.
    destruct (max_level level (p' :: ps)) as [b| |] eqn:Eb;
      unfold getitem in Hm; destruct (level !! p) as [a|] eqn:Ea;
      simpl in Hm; try done.
    injection Hm as <-.
    destruct (IH b eq_refl) as [Hall (q & Hq & Hqb)]. split.
    + intros x [->|Hx]%elem_of_cons.
      * exists a. split; [done|lia].
      * destruct (Hall x Hx) as (lp & Hlp & Hle). exists lp. split; [done|lia].
    + destruct (Nat.max_spec a b) as [[_ ->]|[_ ->]].
      * exists q. split; [by right|done].
      * exists p. split; [left|done].
Qed.

Lemma max_level_ok level ps :
  ps ≠ [] → (∀ p, p ∈ ps → is_Some (level !! p)) →
  ∃ m, max_level level ps = Ok m.
Proof.
  induction ps as [|p ps IH]; intros Hne Hall; [done|].
  destruct (Hall p) as [a Ha]; [left|].
  destruct ps as [|p' ps].
  - simpl. unfold getitem. rewrite Ha. eauto.
  - change (max_level level (p :: p' :: ps))
      with (do a <- getitem level p in
            do b <- max_level level (p' :: ps) in Ok (Nat.max a b)).
    destruct IH as [b ->]; [done| |unfold getitem; rewrite Ha; simpl; eauto].
    intros x Hx. apply Hall. by right.
Qed.

Lemma assign_levels_spec G order : ∀ D level0 level,
  wf_graph G →
  NoDup (D ++ order) →
  (∀ l1 v l2 u, order = l1 ++ v :: l2 → v ∈ successors G u → u ∈ D ++ l1) →
  (∀ v, is_Some (level0 !! v) ↔ v ∈ D) →
  levels_correct G level0 →
  assign_levels G level0 order = Ok level →
  (∀ v, is_Some (level !! v) ↔ v ∈ D ++ order) ∧ levels_correct G level.
Proof.
  induction order as [|node rest IH]; intros D level0 level Hwf Hnd Hord Hdom Hok Hrun.
  - simpl in Hrun. injection Hrun as <-. rewrite app_nil_r. done.
  - simpl in Hrun.
    assert (HnodeD : node ∉ D).
    { intros Hin. apply NoDup_app in Hnd as (_ & Hdis & _). apply (Hdis node Hin). left. }
    assert (Hpreds : ∀ u, node ∈ successors G u → u ∈ D).
    { intros u Hu. pose proof (Hord [] node rest u eq_refl Hu) as H.
      by rewrite app_nil_r in H. }
    match type of Hrun with bind ?e _ = _ =>
      destruct e as [l| |] eqn:El; simpl in Hrun; try done end.
    apply (IH (D ++ [node])) in Hrun; try done.
    + destruct Hrun as [H1 H2]. split; [|done].
      intros v. rewrite H1, <- app_assoc. done.
    + by rewrite <- app_assoc.
    + intros l1 v l2 u Heq Hvu. rewrite <- app_assoc.
      apply (Hord (node :: l1) v l2 u); [by rewrite Heq|done].
    + intros v. rewrite elem_of_app, list_elem_of_singleton, <- Hdom.
      destruct (decide (v = node)) as [->|Hne].
      * rewrite lookup_insert_eq. split; [by right|eauto].
      * rewrite lookup_insert_ne by done. split; [by left|]. by intros [?|?].
    + intros v lv Hv.
      destruct (decide (v = node)) as [->|Hne].
      * rewrite lookup_insert_eq in Hv. injection Hv as ->.
        destruct (graph_predecessors G node) as [|p0 ps] eqn:Ep.
        -- injection El as <-. split_and!; [done| |done].
           intros u Hu. apply (elem_of_graph_predecessors G u node Hwf) in Hu.
           rewrite Ep in Hu. by apply elem_of_nil in Hu.
        -- destruct (max_level level0 (p0 :: ps)) as [m| |] eqn:Em; simpl in El; try done.
           injection El as <-.
           destruct (max_level_spec _ _ _ Em) as [Hall (q & Hq & Hqm)].
           rewrite <- Ep in Hall, Hq.
           assert (Hkeep : ∀ u, u ∈ graph_predecessors G node →
                      <[node:=S m]> level0 !! u = level0 !! u).
           { intros u Hu. rewrite lookup_insert_ne; [done|]. intros <-.
             apply (elem_of_graph_predecessors G _ _ Hwf), Hpreds in Hu. done. }
           split_and!; [done| |].
           ++ intros u Hu. apply (elem_of_graph_predecessors G u node Hwf) in Hu.
              destruct (Hall u Hu) as (lu & Hlu & Hle).
              exists lu. rewrite (Hkeep u Hu). split; [done|lia].
           ++ intros _. exists q, m. rewrite (Hkeep q Hq).
              split_and!; [|done|done].
              by apply (elem_of_graph_predecessors G q node Hwf).
      * rewrite lookup_insert_ne in Hv by done.
        destruct (Hok v lv Hv) as (H1 & H2 & H3).
        assert (Hkeep : ∀ u lu, level0 !! u = Some lu →
                   <[node:=l]> level0 !! u = Some lu).
        { intros u lu Hu. rewrite lookup_insert_ne; [done|]. intros <-.
          apply HnodeD, Hdom. eauto. }
        split_and!; [done| |].
        -- intros u Hu. destruct (H2 u Hu) as (lu & Hlu & Hlt).
           exists lu. split; [by apply Hkeep|done].
        -- intros Hne'. destruct (H3 Hne') as (u & lu & Hu & Hlu & ->).
           exists u, lu. split_and!; [done|by apply Hkeep|done].
Qed.

Lemma assign_levels_ok G order : ∀ D level0,
  wf_graph G →
  (∀ l1 v l2 u, order = l1 ++ v :: l2 → v ∈ successors G u → u ∈ D ++ l1) →
  (∀ v, v ∈ D → is_Some (level0 !! v)) →
  ∃ level, assign_levels G level0 order = Ok level.
Proof.
  induction order as [|node rest IH]; intros D level0 Hwf Hord Hdom; simpl;
    [by eexists|].
  match goal with |- ∃ _, bind ?e _ = _ => assert (∃ l, e = Ok l) as [l ->] end.
  { destruct (graph_predecessors G node) as [|p0 ps] eqn:Ep; [by eexists|].
    destruct (max_level_ok level0 (p0 :: ps)) as [m ->]; [done| |simpl; by eexists].
    intros p Hp. rewrite <- Ep in Hp.
    apply (elem_of_graph_predecessors G _ _ Hwf) in Hp.
    apply Hdom. pose proof (Hord [] node rest p eq_refl Hp) as H.
    by rewrite app_nil_r in H. }
  simpl. apply (IH (D ++ [node])); [done| |].
  - intros l1 v l2 u Heq Hvu. rewrite <- app_assoc.
    apply (Hord (node :: l1) v l2 u); [by rewrite Heq|done].
  - intros v [Hv| ->%list_elem_of_singleton]%elem_of_app.
    + destruct (decide (v = node)) as [->|Hne].
      * rewrite lookup_insert_eq. eauto.
      * rewrite lookup_insert_ne by done. by apply Hdom.
    + rewrite lookup_insert_eq. eauto.
Qed.

Lemma topological_order_prefix G order :
  wf_graph G → topological_sort G = Ok order →
  ∀ l1 v l2 u, order = l1 ++ v :: l2 → v ∈ successors G u → u ∈ [] ++ l1.
Proof.
  intros Hwf Hts l1 v l2 u Heq Hvu. simpl.
  destruct (topological_sort_sound G order Hwf Hts) as (Hnd & _ & Hord).
  assert (Hv : order !! length l1 = Some v).
  { rewrite Heq, lookup_app_r by lia. by rewrite Nat.sub_diag. }
  destruct (Hord _ _ _ Hv Hvu) as (i & Hi & Hu).
  rewrite Heq, lookup_app_l in Hu by done. by eapply list_elem_of_lookup_2.
Qed.

(** *** Columns *)

Lemma columns_lookup items : ∀ cols0 l,
  foldl add_to_column cols0 items !! l
  = if decide ((filter (λ it, snd it = l) items).*1 = []) then cols0 !! l
    else Some (default [] (cols0 !! l) ++ (filter (λ it, snd it = l) items).*1).
Proof.
  induction items as [|[node lvl] items IH]; intros cols0 l; simpl; [done|].
  rewrite IH, filter_cons. simpl.
  destruct (decide (lvl = l)) as [->|Hne].
  - rewrite lookup_insert_eq. simpl.
    destruct (decide _) as [E|Hn].
    + do 3 f_equal. symmetry. exact E.
    + by rewrite <- app_assoc.
  - by rewrite lookup_insert_ne.
Qed.

Lemma insert_sorted_perm x l : insert_sorted x l ≡ₚ x :: l.
Proof.
  induction l as [|y l IH]; simpl; [done|].
  destruct (String.leb x y); [done|]. rewrite IH. apply perm_swap.
Qed.

Lemma sort_strings_perm l : sort_strings l ≡ₚ l.
Proof.
  induction l as [|x l IH]; simpl; [done|].
  by rewrite insert_sorted_perm, IH.
Qed.

Lemma string_le_trans a b c : string_le a b → string_le b c → string_le a c.
Proof.
  unfold string_le, String.leb. revert b c.
  induction a as [|x a IH]; intros [|y b] [|z c]; simpl; try done.
  unfold Ascii.compare.
  destruct (N.compare_spec (Ascii.N_of_ascii x) (Ascii.N_of_ascii y)) as [Exy|Lxy|Gxy];
    destruct (N.compare_spec (Ascii.N_of_ascii y) (Ascii.N_of_ascii z)) as [Eyz|Lyz|Gyz];
    destruct (N.compare_spec (Ascii.N_of_ascii x) (Ascii.N_of_ascii z)) as [Exz|Lxz|Gxz];
    try done; try lia.
  apply IH.
Qed.

Lemma string_le_total a b : string_le a b ∨ string_le b a.
Proof. apply String.leb_total. Qed.

Lemma insert_sorted_sorted x l :
  StronglySorted string_le l → StronglySorted string_le (insert_sorted x l).
Proof.
  induction 1 as [|y l Hl IH Hy]; simpl; [repeat constructor|].
  destruct (String.leb x y) eqn:E.
  - constructor; [by constructor|]. constructor; [done|].
    eapply Forall_impl; [exact Hy|]. intros z Hz. by eapply string_le_trans.
  - constructor; [done|]. rewrite insert_sorted_perm. constructor; [|done].
    destruct (string_le_total x y) as [H|H]; [|done].
    unfold string_le in H. congruence.
Qed.

Lemma sort_strings_sorted l : StronglySorted string_le (sort_strings l).
Proof.
  induction l as [|x l IH]; simpl; [constructor|]. by apply insert_sorted_sorted.
Qed.

Lemma sorted_columns_sorted (level : gmap string nat) l c :
  (sort_strings <$> foldl add_to_column ∅ (map_to_list level)) !! l = Some c →
  StronglySorted string_le c.
Proof.
  rewrite lookup_fmap. destruct (_ !! l) as [c0|]; simpl; [|done].
  intros [= <-]. apply sort_strings_sorted.
Qed.

Lemma sorted_columns_spec (level : gmap string nat) l c :
  (sort_strings <$> foldl add_to_column ∅ (map_to_list level)) !! l = Some c →
  NoDup c ∧ ∀ v, v ∈ c ↔ level !! v = Some l.
Proof.
  rewrite lookup_fmap, columns_lookup, lookup_empty. simpl.
  destruct (decide _) as [|Hne]; [done|]. simpl. intros [= <-].
  assert (Hc : ∀ v, v ∈ (filter (λ it, it.2 = l) (map_to_list level)).*1
                    ↔ level !! v = Some l).
  { intros v. rewrite list_elem_of_fmap. split.
    - intros ([v' l'] & -> & [Hl Hin]%list_elem_of_filter). simpl in *. subst l'.
      by apply elem_of_map_to_list.
    - intros Hv. exists (v, l). split; [done|]. apply list_elem_of_filter.
      split; [done|]. by apply elem_of_map_to_list. }
  split.
  - rewrite sort_strings_perm.
    apply (NoDup_fmap_fst _); [|apply NoDup_filter, NoDup_map_to_list].
    intros v l1 l2 [_ H1%elem_of_map_to_list]%list_elem_of_filter
                   [_ H2%elem_of_map_to_list]%list_elem_of_filter.
    congruence.
  - intros v. rewrite sort_strings_perm. apply Hc.
Qed.

Lemma sorted_columns_has (level : gmap string nat) v l :
  level !! v = Some l →
  ∃ c, (sort_strings <$> foldl add_to_column ∅ (map_to_list level)) !! l = Some c.
Proof.
  intros Hv. rewrite lookup_fmap, columns_lookup, lookup_empty. simpl.
  destruct (decide _) as [E|Hne]; [|simpl; eauto].
  exfalso.
  assert (v ∈ (filter (λ it, it.2 = l) (map_to_list level)).*1) as Hin.
  { apply list_elem_of_fmap. exists (v, l). split; [done|].
    apply list_elem_of_filter. split; [done|]. by apply elem_of_map_to_list. }
  rewrite E in Hin. by apply elem_of_nil in Hin.
Qed.

(** *** Positions *)

Lemma place_nodes_lookup xs ys lvl size items : ∀ pos,
  NoDup (items.*2) →
  (∀ v, v ∉ items.*2 →
     foldl (place_node xs ys lvl size) pos items !! v = pos !! v)
  ∧ (∀ i v, (i, v) ∈ items →
     foldl (place_node xs ys lvl size) pos items !! v
     = Some (position xs ys lvl size i)).
Proof.
  induction items as [|[i0 v0] items IH]; intros pos Hnd; simpl.
  - split; [done|]. by intros i v ?%elem_of_nil.
  - simpl in Hnd. apply NoDup_cons in Hnd as [Hv0 Hnd].
    destruct (IH (<[v0:=position xs ys lvl size i0]> pos) Hnd) as [Hout Hin].
    split.
    + intros v Hv. apply not_elem_of_cons in Hv as [Hne Hv].
      rewrite (Hout v Hv). by rewrite lookup_insert_ne.
    + intros i v [[= -> ->]|Hiv]%elem_of_cons; [|by apply Hin].
      rewrite (Hout v0 Hv0). by rewrite lookup_insert_eq.
Qed.

Lemma imap_pair_snd (c : list string) : ∀ (g : nat → nat),
  (imap (λ i x, (g i, x)) c).*2 = c.
Proof.
  induction c as [|x c IH]; intros g; [done|].
  rewrite imap_cons. simpl. f_equal. apply (IH (g ∘ S)).
Qed.

Lemma enumerate_snd (c : list string) : (imap pair c).*2 = c.
Proof. exact (imap_pair_snd c id). Qed.

Lemma place_column_lookup xs ys pos lvl c :
  NoDup c →
  (∀ v, v ∉ c → place_column xs ys pos (lvl, c) !! v = pos !! v)
  ∧ (∀ i v, c !! i = Some v →
       place_column xs ys pos (lvl, c) !! v
       = Some (position xs ys lvl (length c) i)).
Proof.
  intros Hnd. unfold place_column.
  destruct (place_nodes_lookup xs ys lvl (length c) (imap pair c) pos) as [Hout Hin].
  { by rewrite enumerate_snd. }
  split.
  - intros v Hv. apply Hout. by rewrite enumerate_snd.
  - intros i v Hiv. apply Hin. by apply (elem_of_lookup_imap_2 pair).
Qed.

Lemma place_columns_lookup xs ys cl : ∀ pos,
  NoDup (cl.*1) →
  (∀ l c, (l, c) ∈ cl → NoDup c) →
  (∀ l c l' c' v, (l, c) ∈ cl → (l', c') ∈ cl → v ∈ c → v ∈ c' → l = l') →
  (∀ v, (∀ l c, (l, c) ∈ cl → v ∉ c) →
     foldl (place_column xs ys) pos cl !! v = pos !! v)
  ∧ (∀ l c i v, (l, c) ∈ cl → c !! i = Some v →
       foldl (place_column xs ys) pos cl !! v
       = Some (position xs ys l (length c) i)).
Proof.
  induction cl as [|[l0 c0] cl IH]; intros pos Hkeys Hnd Hdis; simpl.
  - split; [done|]. by intros l c i v ?%elem_of_nil.
  - simpl in Hkeys. apply NoDup_cons in Hkeys as [Hl0 Hkeys].
    destruct (IH (place_column xs ys pos (l0, c0)) Hkeys) as [Hout Hin].
    { intros l c Hlc. apply (Hnd l c). by right. }
    { intros l c l' c' v H1 H2. apply Hdis; by right. }
    destruct (place_column_lookup xs ys pos l0 c0) as [Hout0 Hin0].
    { apply (Hnd l0 c0). left. }
    split.
    + intros v Hv. rewrite Hout.
      * apply Hout0. apply (Hv l0 c0). left.
      * intros l c Hlc. apply (Hv l c). by right.
    + intros l c i v [[= -> ->]|Hlc]%elem_of_cons Hiv; [|by eapply Hin].
      rewrite Hout; [by apply Hin0|].
      intros l c Hlc Hvc. apply Hl0.
      assert (l0 = l) as ->.
      { apply (Hdis l0 c0 l c v); [left|by right| |done].
        by eapply list_elem_of_lookup_2. }
      apply list_elem_of_fmap. by exists (l, c).
Qed.

(** *** The layout, in full *)

Lemma tree_lr_layout_spec G xs ys pos :
  wf_graph G → tree_lr_layout G xs ys = Ok pos →
  ∃ level (columns : gmap nat (list string)),
    levels_correct G level
    ∧ (∀ v, is_Some (level !! v) ↔ v ∈ nodes G)
    ∧ (∀ v, level !! v = None → pos !! v = None)
    ∧ (∀ l c, columns !! l = Some c →
         NoDup c ∧ StronglySorted string_le c ∧ ∀ u, u ∈ c ↔ level !! u = Some l)
    ∧ (∀ v lv, level !! v = Some lv →
         ∃ c i, columns !! lv = Some c ∧ c !! i = Some v
                ∧ pos !! v = Some (position xs ys lv (length c) i)).
Proof.
  intros Hwf Hrun. unfold tree_lr_layout in Hrun.
  destruct (topological_sort G) as [order| |] eqn:Hts; simpl in Hrun; try done.
  destruct (assign_levels G ∅ order) as [level| |] eqn:Hlv; simpl in Hrun; try done.
  injection Hrun as <-.
  destruct (topological_sort_sound G order Hwf Hts) as (Hnd & Hmem & _).
  destruct (assign_levels_spec G order [] ∅ level Hwf Hnd
              (topological_order_prefix G order Hwf Hts)) as [Hdom Hok]; try done.
  { intros v. rewrite lookup_empty. split; [by intros [??]|by intros ?%elem_of_nil]. }
  simpl in Hdom.
  set (columns := sort_strings <$> foldl add_to_column ∅ (map_to_list level)).
  destruct (place_columns_lookup xs ys (map_to_list columns) ∅) as [Hout Hin].
  { apply NoDup_fst_map_to_list. }
  { intros l c Hlc%elem_of_map_to_list. by apply (sorted_columns_spec level l c). }
  { intros l c l' c' v H1%elem_of_map_to_list H2%elem_of_map_to_list Hv Hv'.
    apply (sorted_columns_spec level) in H1 as [_ H1], H2 as [_ H2].
    apply H1 in Hv. apply H2 in Hv'. congruence. }
  exists level, columns. split_and!; [done| |..].
  - intros v. rewrite Hdom. apply Hmem.
  - intros v Hv. rewrite Hout; [by rewrite lookup_empty|].
    intros l c Hlc%elem_of_map_to_list Hvc.
    apply (sorted_columns_spec level) in Hlc as [_ Hlc]. apply Hlc in Hvc. congruence.
  - intros l c Hc. destruct (sorted_columns_spec level l c Hc) as [H1 H2].
    split_and!; [done|by apply (sorted_columns_sorted level l)|done].
  - intros v lv Hv.
    destruct (sorted_columns_has level v lv Hv) as [c Hc]. fold columns in Hc.
    destruct (sorted_columns_spec level lv c Hc) as [Hndc Hmemc].
    assert (v ∈ c) as [i Hi]%list_elem_of_lookup_1 by (by apply Hmemc).
    exists c, i. split_and!; [done|done|].
    apply Hin; [by apply elem_of_map_to_list|done].
Qed.

Lemma tree_lr_layout_cases G xs ys :
  wf_graph G →
  (∃ pos, tree_lr_layout G xs ys = Ok pos)
  ∨ tree_lr_layout G xs ys = Err NetworkXUnfeasible.
Proof.
  intros Hwf. unfold tree_lr_layout.
  destruct (topological_sort_cases G Hwf) as [[order Hts]| ->]; [|by right].
  rewrite Hts. simpl. left.
  destruct (assign_levels_ok G order [] ∅ Hwf
              (topological_order_prefix G order Hwf Hts)) as [level ->].
  { by intros v ?%elem_of_nil. }
  simpl. by eexists.
Qed.

(** ** What [tree_lr_layout] returns for the precedence network *)

(** The layout of the network fails in one way only: the sort finds a cycle.
    No level is looked up before it has been set. *)
Theorem layout_fails_only_on_cycles tasks predecessors xs ys :
  (∃ pos, tree_lr_layout (build_graph tasks predecessors) xs ys = Ok pos)
  ∨ tree_lr_layout (build_graph tasks predecessors) xs ys = Err NetworkXUnfeasible.
Proof. apply tree_lr_layout_cases, build_graph_wf. Qed.

(** When the precedence data has no cycle the layout returns, and it holds
    a position for every task and for every identifier that the precedence
    data mentions, and for nothing else. *)
Theorem layout_places_every_task tasks predecessors xs ys :
  (∃ rank : string → nat,
     ∀ t p, p ∈ preds_of predecessors t → (rank p < rank t)%nat) →
  ∃ pos, tree_lr_layout (build_graph tasks predecessors) xs ys = Ok pos
    ∧ ∀ v, is_Some (pos !! v)
           ↔ v ∈ tasks ∨ ∃ p t, precedes predecessors p t ∧ (v = t ∨ v = p).
Proof.
  intros [rank Hrank].
  pose proof (build_graph_wf tasks predecessors) as Hwf.
  destruct (tree_lr_layout_cases _ xs ys Hwf) as [[pos Hpos]|Herr].
  - exists pos. split; [done|]. intros v. rewrite <- build_graph_nodes.
    destruct (tree_lr_layout_spec _ _ _ _ Hwf Hpos)
      as (level & columns & _ & Hdom & Hnone & _ & Hsome).
    rewrite <- Hdom. split.
    + intros [a Ha]. destruct (level !! v) eqn:E; [eauto|].
      rewrite (Hnone v E) in Ha. done.
    + intros [lv Hlv]. destruct (Hsome v lv Hlv) as (c & i & _ & _ & ->). eauto.
  - exfalso. unfold tree_lr_layout in Herr.
    destruct (topological_sort_complete _ rank Hwf) as [order Hts].
    { intros u v Huv. apply build_graph_successors in Huv. by apply Hrank. }
    rewrite Hts in Herr. simpl in Herr.
    destruct (assign_levels_ok _ order [] ∅ Hwf
                (topological_order_prefix _ order Hwf Hts)) as [level Hl].
    { by intros v ?%elem_of_nil. }
    by rewrite Hl in Herr.
Qed.

Lemma layout_places_every_task_witness :
  (∃ rank : string → nat,
     ∀ t p, p ∈ preds_of diamond_predecessors t → (rank p < rank t)%nat)
  ∧ ∃ pos,
      tree_lr_layout (build_graph diamond_tasks diamond_predecessors) 2 (3 # 2)
      = Ok pos
      ∧ ∀ v, is_Some (pos !! v)
             ↔ v ∈ diamond_tasks
               ∨ ∃ p t, precedes diamond_predecessors p t ∧ (v = t ∨ v = p).
Proof.
  split; [exact diamond_acyclic|].
  exact (layout_places_every_task diamond_tasks diamond_predecessors 2 (3 # 2)
           diamond_acyclic).
Defined.

Lemma diamond_layout_computed :
  tree_lr_layout (build_graph diamond_tasks diamond_predecessors) 2 (3 # 2)
  = Ok diamond_layout.
Proof. vm_compute. reflexivity. Qed.

Lemma position_x_lt xs ys l1 n1 i1 l2 n2 i2 :
  (0 < xs)%Q → (l1 < l2)%nat →
  ((position xs ys l1 n1 i1).1 + xs <= (position xs ys l2 n2 i2).1)%Q.
Proof.
  intros Hxs Hlt. simpl.
  assert (inject_Z (Z.of_nat l1) + 1 <= inject_Z (Z.of_nat l2))%Q as Hle.
  { change 1%Q with (inject_Z 1). rewrite <- inject_Z_plus, <- Zle_Qle. lia. }
  nra.
Qed.

(** Every edge points to the right: a task is drawn at least one column to
    the right of each of its predecessors. *)
Theorem layout_edges_point_right tasks predecessors xs ys pos p t :
  tree_lr_layout (build_graph tasks predecessors) xs ys = Ok pos →
  (0 < xs)%Q →
  precedes predecessors p t →
  ∃ a b, pos !! p = Some a ∧ pos !! t = Some b ∧ (a.1 + xs <= b.1)%Q.
Proof.
  intros Hpos Hxs Hpt.
  pose proof (build_graph_wf tasks predecessors) as Hwf.
  destruct (tree_lr_layout_spec _ _ _ _ Hwf Hpos)
    as (level & columns & Hok & Hdom & _ & _ & Hsome).
  apply (build_graph_successors tasks) in Hpt.
  destruct (wf_succ_nodes _ Hwf _ _ Hpt) as [_ Ht].
  apply Hdom in Ht as [lt Hlt].
  destruct (Hok t lt Hlt) as (_ & Hedge & _).
  destruct (Hedge p Hpt) as (lp & Hlp & Hlt').
  destruct (Hsome p lp Hlp) as (cp & ip & _ & _ & Hp).
  destruct (Hsome t lt Hlt) as (ct & it & _ & _ & Htpos).
  eexists _, _. split_and!; [done|done|]. by apply position_x_lt.
Qed.

Lemma layout_edges_point_right_witness :
  tree_lr_layout (build_graph diamond_tasks diamond_predecessors) 2 (3 # 2)
  = Ok diamond_layout
  ∧ (0 < 2)%Q
  ∧ precedes diamond_predecessors "a" "b"
  ∧ ∃ a b, diamond_layout !! "a" = Some a ∧ diamond_layout !! "b" = Some b
           ∧ (a.1 + 2 <= b.1)%Q.
Proof.
  assert (H2 : (0 < 2)%Q) by reflexivity.
  assert (H3 : precedes diamond_predecessors "a" "b")
    by (unfold precedes, preds_of; apply (bool_decide_unpack _); by vm_compute).
  split; [exact diamond_layout_computed|]. split; [exact H2|]. split; [exact H3|].
  exact (layout_edges_point_right diamond_tasks diamond_predecessors 2 (3 # 2)
           diamond_layout "a" "b" diamond_layout_computed H2 H3).
Defined.

(** The columns are tight: a task without predecessors is drawn in the
    first column, at [x = 0]; every other task is drawn exactly one column to
    the right of one of its predecessors. *)
Theorem layout_columns_are_tight tasks predecessors xs ys pos t b :
  tree_lr_layout (build_graph tasks predecessors) xs ys = Ok pos →
  pos !! t = Some b →
  ((∀ p, ¬ precedes predecessors p t) → (b.1 == 0)%Q)
  ∧ (∀ p, precedes predecessors p t →
       ∃ p' a, precedes predecessors p' t ∧ pos !! p' = Some a
               ∧ (b.1 == a.1 + xs)%Q).
Proof.
  intros Hpos Hb.
  pose proof (build_graph_wf tasks predecessors) as Hwf.
  destruct (tree_lr_layout_spec _ _ _ _ Hwf Hpos)
    as (level & columns & Hok & Hdom & Hnone & _ & Hsome).
  destruct (level !! t) as [lt|] eqn:Hlt; [|by rewrite (Hnone t Hlt) in Hb].
  destruct (Hsome t lt Hlt) as (ct & it & _ & _ & Htpos).
  rewrite Hb in Htpos. injection Htpos as ->.
  destruct (Hok t lt Hlt) as (Hroot & _ & Hinner).
  split.
  - intros Hnone'. rewrite Hroot; [simpl; ring|].
    destruct (graph_predecessors _ t) as [|p ps] eqn:E; [done|].
    exfalso. apply (Hnone' p). apply (build_graph_successors tasks).
    apply (elem_of_graph_predecessors _ _ _ Hwf). rewrite E. left.
  - intros p Hp. destruct Hinner as (u & lu & Hu & Hlu & ->).
    { intros E. apply (build_graph_successors tasks) in Hp.
      apply (elem_of_graph_predecessors _ _ _ Hwf) in Hp. rewrite E in Hp.
      by apply elem_of_nil in Hp. }
    destruct (Hsome u lu Hlu) as (cu & iu & _ & _ & Hupos).
    eexists u, _. split_and!; [by apply (build_graph_successors tasks)|done|].
    simpl. rewrite Nat2Z.inj_succ, <- Z.add_1_r, inject_Z_plus.
    change (inject_Z 1) with 1%Q. ring.
Qed.

Lemma layout_columns_are_tight_witness :
  tree_lr_layout (build_graph diamond_tasks diamond_predecessors) 2 (3 # 2)
  = Ok diamond_layout
  ∧ diamond_layout !! "d" = Some (4%Q, 0 # 4)
  ∧ ((∀ p, ¬ precedes diamond_predecessors p "d") → ((4%Q, 0 # 4).1 == 0)%Q)
  ∧ (∀ p, precedes diamond_predecessors p "d" →
       ∃ p' a, precedes diamond_predecessors p' "d" ∧ diamond_layout !! p' = Some a
               ∧ ((4%Q, 0 # 4).1 == a.1 + 2)%Q).
Proof.
  assert (H2 : diamond_layout !! "d" = Some (4%Q, 0 # 4)) by (vm_compute; reflexivity).
  split; [exact diamond_layout_computed|]. split; [exact H2|].
  exact (layout_columns_are_tight diamond_tasks diamond_predecessors 2 (3 # 2)
           diamond_layout "d" (4%Q, 0 # 4) diamond_layout_computed H2).
Defined.

Lemma inject_nat_inj (a b : nat) :
  (inject_Z (Z.of_nat a) == inject_Z (Z.of_nat b))%Q → a = b.
Proof. intros H. apply Nat2Z.inj. by apply inject_Z_injective. Qed.

(** No two nodes are drawn at the same place. *)
Theorem layout_no_overlap tasks predecessors xs ys pos u v a b :
  tree_lr_layout (build_graph tasks predecessors) xs ys = Ok pos →
  ¬ (xs == 0)%Q → ¬ (ys == 0)%Q →
  pos !! u = Some a → pos !! v = Some b →
  (a.1 == b.1)%Q → (a.2 == b.2)%Q →
  u = v.
Proof.
  intros Hpos Hxs Hys Ha Hb Hx Hy.
  pose proof (build_graph_wf tasks predecessors) as Hwf.
  destruct (tree_lr_layout_spec _ _ _ _ Hwf Hpos)
    as (level & columns & _ & _ & Hnone & _ & Hsome).
  destruct (level !! u) as [lu|] eqn:Hlu; [|by rewrite (Hnone u Hlu) in Ha].
  destruct (level !! v) as [lv|] eqn:Hlv; [|by rewrite (Hnone v Hlv) in Hb].
  destruct (Hsome u lu Hlu) as (cu & iu & Hcu & Hiu & Hupos).
  destruct (Hsome v lv Hlv) as (cv & iv & Hcv & Hiv & Hvpos).
  rewrite Ha in Hupos. injection Hupos as ->.
  rewrite Hb in Hvpos. injection Hvpos as ->.
  simpl in Hx, Hy.
  assert (lu = lv) as ->.
  { apply inject_nat_inj. by apply Qmult_inj_r in Hx. }
  rewrite Hcu in Hcv. injection Hcv as ->.
  assert (iu = iv) as ->.
  { apply inject_nat_inj. apply Qmult_inj_r in Hy; [|done].
    revert Hy. generalize ((inject_Z (Z.of_nat (length cv)) - 1) / 2)%Q.
    generalize (inject_Z (Z.of_nat iu)). generalize (inject_Z (Z.of_nat iv)).
    intros q2 q1 top H. lra. }
  congruence.
Qed.

Lemma layout_no_overlap_witness :
  tree_lr_layout (build_graph diamond_tasks diamond_predecessors) 2 (3 # 2)
  = Ok diamond_layout
  ∧ ¬ (2 == 0)%Q ∧ ¬ (3 # 2 == 0)%Q
  ∧ diamond_layout !! "b" = Some (2%Q, 3 # 4)
  ∧ ((2%Q, 3 # 4).1 == (2%Q, 3 # 4).1)%Q ∧ ((2%Q, 3 # 4).2 == (2%Q, 3 # 4).2)%Q
  ∧ "b" = "b".
Proof.
  assert (H2 : ¬ (2 == 0)%Q) by done.
  assert (H3 : ¬ (3 # 2 == 0)%Q) by done.
  assert (H4 : diamond_layout !! "b" = Some (2%Q, 3 # 4)) by (vm_compute; reflexivity).
  assert (H5 : ((2%Q, 3 # 4).1 == (2%Q, 3 # 4).1)%Q) by reflexivity.
  assert (H6 : ((2%Q, 3 # 4).2 == (2%Q, 3 # 4).2)%Q) by reflexivity.
  split; [exact diamond_layout_computed|]. split; [exact H2|]. split; [exact H3|].
  split; [exact H4|]. split; [exact H5|]. split; [exact H6|].
  exact (layout_no_overlap diamond_tasks diamond_predecessors 2 (3 # 2)
           diamond_layout "b" "b" (2%Q, 3 # 4) (2%Q, 3 # 4)
           diamond_layout_computed H2 H3 H4 H4 H5 H6).
Defined.

(** Every column is centred on the axis [y = 0]: with a node at [(x, y)]
    there is a node at [(x, -y)]. *)
Theorem layout_columns_centred tasks predecessors xs ys pos v b :
  tree_lr_layout (build_graph tasks predecessors) xs ys = Ok pos →
  pos !! v = Some b →
  ∃ u a, pos !! u = Some a ∧ (a.1 == b.1)%Q ∧ (a.2 == - b.2)%Q.
Proof.
  intros Hpos Hb.
  pose proof (build_graph_wf tasks predecessors) as Hwf.
  destruct (tree_lr_layout_spec _ _ _ _ Hwf Hpos)
    as (level & columns & _ & _ & Hnone & Hcols & Hsome).
  destruct (level !! v) as [lv|] eqn:Hlv; [|by rewrite (Hnone v Hlv) in Hb].
  destruct (Hsome v lv Hlv) as (c & i & Hc & Hi & Hvpos).
  rewrite Hb in Hvpos. injection Hvpos as ->.
  pose proof (lookup_lt_Some _ _ _ Hi) as Hlen.
  destruct (lookup_lt_is_Some_2 c (length c - 1 - i)) as [u Hu]; [lia|].
  assert (Hul : level !! u = Some lv).
  { apply (Hcols lv c Hc). by eapply list_elem_of_lookup_2. }
  destruct (Hsome u lv Hul) as (c' & j & Hc' & Hj & Hupos).
  rewrite Hc in Hc'. injection Hc' as <-.
  assert (j = length c - 1 - i) as ->.
  { destruct (Hcols lv c Hc) as [Hnd _]. by eapply NoDup_lookup. }
  eexists u, _. split_and!; [done|reflexivity|]. simpl.
  assert (inject_Z (Z.of_nat (length c - 1 - i))
          == inject_Z (Z.of_nat (length c)) - 1 - inject_Z (Z.of_nat i))%Q as ->.
  { rewrite !Nat2Z.inj_sub by lia. unfold Z.sub.
    rewrite !inject_Z_plus, !inject_Z_opp. simpl. ring. }
  field.
Qed.

Lemma layout_columns_centred_witness :
  tree_lr_layout (build_graph diamond_tasks diamond_predecessors) 2 (3 # 2)
  = Ok diamond_layout
  ∧ diamond_layout !! "b" = Some (2%Q, 3 # 4)
  ∧ ∃ u a, diamond_layout !! u = Some a ∧ (a.1 == (2%Q, 3 # 4).1)%Q
           ∧ (a.2 == - (2%Q, 3 # 4).2)%Q.
Proof.
  assert (H2 : diamond_layout !! "b" = Some (2%Q, 3 # 4)) by (vm_compute; reflexivity).
  split; [exact diamond_layout_computed|]. split; [exact H2|].
  exact (layout_columns_centred diamond_tasks diamond_predecessors 2 (3 # 2)
           diamond_layout "b" (2%Q, 3 # 4) diamond_layout_computed H2).
Defined.

Lemma StronglySorted_lookup_le (c : list string) i j u v :
  StronglySorted string_le c → c !! i = Some u → c !! j = Some v → (i < j)%nat →
  string_le u v.
Proof.
  intros Hs. revert i j. induction Hs as [|x c Hc IH Hx]; intros i j Hi Hj Hlt.
  - by rewrite lookup_nil in Hi.
  - destruct j as [|j]; [lia|]. simpl in Hj. destruct i as [|i].
    + simpl in Hi. injection Hi as ->. rewrite Forall_forall in Hx.
      apply Hx. by eapply list_elem_of_lookup_2.
    + simpl in Hi. apply (IH i j); [done|done|lia].
Qed.

(** Within a column the nodes are stacked from top to bottom in the order of
    their identifiers, [y_spacing] apart. *)
Theorem layout_columns_in_order tasks predecessors xs ys pos u v a b :
  tree_lr_layout (build_graph tasks predecessors) xs ys = Ok pos →
  ¬ (xs == 0)%Q → (0 < ys)%Q →
  pos !! u = Some a → pos !! v = Some b →
  (a.1 == b.1)%Q → u ≠ v → string_le u v →
  (b.2 + ys <= a.2)%Q.
Proof.
  intros Hpos Hxs Hys Ha Hb Hx Hne Hle.
  pose proof (build_graph_wf tasks predecessors) as Hwf.
  destruct (tree_lr_layout_spec _ _ _ _ Hwf Hpos)
    as (level & columns & _ & _ & Hnone & Hcols & Hsome).
  destruct (level !! u) as [lu|] eqn:Hlu; [|by rewrite (Hnone u Hlu) in Ha].
  destruct (level !! v) as [lv|] eqn:Hlv; [|by rewrite (Hnone v Hlv) in Hb].
  destruct (Hsome u lu Hlu) as (cu & iu & Hcu & Hiu & Hupos).
  destruct (Hsome v lv Hlv) as (cv & iv & Hcv & Hiv & Hvpos).
  rewrite Ha in Hupos. injection Hupos as ->.
  rewrite Hb in Hvpos. injection Hvpos as ->.
  simpl in Hx.
  assert (lu = lv) as ->.
  { apply inject_nat_inj. by apply Qmult_inj_r in Hx. }
  rewrite Hcu in Hcv. injection Hcv as ->.
  destruct (Hcols lv cv Hcu) as (_ & Hsorted & _).
  assert (iu < iv)%nat as Hlt.
  { destruct (decide (iu < iv)%nat) as [|Hge]; [done|]. exfalso.
    destruct (decide (iu = iv)) as [->|Hneq]; [congruence|].
    apply Hne, String.leb_antisym; [done|].
    apply (StronglySorted_lookup_le cv iv iu v u); [done|done|done|lia]. }
  simpl.
  assert (inject_Z (Z.of_nat iu) + 1 <= inject_Z (Z.of_nat iv))%Q as Hi.
  { change 1%Q with (inject_Z 1). rewrite <- inject_Z_plus, <- Zle_Qle. lia. }
  revert Hi. generalize ((inject_Z (Z.of_nat (length cv)) - 1) / 2)%Q.
  generalize (inject_Z (Z.of_nat iu)). generalize (inject_Z (Z.of_nat iv)).
  intros q2 q1 top Hi. nra.
Qed.

Lemma layout_columns_in_order_witness :
  tree_lr_layout (build_graph diamond_tasks diamond_predecessors) 2 (3 # 2)
  = Ok diamond_layout
  ∧ ¬ (2 == 0)%Q ∧ (0 < 3 # 2)%Q
  ∧ diamond_layout !! "b" = Some (2%Q, 3 # 4)
  ∧ diamond_layout !! "c" = Some (2%Q, -3 # 4)
  ∧ ((2%Q, 3 # 4).1 == (2%Q, -3 # 4).1)%Q
  ∧ "b" ≠ "c" ∧ string_le "b" "c"
  ∧ ((2%Q, -3 # 4).2 + (3 # 2) <= (2%Q, 3 # 4).2)%Q.
Proof.
  assert (H2 : ¬ (2 == 0)%Q) by done.
  assert (H3 : (0 < 3 # 2)%Q) by reflexivity.
  assert (H4 : diamond_layout !! "b" = Some (2%Q, 3 # 4)) by (vm_compute; reflexivity).
  assert (H5 : diamond_layout !! "c" = Some (2%Q, -3 # 4)) by (vm_compute; reflexivity).
  assert (H6 : ((2%Q, 3 # 4).1 == (2%Q, -3 # 4).1)%Q) by reflexivity.
  assert (H7 : "b" ≠ "c") by done.
  assert (H8 : string_le "b" "c") by reflexivity.
  split; [exact diamond_layout_computed|]. split; [exact H2|]. split; [exact H3|].
  split; [exact H4|]. split; [exact H5|]. split; [exact H6|]. split; [exact H7|].
  split; [exact H8|].
  exact (layout_columns_in_order diamond_tasks diamond_predecessors 2 (3 # 2)
           diamond_layout "b" "c" (2%Q, 3 # 4) (2%Q, -3 # 4)
           diamond_layout_computed H2 H3 H4 H5 H6 H7 H8).
Defined.

(** * The colours of the allocation tab *)

Lemma palette_colour_not_gray i : palette_colour i ≠ "lightgray".
Proof.
  unfold palette_colour. change (length palette) with 9.
  pose proof (Nat.mod_upper_bound i 9) as H.
  destruct (i mod 9) as [|[|[|[|[|[|[|[|[|n]]]]]]]]]; simpl; try done; lia.
Qed.

Lemma colour_tasks_lookup col l : ∀ (colour : gmap string string) x,
  foldl (λ c t, <[t := col]> c) colour l !! x
  = if decide (x ∈ l) then Some col else colour !! x.
Proof.
  induction l as [|t l IH]; intros colour x; simpl; [done|].
  rewrite IH. destruct (decide (x ∈ l)) as [Hl|Hl].
  - destruct (decide (x ∈ t :: l)); [done|set_solver].
  - destruct (decide (x = t)) as [->|Hne].
    + rewrite lookup_insert_eq. destruct (decide (t ∈ t :: l)); [done|set_solver].
    + rewrite lookup_insert_ne by done.
      destruct (decide (x ∈ t :: l)); [set_solver|done].
Qed.

Lemma station_colours_sound w items : ∀ (colour0 : gmap string string) t c,
  foldl (colour_station w) colour0 items !! t = Some c →
  colour0 !! t = Some c
  ∨ ∃ i s, (i, s) ∈ items ∧ t ∈ default [] (w !! s) ∧ c = palette_colour i.
Proof.
  induction items as [|[i s] items IH]; intros colour0 t c Hc; simpl in Hc; [by left|].
  apply IH in Hc as [Hc|(i' & s' & Hin & Ht & ->)].
  - unfold colour_station in Hc. rewrite colour_tasks_lookup in Hc.
    destruct (decide (t ∈ default [] (w !! s))) as [Ht|Ht]; [|by left].
    injection Hc as <-. right. exists i, s. split_and!; [left|done|done].
  - right. exists i', s'. split_and!; [by right|done|done].
Qed.

Lemma station_colours_keep w items : ∀ (colour0 : gmap string string) t,
  is_Some (colour0 !! t) → is_Some (foldl (colour_station w) colour0 items !! t).
Proof.
  induction items as [|[i s] items IH]; intros colour0 t Ht; simpl; [done|].
  apply IH. unfold colour_station. rewrite colour_tasks_lookup.
  destruct (decide _); [eauto|done].
Qed.

Lemma station_colours_complete w items : ∀ (colour0 : gmap string string) i s t,
  (i, s) ∈ items → t ∈ default [] (w !! s) →
  is_Some (foldl (colour_station w) colour0 items !! t).
Proof.
  induction items as [|[i0 s0] items IH]; intros colour0 i s t Hin Ht; simpl.
  - by apply elem_of_nil in Hin.
  - apply elem_of_cons in Hin as [[= -> ->]|Hin]; [|by eapply IH].
    apply station_colours_keep. unfold colour_station.
    rewrite colour_tasks_lookup. destruct (decide _); [eauto|done].
Qed.

Lemma StronglySorted_seq a n : StronglySorted (≤) (seq a n).
Proof.
  revert a. induction n as [|n IH]; intros a; simpl; constructor; [apply IH|].
  apply Forall_forall. intros x Hx%elem_of_seq. lia.
Qed.

Lemma sorted_stations_seq (w : gmap nat (list string)) n :
  dom w = set_seq 1 n → sorted_stations w = seq 1 n.
Proof.
  intros Hdom. unfold sorted_stations.
  apply (StronglySorted_unique (≤)).
  - apply (StronglySorted_merge_sort _).
  - apply StronglySorted_seq.
  - rewrite merge_sort_Permutation.
    apply NoDup_Permutation; [apply NoDup_fst_map_to_list|apply NoDup_seq|].
    intros k. rewrite elem_of_seq. rewrite list_elem_of_fmap. split.
    + intros ([k' l] & -> & Hin%elem_of_map_to_list). simpl.
      assert (k' ∈ dom w) as Hk by (apply elem_of_dom; eauto).
      rewrite Hdom, elem_of_set_seq in Hk. lia.
    + intros Hk. assert (k ∈ dom w) as [l Hl]%elem_of_dom.
      { rewrite Hdom, elem_of_set_seq. lia. }
      exists (k, l). split; [done|]. by apply elem_of_map_to_list.
Qed.

(** In the allocation tab every task of a returned assignment is drawn in
    the colour of its station, the palette entry number
    [(station - 1) mod 9]; no task is left in the fallback colour. *)
Theorem tasks_drawn_in_station_colour f fuel tasks times predecessors cycle_time
    heuristic w m :
  engine f fuel tasks times predecessors cycle_time heuristic = Done (w, m) →
  ∀ j t, tasks !! j = Some t →
    ∃ k i, at_position w k i t
         ∧ node_colours w tasks !! j = Some (palette_colour (k - 1))
         ∧ palette_colour (k - 1) ≠ "lightgray".
Proof.
  intros Hrun j t Hj.
  apply engine_Done_full in Hrun
    as (st & Hinv & Hfin & Hlast & _ & -> & _).
  assert (Hnd : NoDup tasks).
  { destruct (decide (NoDup tasks)) as [|Hdup]; [done|]. exfalso.
    unfold unfinished in Hfin. apply bool_decide_eq_false in Hfin.
    assert (Hsub : assigned_tasks st ⊆ list_to_set tasks).
    { intros x Hx. apply elem_of_list_to_set. by apply (inv_tasks _ _ _ _ _ Hinv). }
    apply subseteq_size in Hsub.
    pose proof (size_list_to_set_dup tasks Hdup). lia. }
  assert (Ht : t ∈ assigned_tasks st).
  { apply (finished_all_assigned _ _ _ _ _ Hnd Hinv Hfin).
    by eapply list_elem_of_lookup_2. }
  apply (inv_assigned _ _ _ _ _ Hinv) in Ht as (k & i & Hpos).
  exists k, i. split_and!; [done| |apply palette_colour_not_gray].
  unfold node_colours. rewrite list_lookup_fmap, Hj. simpl. f_equal.
  pose proof (dom_workstations_seq _ _ _ _ _ Hinv Hlast) as Hdom.
  unfold station_colours. rewrite (sorted_stations_seq _ _ Hdom).
  destruct Hpos as (l & Hl & Hi).
  destruct (inv_stations _ _ _ _ _ Hinv k l Hl) as [Hk _].
  assert (Hmem : t ∈ default [] (workstations st !! k)).
  { rewrite Hl. simpl. by eapply list_elem_of_lookup_2. }
  destruct (station_colours_complete (workstations st)
              (imap pair (seq 1 (current_station st))) ∅ (k - 1) k t)
    as [c Hc]; [|done|].
  { apply elem_of_lookup_imap. exists (k - 1), k. split; [done|].
    rewrite lookup_seq. split; [f_equal|]; lia. }
  rewrite Hc. simpl.
  apply station_colours_sound in Hc as [Hc|(i' & s' & Hin & Ht' & ->)];
    [by rewrite lookup_empty in Hc|].
  apply elem_of_lookup_imap in Hin as (i'' & s'' & [= -> ->] & Hs).
  apply lookup_seq in Hs as [-> _].
  destruct (workstations st !! (1 + i'')) as [l'|] eqn:Hl'; simpl in Ht';
    [|by apply elem_of_nil in Ht'].
  apply list_elem_of_lookup_1 in Ht' as [i' Hi'].
  destruct (inv_unique _ _ _ _ _ Hinv t k i (1 + i'') i') as [-> _].
  { by exists l. }
  { by exists l'. }
  f_equal. lia.
Qed.

Lemma tasks_drawn_in_station_colour_witness :
  engine line_py 3 chain_tasks chain_times chain_predecessors 10
         "longest_task_time" = Done (chain_workstations, chain_metrics)
  ∧ chain_tasks !! 1%nat = Some "B"
  ∧ ∃ k i, at_position chain_workstations k i "B"
         ∧ node_colours chain_workstations chain_tasks !! 1%nat
           = Some (palette_colour (k - 1))
         ∧ palette_colour (k - 1) ≠ "lightgray".
Proof.
  assert (H1 : engine line_py 3 chain_tasks chain_times chain_predecessors 10
                 "longest_task_time" = Done (chain_workstations, chain_metrics))
    by (vm_compute; reflexivity).
  assert (H2 : chain_tasks !! 1%nat = Some "B") by reflexivity.
  split; [exact H1|]. split; [exact H2|].
  exact (tasks_drawn_in_station_colour line_py 3 chain_tasks chain_times
           chain_predecessors 10 "longest_task_time" chain_workstations
           chain_metrics H1 1%nat "B" H2).
Defined.

(** * Data entry at the console *)

Section ConsoleFacts.

Context {char : Type} `{Countable char}.
Context (is_space : char → bool) (comma : char).
Context {number : Type} (float : list char → option number).

Local Abbreviation lstrip' := (lstrip is_space).
Local Abbreviation strip' := (strip is_space).
Local Abbreviation split' := (split comma).
Local Abbreviation parse_ids' := (parse_ids is_space comma).
Local Abbreviation trimmed' := (trimmed is_space comma).

Lemma lstrip_suffix s : ∃ pre, s = pre ++ lstrip' s.
Proof.
  induction s as [|c s [pre IH]]; simpl; [by exists []|].
  destruct (is_space c); [|by exists []].
  exists (c :: pre). simpl. by f_equal.
Qed.

Lemma lstrip_head s c : head (lstrip' s) = Some c → is_space c = false.
Proof.
  induction s as [|x s IH]; simpl; [done|].
  destruct (is_space x) eqn:E; [done|]. simpl. by intros [= <-].
Qed.

Lemma lstrip_last s c : last (lstrip' s) = Some c → last s = Some c.
Proof.
  intros Hl. destruct (lstrip_suffix s) as [pre Heq].
  rewrite Heq at 1. rewrite last_app, Hl. done.
Qed.

Lemma elem_of_lstrip s c : c ∈ lstrip' s → c ∈ s.
Proof.
  intros Hc. destruct (lstrip_suffix s) as [pre Heq].
  rewrite Heq. apply elem_of_app. by right.
Qed.

Lemma elem_of_strip s c : c ∈ strip' s → c ∈ s.
Proof.
  unfold strip. rewrite elem_of_reverse. intros Hc%elem_of_lstrip.
  rewrite elem_of_reverse in Hc. by apply elem_of_lstrip.
Qed.

Lemma strip_head s c : head (strip' s) = Some c → is_space c = false.
Proof.
  unfold strip. rewrite head_reverse. intros Hl%lstrip_last.
  rewrite last_reverse in Hl. by apply lstrip_head in Hl.
Qed.

Lemma strip_last s c : last (strip' s) = Some c → is_space c = false.
Proof. unfold strip. rewrite last_reverse. apply lstrip_head. Qed.

Lemma split_no_comma s piece : piece ∈ split' s → comma ∉ piece.
Proof.
  revert piece. induction s as [|c s IH]; simpl; intros piece Hp.
  - apply list_elem_of_singleton in Hp as ->. by intros ?%elem_of_nil.
  - destruct (decide (c = comma)) as [->|Hne].
    + apply elem_of_cons in Hp as [->|Hp]; [by intros ?%elem_of_nil|by apply IH].
    + destruct (split' s) as [|p ps] eqn:E.
      * apply list_elem_of_singleton in Hp as ->.
        intros Hc%list_elem_of_singleton. done.
      * apply elem_of_cons in Hp as [->|Hp].
        -- intros [?|Hc]%elem_of_cons; [done|]. revert Hc. apply IH. left.
        -- apply IH. by right.
Qed.

Lemma parse_ids_trimmed s p : p ∈ parse_ids' s → trimmed' p.
Proof.
  unfold parse_ids. intros [Hne Hp]%list_elem_of_filter.
  apply list_elem_of_fmap in Hp as (piece & -> & Hpiece).
  split_and!.
  - done.
  - intros Hc%elem_of_strip. by apply (split_no_comma s piece).
  - apply strip_head.
  - apply strip_last.
Qed.

Lemma read_tasks_spec tasks : ∀ times predecessors lines times' predecessors' rest,
  read_tasks is_space comma float tasks times predecessors lines
  = inr (times', predecessors', rest) →
  (∀ t, is_Some (times' !! t) ↔ is_Some (times !! t) ∨ t ∈ tasks)
  ∧ (∀ t, is_Some (predecessors' !! t) ↔ is_Some (predecessors !! t) ∨ t ∈ tasks)
  ∧ (∀ t ps p, predecessors' !! t = Some ps → p ∈ ps →
       predecessors !! t = Some ps ∨ trimmed' p)
  ∧ (2 * length tasks ≤ length lines)%nat
  ∧ drop (2 * length tasks) lines = rest.
Proof.
  induction tasks as [|t tasks IH];
    intros times predecessors lines times' predecessors' rest Hrun; simpl in Hrun.
  - injection Hrun as <- <- <-. split_and!.
    + intros t. rewrite elem_of_nil. tauto.
    + intros t. rewrite elem_of_nil. tauto.
    + intros t ps p Hps _. by left.
    + simpl. lia.
    + done.
  - destruct lines as [|l1 lines]; simpl in Hrun; [done|].
    destruct (float (strip' l1)) as [d|]; [|done].
    destruct lines as [|l2 lines]; simpl in Hrun; [done|].
    apply IH in Hrun as (H1 & H2 & H3 & H4 & H5). split_and!.
    + intros x. rewrite H1, elem_of_cons.
      destruct (decide (x = t)) as [->|Hne].
      * rewrite lookup_insert_eq. split; [by right; left|eauto].
      * rewrite lookup_insert_ne by done. naive_solver.
    + intros x. rewrite H2, elem_of_cons.
      destruct (decide (x = t)) as [->|Hne].
      * rewrite lookup_insert_eq. split; [by right; left|eauto].
      * rewrite lookup_insert_ne by done. naive_solver.
    + intros x ps p Hps Hp. destruct (H3 x ps p Hps Hp) as [Hx|?]; [|by right].
      destruct (decide (x = t)) as [->|Hne].
      * rewrite lookup_insert_eq in Hx. injection Hx as <-.
        right. by apply (parse_ids_trimmed (strip' l2)).
      * rewrite lookup_insert_ne in Hx by done. by left.
    + simpl. lia.
    + replace (2 * length (t :: tasks))%nat with (S (S (2 * length tasks)))
        by (simpl; lia).
      done.
Qed.

End ConsoleFacts.

(** What [collect_data_from_user] returns when it returns: identifiers
    without commas and without white space around them, none of them empty; a
    duration and a list of predecessors for exactly the tasks entered; and it has read one line for the identifiers, two
    for each task and two more, the last of them the answer that decides
    the heuristic. *)
Theorem collected_data_is_well_shaped {char : Type} `{Countable char}
    (is_space : char → bool) (comma : char) {number : Type}
    (float : list char → option number) (two : list char)
    lines tasks times predecessors cycle_time heuristic rest :
  collect_data_from_user is_space comma float two lines
  = inr (tasks, times, predecessors, cycle_time, heuristic, rest) →
  (∀ t, t ∈ tasks → trimmed is_space comma t)
  ∧ (∀ t, is_Some (times !! t) ↔ t ∈ tasks)
  ∧ (∀ t, is_Some (predecessors !! t) ↔ t ∈ tasks)
  ∧ (∀ t ps p, predecessors !! t = Some ps → p ∈ ps → trimmed is_space comma p)
  ∧ (∃ answer, lines !! (2 * length tasks + 2)%nat = Some answer
       ∧ heuristic = if decide (strip is_space answer = two)
                     then "ranked_positional_weight" else "longest_task_time")
  ∧ rest = drop (2 * length tasks + 3) lines
  ∧ length lines = (2 * length tasks + 3 + length rest)%nat.
Proof.
  unfold collect_data_from_user. intros Hrun.
  destruct lines as [|l0 lines]; simpl in Hrun; [done|].
  destruct (read_tasks is_space comma float (parse_ids is_space comma l0) ∅ ∅ lines)
    as [e|[[times' preds'] lines1]] eqn:Hread; [done|].
  destruct lines1 as [|l1 lines1]; simpl in Hrun; [done|].
  destruct (float (strip is_space l1)) as [ct|]; [|done].
  destruct lines1 as [|l2 lines1]; simpl in Hrun; [done|].
  injection Hrun as <- <- <- <- <- <-.
  apply (read_tasks_spec is_space comma float) in Hread
    as (H1 & H2 & H3 & H4 & H5).
  set (n := length (parse_ids is_space comma l0)) in *.
  assert (Hlen : length lines = (2 * n + 2 + length lines1)%nat).
  { rewrite <- (take_drop (2 * n) lines) at 1.
    rewrite length_app, length_take, H5. simpl. lia. }
  split_and!.
  - intros t. apply (parse_ids_trimmed is_space comma l0).
  - intros t. rewrite H1, lookup_empty. split; [by intros [[??]|?]|by right].
  - intros t. rewrite H2, lookup_empty. split; [by intros [[??]|?]|by right].
  - intros t ps p Hps Hp. destruct (H3 t ps p Hps Hp) as [Hx|?]; [|done].
    by rewrite lookup_empty in Hx.
  - exists l2. split; [|done].
    replace (2 * n + 2)%nat with (S (2 * n + 1)) by lia.
    change ((l0 :: lines) !! S (2 * n + 1)) with (lines !! (2 * n + 1)%nat).
    rewrite <- lookup_drop, H5. done.
  - replace (2 * n + 3)%nat with (S (2 * n + 2)) by lia.
    change (drop (S (2 * n + 2)) (l0 :: lines)) with (drop (2 * n + 2) lines).
    rewrite <- drop_drop, H5. done.
  - simpl. lia.
Qed.

Lemma example_collected :
  collect_data_from_user example_is_space example_comma example_float
    (String.list_ascii_of_string "2") example_lines
  = inr ([example_A; example_B],
         {[ example_A := 8%Q; example_B := 5%Q ]},
         {[ example_A := []; example_B := [example_A] ]},
         10%Q, "ranked_positional_weight", []).
Proof. vm_compute. reflexivity. Qed.

Lemma collected_data_is_well_shaped_witness :
  collect_data_from_user example_is_space example_comma example_float
    (String.list_ascii_of_string "2") example_lines
  = inr ([example_A; example_B],
         {[ example_A := 8%Q; example_B := 5%Q ]},
         {[ example_A := []; example_B := [example_A] ]},
         10%Q, "ranked_positional_weight", [])
  ∧ (∀ t, t ∈ [example_A; example_B] → trimmed example_is_space example_comma t)
  ∧ (∀ t, is_Some (({[ example_A := 8%Q; example_B := 5%Q ]}
                     : gmap (list Ascii.ascii) Q) !! t)
          ↔ t ∈ [example_A; example_B])
  ∧ (∀ t, is_Some (({[ example_A := []; example_B := [example_A] ]}
                     : gmap (list Ascii.ascii) (list (list Ascii.ascii))) !! t)
          ↔ t ∈ [example_A; example_B])
  ∧ (∀ t ps p,
       ({[ example_A := []; example_B := [example_A] ]}
          : gmap (list Ascii.ascii) (list (list Ascii.ascii))) !! t = Some ps →
       p ∈ ps → trimmed example_is_space example_comma p)
  ∧ (∃ answer,
       example_lines !! (2 * length [example_A; example_B] + 2)%nat = Some answer
       ∧ "ranked_positional_weight"
         = if decide (strip example_is_space answer = String.list_ascii_of_string "2")
           then "ranked_positional_weight" else "longest_task_time")
  ∧ [] = drop (2 * length [example_A; example_B] + 3) example_lines
  ∧ length example_lines
    = (2 * length [example_A; example_B] + 3
       + length (@nil (list Ascii.ascii)))%nat.
Proof.
  split; [exact example_collected|].
  exact (collected_data_is_well_shaped example_is_space example_comma example_float
           (String.list_ascii_of_string "2") example_lines _ _ _ _ _ _
           example_collected).
Defined.
